(** * ts-flp: the FL Studio project container, its event decoder and serializer

    A shallow embedding of [src/generated/events.generated.ts],
    [src/io/BinaryReader.ts], [src/io/BinaryWriter.ts] and
    [src/parser/FlpParser.ts], followed by the properties of the
    parser/serializer pair.

    Conventions.
    - A Node [Buffer] is a [list byte]; offsets and JavaScript numbers are
      [Z] (every number met here is an integer far below 2^53, where the
      double arithmetic of JavaScript is exact).
    - Reading [buf[i]] outside the buffer yields [undefined]: [get] returns
      [None], and each use spells out what JavaScript does with it.
    - A thrown [Error] is the [Err] case of [result]. *)

From Stdlib Require Import String Ascii.
From Stdlib Require Import ZArith List Lia Bool.
From Stdlib.Strings Require Import Byte.
Import ListNotations.
Open Scope Z_scope.

Set Implicit Arguments.

(** ** Bytes and buffers *)

Definition byteZ (b : byte) : Z := Z.of_N (Byte.to_N b).

Definition byte_of_Z (z : Z) : byte :=
  match Byte.of_N (Z.to_N (z mod 256)) with
  | Some b => b
  | None => x00
  end.

Definition bytes_of (l : list Z) : list byte := map byte_of_Z l.

Definition len (buf : list byte) : Z := Z.of_nat (length buf).

(** [buf[i]] *)
Definition get (buf : list byte) (i : Z) : option Z :=
  if i <? 0 then None else option_map byteZ (nth_error buf (Z.to_nat i)).

(** [buf.subarray(s, e)] for [0 <= s]; the end is clamped to the length. *)
Definition subarray (buf : list byte) (s e : Z) : list byte :=
  firstn (Z.to_nat (e - s)) (skipn (Z.to_nat s) buf).

(** [x < n] where [x] may be [undefined] (the comparison is then false). *)
Definition js_lt (x : option Z) (n : Z) : bool :=
  match x with Some v => v <? n | None => false end.

(** [x & m] where [x] may be [undefined] (ToInt32 of it is 0). *)
Definition js_and (x : option Z) (m : Z) : Z :=
  match x with Some v => Z.land v m | None => 0 end.

(** ToInt32 and ToUint32 *)
Definition to_int32 (z : Z) : Z := (z + 2^31) mod 2^32 - 2^31.
Definition to_uint32 (z : Z) : Z := z mod 2^32.

(** [x << s] on 32-bit integers: the count is taken modulo 32. *)
Definition shl32 (x s : Z) : Z := to_int32 (Z.shiftl x (s mod 32)).

(** ** Errors *)

Inductive error : Type :=
| InvalidHeaderMagic      (* Invalid header magic: expected 'FLhd' *)
| InvalidHeaderSize       (* Invalid header size *)
| InvalidFileFormat       (* Invalid file format *)
| InvalidDataMagic        (* Invalid data magic: expected 'FLdt' *)
| DataChunkSizeMismatch   (* Data chunk size mismatch *)
| ReadBeyondBounds        (* smart-buffer: read beyond the bounds of the data *)
| InvalidTargetOffset     (* smart-buffer: offset outside the buffer *)
| IndexOutOfRange         (* protobufjs: index out of range *)
| FuelExhausted.          (* the loop bound of the model; never produced *)

Inductive result (A : Type) : Type :=
| Ok (a : A)
| Err (e : error).
Arguments Err {A} e.

Definition bind {A B} (r : result A) (k : A -> result B) : result B :=
  match r with Ok a => k a | Err e => Err e end.

Notation "x <- c ;; k" := (bind c (fun x => k))
  (at level 61, c at next level, right associativity).
Notation "' p <- c ;; k" := (bind c (fun p => k))
  (at level 61, p pattern, c at next level, right associativity).

Definition is_ok {A} (r : result A) : bool :=
  match r with Ok _ => true | Err _ => false end.

(** ** The event table ([events.generated.ts]) *)

Module Events.

Definition BYTE := 0.
Definition WORD := 64.
Definition DWORD := 128.
Definition TEXT := 192.
Definition DATA := 208.

Definition NEW_TEXT_IDS : list Z :=
  [ TEXT + 49   (* ArrangementID.Name *)
  ; TEXT + 39   (* DisplayGroupID.Name *)
  ; TEXT + 47   (* TrackID.Name *) ].

Module EVENT_ID.
Definition PROJECT_LOOP_ACTIVE := 9.
Definition PROJECT_SHOW_INFO := 10.
Definition PROJECT__VOLUME := 12.
Definition PROJECT_PAN_LAW := 23.
Definition PROJECT_LICENSED := 28.
Definition PROJECT__TEMPO_COARSE := WORD + 2.
Definition PROJECT_PITCH := WORD + 16.
Definition PROJECT__TEMPO_FINE := WORD + 29.
Definition PROJECT_CUR_GROUP_ID := DWORD + 18.
Definition PROJECT_TEMPO := DWORD + 28.
Definition PROJECT_FL_BUILD := DWORD + 31.
Definition PROJECT_TITLE := TEXT + 2.
Definition PROJECT_COMMENTS := TEXT + 3.
Definition PROJECT_URL := TEXT + 5.
Definition PROJECT__RTF_COMMENTS := TEXT + 6.
Definition PROJECT_FL_VERSION := TEXT + 7.
Definition PROJECT_LICENSEE := TEXT + 8.
Definition PROJECT_DATA_PATH := TEXT + 10.
Definition PROJECT_GENRE := TEXT + 14.
Definition PROJECT_ARTISTS := TEXT + 15.
Definition PROJECT_TIMESTAMP := DATA + 29.
Definition CHANNEL_IS_ENABLED := 0.
Definition CHANNEL__VOL_BYTE := 2.
Definition CHANNEL__PAN_BYTE := 3.
Definition CHANNEL_ZIPPED := 15.
Definition CHANNEL_PING_PONG_LOOP := 20.
Definition CHANNEL_TYPE := 21.
Definition CHANNEL_ROUTED_TO := 22.
Definition CHANNEL_IS_LOCKED := 32.
Definition CHANNEL_NEW := WORD.
Definition CHANNEL_FREQ_TILT := WORD + 5.
Definition CHANNEL_FX_FLAGS := WORD + 6.
Definition CHANNEL_CUTOFF := WORD + 7.
Definition CHANNEL__VOL_WORD := WORD + 8.
Definition CHANNEL__PAN_WORD := WORD + 9.
Definition CHANNEL_PREAMP := WORD + 10.
Definition CHANNEL_FADE_OUT := WORD + 11.
Definition CHANNEL_FADE_IN := WORD + 12.
Definition CHANNEL_RESONANCE := WORD + 19.
Definition CHANNEL_STEREO_DELAY := WORD + 21.
Definition CHANNEL_POGO := WORD + 22.
Definition CHANNEL_TIME_SHIFT := WORD + 25.
Definition CHANNEL_CHILDREN := WORD + 30.
Definition CHANNEL_SWING := WORD + 33.
Definition CHANNEL_RING_MOD := DWORD + 3.
Definition CHANNEL_CUT_GROUP := DWORD + 4.
Definition CHANNEL_ROOT_NOTE := DWORD + 7.
Definition CHANNEL_DELAY_MOD_XY := DWORD + 10.
Definition CHANNEL_REVERB := DWORD + 11.
Definition CHANNEL__STRETCH_TIME := DWORD + 12.
Definition CHANNEL_FINE_TUNE := DWORD + 14.
Definition CHANNEL_SAMPLER_FLAGS := DWORD + 15.
Definition CHANNEL_LAYER_FLAGS := DWORD + 16.
Definition CHANNEL_GROUP_NUM := DWORD + 17.
Definition CHANNEL_AU_SAMPLE_RATE := DWORD + 25.
Definition CHANNEL__NAME := TEXT.
Definition CHANNEL_SAMPLE_PATH := TEXT + 4.
Definition CHANNEL_DELAY := DATA + 1.
Definition CHANNEL_PARAMETERS := DATA + 7.
Definition CHANNEL_ENVELOPE_LFO := DATA + 10.
Definition CHANNEL_LEVELS := DATA + 11.
Definition CHANNEL_POLYPHONY := DATA + 13.
Definition CHANNEL_TRACKING := DATA + 20.
Definition CHANNEL_LEVEL_ADJUSTS := DATA + 21.
Definition CHANNEL_AUTOMATION := DATA + 26.
Definition PLUGIN_COLOR := DWORD.
Definition PLUGIN_ICON := DWORD + 27.
Definition PLUGIN_INTERNAL_NAME := TEXT + 9.
Definition PLUGIN_NAME := TEXT + 11.
Definition PLUGIN_WRAPPER := DATA + 4.
Definition PLUGIN_DATA := DATA + 5.
Definition DISPLAY_GROUP_NAME := TEXT + 39.
Definition RACK_SWING := 11.
Definition RACK__FIT_TO_STEPS := 13.
Definition RACK_WINDOW_HEIGHT := DWORD + 5.
Definition MIXER_SLOT_INDEX := WORD + 34.
Definition MIXER_INSERT_ICON := WORD + 31.
Definition MIXER_INSERT_OUTPUT := DWORD + 19.
Definition MIXER_INSERT_COLOR := DWORD + 21.
Definition MIXER_INSERT_INPUT := DWORD + 26.
Definition MIXER_INSERT_NAME := TEXT + 12.
Definition MIXER_INSERT_ROUTING := DATA + 27.
Definition MIXER_INSERT_FLAGS := DATA + 28.
End EVENT_ID.

Inductive EventKind : Type :=
| u8 | i8 | u16 | i16 | u32 | i32 | f32 | text | data | unknown.

(** The object literal [EVENT_KIND], entry by entry in source order. *)
Definition EVENT_KIND_entries : list (Z * EventKind) :=
  [ (EVENT_ID.PROJECT_LOOP_ACTIVE, u8)
  ; (EVENT_ID.PROJECT_SHOW_INFO, u8)
  ; (EVENT_ID.PROJECT__VOLUME, u8)
  ; (EVENT_ID.PROJECT_PAN_LAW, u8)
  ; (EVENT_ID.PROJECT_LICENSED, u8)
  ; (EVENT_ID.PROJECT__TEMPO_COARSE, u16)
  ; (EVENT_ID.PROJECT_PITCH, i16)
  ; (EVENT_ID.PROJECT__TEMPO_FINE, u16)
  ; (EVENT_ID.PROJECT_CUR_GROUP_ID, i32)
  ; (EVENT_ID.PROJECT_TEMPO, u32)
  ; (EVENT_ID.PROJECT_FL_BUILD, u32)
  ; (EVENT_ID.PROJECT_TITLE, text)
  ; (EVENT_ID.PROJECT_COMMENTS, text)
  ; (EVENT_ID.PROJECT_URL, text)
  ; (EVENT_ID.PROJECT__RTF_COMMENTS, text)
  ; (EVENT_ID.PROJECT_FL_VERSION, text)
  ; (EVENT_ID.PROJECT_LICENSEE, text)
  ; (EVENT_ID.PROJECT_DATA_PATH, text)
  ; (EVENT_ID.PROJECT_GENRE, text)
  ; (EVENT_ID.PROJECT_ARTISTS, text)
  ; (EVENT_ID.PROJECT_TIMESTAMP, data)
  ; (EVENT_ID.CHANNEL_IS_ENABLED, u8)
  ; (EVENT_ID.CHANNEL__VOL_BYTE, u8)
  ; (EVENT_ID.CHANNEL__PAN_BYTE, u8)
  ; (EVENT_ID.CHANNEL_ZIPPED, u8)
  ; (EVENT_ID.CHANNEL_PING_PONG_LOOP, u8)
  ; (EVENT_ID.CHANNEL_TYPE, u8)
  ; (EVENT_ID.CHANNEL_ROUTED_TO, i8)
  ; (EVENT_ID.CHANNEL_IS_LOCKED, u8)
  ; (EVENT_ID.CHANNEL_NEW, u16)
  ; (EVENT_ID.CHANNEL_FREQ_TILT, u16)
  ; (EVENT_ID.CHANNEL_FX_FLAGS, u16)
  ; (EVENT_ID.CHANNEL_CUTOFF, u16)
  ; (EVENT_ID.CHANNEL__VOL_WORD, u16)
  ; (EVENT_ID.CHANNEL__PAN_WORD, u16)
  ; (EVENT_ID.CHANNEL_PREAMP, u16)
  ; (EVENT_ID.CHANNEL_FADE_OUT, u16)
  ; (EVENT_ID.CHANNEL_FADE_IN, u16)
  ; (EVENT_ID.CHANNEL_RESONANCE, u16)
  ; (EVENT_ID.CHANNEL_STEREO_DELAY, u16)
  ; (EVENT_ID.CHANNEL_POGO, u16)
  ; (EVENT_ID.CHANNEL_TIME_SHIFT, u16)
  ; (EVENT_ID.CHANNEL_CHILDREN, u16)
  ; (EVENT_ID.CHANNEL_SWING, u16)
  ; (EVENT_ID.CHANNEL_RING_MOD, u32)
  ; (EVENT_ID.CHANNEL_CUT_GROUP, u32)
  ; (EVENT_ID.CHANNEL_ROOT_NOTE, u32)
  ; (EVENT_ID.CHANNEL_DELAY_MOD_XY, u32)
  ; (EVENT_ID.CHANNEL_REVERB, u32)
  ; (EVENT_ID.CHANNEL__STRETCH_TIME, f32)
  ; (EVENT_ID.CHANNEL_FINE_TUNE, i32)
  ; (EVENT_ID.CHANNEL_SAMPLER_FLAGS, u32)
  ; (EVENT_ID.CHANNEL_LAYER_FLAGS, u32)
  ; (EVENT_ID.CHANNEL_GROUP_NUM, i32)
  ; (EVENT_ID.CHANNEL_AU_SAMPLE_RATE, u32)
  ; (EVENT_ID.CHANNEL__NAME, text)
  ; (EVENT_ID.CHANNEL_SAMPLE_PATH, text)
  ; (EVENT_ID.CHANNEL_DELAY, data)
  ; (EVENT_ID.CHANNEL_PARAMETERS, data)
  ; (EVENT_ID.CHANNEL_ENVELOPE_LFO, data)
  ; (EVENT_ID.CHANNEL_LEVELS, data)
  ; (EVENT_ID.CHANNEL_POLYPHONY, data)
  ; (EVENT_ID.CHANNEL_TRACKING, data)
  ; (EVENT_ID.CHANNEL_LEVEL_ADJUSTS, data)
  ; (EVENT_ID.CHANNEL_AUTOMATION, data)
  ; (EVENT_ID.PLUGIN_COLOR, u32)
  ; (EVENT_ID.PLUGIN_ICON, u32)
  ; (EVENT_ID.PLUGIN_INTERNAL_NAME, text)
  ; (EVENT_ID.PLUGIN_NAME, text)
  ; (EVENT_ID.PLUGIN_WRAPPER, data)
  ; (EVENT_ID.PLUGIN_DATA, data)
  ; (EVENT_ID.DISPLAY_GROUP_NAME, data)
  ; (EVENT_ID.RACK_SWING, u8)
  ; (EVENT_ID.RACK__FIT_TO_STEPS, u8)
  ; (EVENT_ID.RACK_WINDOW_HEIGHT, u32)
  ; (EVENT_ID.MIXER_SLOT_INDEX, u16)
  ; (EVENT_ID.MIXER_INSERT_ICON, i16)
  ; (EVENT_ID.MIXER_INSERT_OUTPUT, i32)
  ; (EVENT_ID.MIXER_INSERT_COLOR, u32)
  ; (EVENT_ID.MIXER_INSERT_INPUT, i32)
  ; (EVENT_ID.MIXER_INSERT_NAME, text)
  ; (EVENT_ID.MIXER_INSERT_ROUTING, data)
  ; (EVENT_ID.MIXER_INSERT_FLAGS, data) ].

(** Property lookup in an object literal: a later entry with the same key
    replaces an earlier one. *)
Fixpoint lookup_last (k : Z) (l : list (Z * EventKind)) (acc : option EventKind)
  : option EventKind :=
  match l with
  | [] => acc
  | (k', v) :: tl => lookup_last k tl (if k =? k' then Some v else acc)
  end.

(** [EVENT_KIND[id]], [undefined] as [None] *)
Definition EVENT_KIND (id : Z) : option EventKind :=
  lookup_last id EVENT_KIND_entries None.

Definition getEventKind (eventId : Z) : EventKind :=
  match EVENT_KIND eventId with
  | Some mapped => mapped
  | None =>
      if eventId <? WORD then u8
      else if eventId <? DWORD then u16
      else if eventId <? TEXT then u32
      else if (eventId <? DATA) || existsb (Z.eqb eventId) NEW_TEXT_IDS then text
      else data
  end.

Definition getEventFixedSize (eventId : Z) : Z :=
  if eventId <? WORD then 1
  else if eventId <? DWORD then 2
  else if eventId <? TEXT then 4
  else -1.

End Events.
Import Events.

(** [KNOWN_DWORD_IDS.has(id)]: the keys of [EVENT_KIND] that lie in
    [DWORD, TEXT). *)
Definition KNOWN_DWORD_IDS : list Z :=
  filter (fun id => (DWORD <=? id) && (id <? TEXT)) (map fst EVENT_KIND_entries).

Definition KNOWN_DWORD_IDS_has (id : Z) : bool :=
  existsb (Z.eqb id) KNOWN_DWORD_IDS.

(** ** The byte cursor ([BinaryReader.ts])

    [BinaryReader] wraps a smart-buffer cursor over the source buffer.  The
    cursor is the read offset; the buffer never changes.  Each read returns
    its value and the new offset.  smart-buffer bounds-checks the fixed-width
    reads and the offset setter, and clamps [readBuffer] to the end of the
    buffer. *)

Module Reader.

(** little-endian value of a byte sequence *)
Fixpoint le_value (l : list byte) : Z :=
  match l with
  | [] => 0
  | b :: tl => byteZ b + 256 * le_value tl
  end.

(** [readUInt8]/[readUInt16LE]/[readUInt32LE]: [w] bytes at [pos], or throw *)
Definition readUIntLE (w : Z) (buf : list byte) (pos : Z) : result (Z * Z) :=
  if (pos <? 0) || (len buf <? pos + w) then Err ReadBeyondBounds
  else Ok (le_value (subarray buf pos (pos + w)), pos + w).

Definition readU8 := readUIntLE 1.
Definition readU16LE := readUIntLE 2.
Definition readU32LE := readUIntLE 4.

Definition readI16LE (buf : list byte) (pos : Z) : result (Z * Z) :=
  '(v, pos') <- readU16LE buf pos ;;
  Ok (if v <? 2^15 then v else v - 2^16, pos').

(** [seek(pos)]: the offset setter rejects a target outside [0, length]. *)
Definition seek (buf : list byte) (target : Z) : result Z :=
  if (target <? 0) || (len buf <? target) then Err InvalidTargetOffset
  else Ok target.

(** [readBytes(length)]: smart-buffer's [readBuffer] stops at the end of the
    buffer (a negative length is rejected). *)
Definition readBytes (buf : list byte) (pos : Z) (length : Z)
  : result (list byte * Z) :=
  if length <? 0 then Err ReadBeyondBounds
  else
    let endPoint := Z.min (len buf) (pos + length) in
    Ok (subarray buf pos endPoint, endPoint).

Definition remaining (buf : list byte) (pos : Z) : Z := len buf - pos.

(** protobufjs [Reader.uint32] on the bytes that remain: up to five bytes
    are accumulated; a missing byte reads as [undefined] (contributes 0 and
    does not terminate); after five continuation bytes the position moves
    five further bytes and must still be inside the buffer. *)
Definition pb_uint32 (rest : list byte) : result (Z * Z) :=
  let b (i : nat) := option_map byteZ (nth_error rest i) in
  let acc (value : Z) (i : nat) (mask shift : Z) :=
    to_uint32 (Z.lor (to_int32 value) (shl32 (js_and (b i) mask) shift)) in
  let v0 := acc 0 0%nat 127 0 in
  if js_lt (b 0%nat) 128 then Ok (v0, 1) else
  let v1 := acc v0 1%nat 127 7 in
  if js_lt (b 1%nat) 128 then Ok (v1, 2) else
  let v2 := acc v1 2%nat 127 14 in
  if js_lt (b 2%nat) 128 then Ok (v2, 3) else
  let v3 := acc v2 3%nat 127 21 in
  if js_lt (b 3%nat) 128 then Ok (v3, 4) else
  let v4 := acc v3 4%nat 15 28 in
  if js_lt (b 4%nat) 128 then Ok (v4, 5) else
  if len rest <? 10 then Err IndexOutOfRange else Ok (v4, 10).

(** [readVarInt()] *)
Definition readVarInt (buf : list byte) (pos : Z) : result (Z * Z) :=
  let remainingBuffer := skipn (Z.to_nat pos) buf in
  '(value, consumed) <- pb_uint32 remainingBuffer ;;
  pos' <- seek buf (pos + consumed) ;;
  Ok (value, pos').

End Reader.

(** ** The byte writer ([BinaryWriter.ts]) *)

Module Writer.

Definition writeU8 (value : Z) : list byte := [byte_of_Z (Z.land value 255)].

Definition writeU32LE (value : Z) : list byte :=
  let v := to_uint32 value in
  [ byte_of_Z v; byte_of_Z (Z.shiftr v 8)
  ; byte_of_Z (Z.shiftr v 16); byte_of_Z (Z.shiftr v 24) ].

(** protobufjs [writeVarint32]: [while (val > 127) { emit val & 127 | 128;
    val >>>= 7 } emit val].  A 32-bit value leaves the loop after at most
    four rounds, which is the bound of the recursion. *)
Fixpoint writeVarint32 (rounds : nat) (val : Z) : list byte :=
  match rounds with
  | O => [byte_of_Z val]
  | S r =>
      if val >? 127
      then byte_of_Z (Z.lor (Z.land val 127) 128) :: writeVarint32 r (Z.shiftr val 7)
      else [byte_of_Z val]
  end.

(** [writeVarInt(value)] / [encodeVarInt(value)] *)
Definition writeVarInt (value : Z) : list byte :=
  writeVarint32 4 (to_uint32 value).

Definition varIntSize (value : Z) : Z :=
  if value <? 0x80 then 1
  else if value <? 0x4000 then 2
  else if value <? 0x200000 then 3
  else if value <? 0x10000000 then 4
  else 5.

End Writer.

(** ** The parser and serializer ([FlpParser.ts]) *)

(** The event payload is the one buffer whose identity the code observes
    ([patched.payload !== event.payload]), so it carries the reference of
    the object next to its bytes: two payloads are the same object when
    they are equal as [Buffer]s, and [!==] compares the references. *)
Record Buffer : Type := mkBuffer { ref : N; bytes : list byte }.

Record FlpEvent : Type := mkEvent
  { id : Z
  ; kind : EventKind
  ; header : list byte
  ; payload : Buffer }.

Record ParsedFlp : Type := mkParsed
  { headerChunkBytes : list byte
  ; fldtHeaderBytes : list byte
  ; events : list FlpEvent
  ; trailingBytes : option (list byte)
  ; flVersion : string
  ; useUnicode : bool }.

Definition FLP_HEADER_MAGIC : string := "FLhd".
Definition FLP_DATA_MAGIC : string := "FLdt".
Definition FLP_HEADER_SIZE := 6.
Definition LOOKAHEAD_BYTES := 200.
Definition LOOKAHEAD_VARINT_MAX := 100000.

(** *** Strings out of buffers *)

(** [buf.toString('ascii')]: Node clears the high bit of every byte. *)
Definition toString_ascii (buf : list byte) : string :=
  string_of_list_ascii
    (map (fun b => ascii_of_byte (byte_of_Z (Z.land (byteZ b) 127))) buf).

(** [Buffer.from(s, 'ascii')] for a string of 7-bit characters *)
Definition Buffer_from_ascii (s : string) : list byte :=
  map byte_of_ascii (list_ascii_of_string s).

Definition char_code (c : ascii) : Z := Z.of_N (N_of_ascii c).

(** the white space [trim()] removes, among 7-bit characters *)
Definition is_space (c : ascii) : bool :=
  let n := char_code c in ((9 <=? n) && (n <=? 13)) || (n =? 32).

Definition is_digit (c : ascii) : bool :=
  let n := char_code c in (48 <=? n) && (n <=? 57).

Fixpoint trim_start (l : list ascii) : list ascii :=
  match l with
  | c :: tl => if is_space c then trim_start tl else l
  | [] => []
  end.

Definition trim (l : list ascii) : list ascii :=
  rev (trim_start (rev (trim_start l))).

(** [s.split('.')] *)
Fixpoint split_dot (l : list ascii) (cur : list ascii) : list (list ascii) :=
  match l with
  | [] => [rev cur]
  | c :: tl =>
      if (char_code c =? 46) then rev cur :: split_dot tl []
      else split_dot tl (c :: cur)
  end.

(** [/^\d+(\.\d+)+$/.test(s)]: two or more non-empty runs of digits
    separated by single dots. *)
Definition is_version_string (l : list ascii) : bool :=
  let parts := split_dot l [] in
  (2 <=? Z.of_nat (List.length parts)) &&
  forallb (fun p => negb (Nat.eqb (List.length p) 0) && forallb is_digit p) parts.

(** [parseInt(p, 10)] on a run of digits (the exact integer; the rounding
    of a very long run to a double changes none of the comparisons with 11
    and 5 made below) *)
Definition parseInt10 (p : list ascii) : Z :=
  fold_left (fun acc c => 10 * acc + (char_code c - 48)) p 0.

(** *** Raw variable-length integers and the look-ahead walker *)

Record VarIntRaw : Type := mkVarIntRaw { size : Z; bytesRead : Z }.

(** The loop of [readVarIntRaw].  The recursion bound is the number of bytes
    between [off] and [end_], so it is used up exactly when [off >= end_]. *)
Fixpoint readVarIntRaw_loop (n : nat) (buf : list byte) (off end_ : Z)
    (shift size start : Z) : VarIntRaw :=
  match n with
  | O => mkVarIntRaw (-1) 0
  | S n' =>
      if off >=? end_ then mkVarIntRaw (-1) 0
      else
        let byte := get buf off in
        let off := off + 1 in
        let size := to_int32 (Z.lor size (shl32 (js_and byte 0x7f) shift)) in
        let shift := shift + 7 in
        if js_and byte 0x80 =? 0 then mkVarIntRaw size (off - start)
        else readVarIntRaw_loop n' buf off end_ shift size start
  end.

Definition readVarIntRaw (buf : list byte) (off end_ : Z) : VarIntRaw :=
  readVarIntRaw_loop (Z.to_nat (end_ - off)) buf off end_ 0 0 off.

(** [KNOWN_DWORD_IDS.has(id)] for a possibly undefined [id] *)
Definition js_known_dword (x : option Z) : bool :=
  match x with Some v => KNOWN_DWORD_IDS_has v | None => false end.

(** The loop of [scoreAlignment].  Every round moves [off] forward by two
    or more, so [limit - off] rounds are enough (lemma
    [scoreAlignment_loop_walk]). *)
Fixpoint scoreAlignment_loop (n : nat) (buf : list byte) (off end_ limit : Z)
    (textDataCount consecutiveSmallByte maxConsecutiveSmallByte : Z) : Z :=
  if off <? limit then
    match n with
    | O => textDataCount * 10 - maxConsecutiveSmallByte * 3
    | S n' =>
        let id := get buf off in
        if js_lt id WORD then
          if js_lt id 32 && negb (js_known_dword id) then
            let consecutiveSmallByte := consecutiveSmallByte + 1 in
            scoreAlignment_loop n' buf (off + 2) end_ limit textDataCount
              consecutiveSmallByte
              (Z.max maxConsecutiveSmallByte consecutiveSmallByte)
          else
            scoreAlignment_loop n' buf (off + 2) end_ limit textDataCount
              0 maxConsecutiveSmallByte
        else if js_lt id DWORD then
          scoreAlignment_loop n' buf (off + 3) end_ limit textDataCount
            0 maxConsecutiveSmallByte
        else if js_lt id TEXT then
          scoreAlignment_loop n' buf (off + 5) end_ limit textDataCount
            0 maxConsecutiveSmallByte
        else
          let vi := readVarIntRaw buf (off + 1) end_ in
          if (size vi >=? 0) && (size vi <? LOOKAHEAD_VARINT_MAX)
             && (off + 1 + bytesRead vi + size vi <=? end_)
          then
            scoreAlignment_loop n' buf (off + 1 + bytesRead vi + size vi)
              end_ limit (textDataCount + 1) 0 maxConsecutiveSmallByte
          else -100
    end
  else textDataCount * 10 - maxConsecutiveSmallByte * 3.

Definition scoreAlignment (buf : list byte) (off end_ bytesToCheck : Z) : Z :=
  let limit := Z.min (off + bytesToCheck) end_ in
  scoreAlignment_loop (Z.to_nat (limit - off)) buf off end_ limit 0 0 0.

(** *** parseFlp *)

(** The branch of the event loop for an id in the DWORD range that is not
    in [KNOWN_DWORD_IDS]: the payload size, the header size and the reader
    position in front of the payload ([pos1] is the position after the id
    byte; only the variable-length outcome moves the reader). *)
Definition unknownDwordLayout (buffer : list byte) (eventStart eventsEnd pos1 : Z)
  : result (Z * Z * Z) :=
  let afterDword := eventStart + 1 + 4 in
  let vi := readVarIntRaw buffer (eventStart + 1) eventsEnd in
  if (size vi <? 0) || (size vi >? LOOKAHEAD_VARINT_MAX)
     || (eventStart + 1 + bytesRead vi + size vi >? eventsEnd)
  then Ok (4, 1, pos1)
  else if size vi =? 3 then Ok (4, 1, pos1)
  else
    let afterVarInt := eventStart + 1 + bytesRead vi + size vi in
    let dwordScore := scoreAlignment buffer afterDword eventsEnd LOOKAHEAD_BYTES in
    let varIntScore := scoreAlignment buffer afterVarInt eventsEnd LOOKAHEAD_BYTES in
    if varIntScore >? dwordScore + 2 then
      pos2 <- Reader.seek buffer (eventStart + 1 + bytesRead vi) ;;
      Ok (size vi, 1 + bytesRead vi, pos2)
    else Ok (4, 1, pos1).

(** Payload size, header size and reader position in front of the payload
    for the event that starts at [eventStart]. *)
Definition eventLayout (buffer : list byte) (eventStart eventsEnd : Z)
    (eventId pos1 : Z) : result (Z * Z * Z) :=
  if eventId <? WORD then Ok (1, 1, pos1)
  else if eventId <? DWORD then Ok (2, 1, pos1)
  else if eventId <? TEXT then
    if KNOWN_DWORD_IDS_has eventId then Ok (4, 1, pos1)
    else unknownDwordLayout buffer eventStart eventsEnd pos1
  else
    let sizeStart := pos1 in
    '(payloadSize, pos2) <- Reader.readVarInt buffer pos1 ;;
    Ok (payloadSize, 1 + (pos2 - sizeStart), pos2).

(** One round of the event loop up to [events.push(event)]: the event and
    the reader position after it.  [fresh] is the reference of the new
    payload buffer made by [Buffer.from(payload)]. *)
Definition parseEvent (buffer : list byte) (eventsEnd eventStart : Z) (fresh : N)
  : result (FlpEvent * Z) :=
  '(eventId, pos1) <- Reader.readU8 buffer eventStart ;;
  '(payloadSize, headerSize, pos2) <-
     eventLayout buffer eventStart eventsEnd eventId pos1 ;;
  '(payload, pos3) <- Reader.readBytes buffer pos2 payloadSize ;;
  let header := subarray buffer eventStart (eventStart + headerSize) in
  let kind := getEventKind eventId in
  Ok (mkEvent eventId kind header (mkBuffer fresh payload), pos3).

(** The version detection at the end of a round of the event loop: the new
    values of [flVersion] and [useUnicode]. *)
Definition detectVersion (event : FlpEvent) (flVersion : string) (useUnicode : bool)
  : string * bool :=
  if (id event =? EVENT_ID.PROJECT_FL_VERSION) && String.eqb flVersion "0.0.0" then
    let candidate :=
      trim (filter (fun c => negb (char_code c =? 0))
              (list_ascii_of_string (toString_ascii (bytes (payload event))))) in
    if is_version_string candidate then
      let parts := map parseInt10 (split_dot candidate []) in
      let major := nth 0 parts 0 in
      let minor := nth 1 parts 0 in
      (string_of_list_ascii candidate,
       (2 <=? Z.of_nat (List.length parts))
       && ((major >? 11) || ((major =? 11) && (minor >=? 5))))
    else (flVersion, useUnicode)
  else (flVersion, useUnicode).

Record LoopState : Type := mkLoop
  { l_pos : Z
  ; l_events : list FlpEvent
  ; l_flVersion : string
  ; l_useUnicode : bool }.

(** [while (reader.tell() < eventsEnd) { ... }].  Every round moves the
    reader forward, so [eventsEnd - pos] rounds are enough and
    [FuelExhausted] is never returned (lemma [parseEvents_fuel]). *)
Fixpoint parseEvents (n : nat) (buffer : list byte) (eventsEnd : Z) (st : LoopState)
  : result LoopState :=
  if l_pos st <? eventsEnd then
    match n with
    | O => Err FuelExhausted
    | S n' =>
        '(event, pos') <-
          parseEvent buffer eventsEnd (l_pos st) (N.of_nat (List.length (l_events st))) ;;
        let '(v, u) := detectVersion event (l_flVersion st) (l_useUnicode st) in
        parseEvents n' buffer eventsEnd (mkLoop pos' (l_events st ++ [event]) v u)
    end
  else Ok st.

Definition parseFlp (buffer : list byte) : result ParsedFlp :=
  '(magic, p) <- Reader.readBytes buffer 0 4 ;;
  let headerMagic := toString_ascii magic in
  if negb (String.eqb headerMagic FLP_HEADER_MAGIC) then Err InvalidHeaderMagic else
  '(headerSize, p) <- Reader.readU32LE buffer p ;;
  if negb (headerSize =? FLP_HEADER_SIZE) then Err InvalidHeaderSize else
  '(format, p) <- Reader.readI16LE buffer p ;;
  '(channelCount, p) <- Reader.readU16LE buffer p ;;
  '(ppq, p) <- Reader.readU16LE buffer p ;;
  if (format <? -1) || (format >? 0x50) then Err InvalidFileFormat else
  let headerChunkBytes := subarray buffer 0 14 in
  '(magic', p) <- Reader.readBytes buffer p 4 ;;
  let dataMagic := toString_ascii magic' in
  if negb (String.eqb dataMagic FLP_DATA_MAGIC) then Err InvalidDataMagic else
  '(eventsSize, p) <- Reader.readU32LE buffer p ;;
  let expectedFileSize := 22 + eventsSize in
  if negb (len buffer =? expectedFileSize) then Err DataChunkSizeMismatch else
  let fldtHeaderBytes := subarray buffer 14 22 in
  let eventsStart := p in
  let eventsEnd := eventsStart + eventsSize in
  st <- parseEvents (Z.to_nat eventsSize) buffer eventsEnd
          (mkLoop eventsStart [] "0.0.0" false) ;;
  '(trailingBytes, p) <-
     (if Reader.remaining buffer (l_pos st) >? 0
      then '(t, p') <- Reader.readBytes buffer (l_pos st)
                         (Reader.remaining buffer (l_pos st)) ;;
           Ok (Some t, p')
      else Ok (None, l_pos st)) ;;
  Ok (mkParsed headerChunkBytes fldtHeaderBytes (l_events st) trailingBytes
        (l_flVersion st) (l_useUnicode st)).

(** *** serializeFlp, createEvent, patchEvents *)

Definition serializeEvent (event : FlpEvent) : list byte :=
  (if Z.of_nat (List.length (header event)) >? 0 then header event
   else Writer.writeU8 (id event)
        ++ (if id event >=? TEXT
            then Writer.writeVarInt (len (bytes (payload event)))
            else []))
  ++ bytes (payload event).

Definition serializeFlp (parsed : ParsedFlp) : list byte :=
  let eventsSize :=
    fold_left (fun acc event => acc + len (serializeEvent event)) (events parsed) 0 in
  let eventsSize :=
    match trailingBytes parsed with
    | Some t => eventsSize + len t
    | None => eventsSize
    end in
  headerChunkBytes parsed
  ++ Buffer_from_ascii FLP_DATA_MAGIC
  ++ Writer.writeU32LE eventsSize
  ++ concat (map serializeEvent (events parsed))
  ++ match trailingBytes parsed with Some t => t | None => [] end.

(** [fresh] is the reference of the copy [Buffer.from(payload)]. *)
Definition createEvent (id : Z) (payload : list byte) (fresh : N) : FlpEvent :=
  let kind := getEventKind id in
  let header :=
    Writer.writeU8 id
    ++ (if id >=? TEXT then Writer.writeVarInt (len payload) else []) in
  mkEvent id kind header (mkBuffer fresh payload).

(** [patched.payload !== event.payload] *)
Definition payload_differs (patched event : FlpEvent) : bool :=
  negb (N.eqb (ref (payload patched)) (ref (payload event))).

(** The callback of [parsed.events.map] in [patchEvents] *)
Definition patchEvent (patcher : FlpEvent -> nat -> FlpEvent)
    (event : FlpEvent) (index : nat) : FlpEvent :=
  let patched := patcher event index in
  if payload_differs patched event && (Z.of_nat (List.length (header event)) >? 1) then
    mkEvent (id patched) (kind patched)
      (Writer.writeU8 (id patched) ++ Writer.writeVarInt (len (bytes (payload patched))))
      (payload patched)
  else patched.

Fixpoint map_index {A B} (f : A -> nat -> B) (l : list A) (i : nat) : list B :=
  match l with
  | [] => []
  | a :: tl => f a i :: map_index f tl (S i)
  end.

Definition patchEvents (parsed : ParsedFlp) (patcher : FlpEvent -> nat -> FlpEvent)
  : ParsedFlp :=
  let patchedEvents := map_index (patchEvent patcher) (events parsed) 0%nat in
  mkParsed (headerChunkBytes parsed) (fldtHeaderBytes parsed) patchedEvents
    (trailingBytes parsed) (flVersion parsed) (useUnicode parsed).

Definition findEvents (parsed : ParsedFlp) (eventId : Z) : list FlpEvent :=
  filter (fun e => id e =? eventId) (events parsed).

Definition findFirstEvent (parsed : ParsedFlp) (eventId : Z) : option FlpEvent :=
  find (fun e => id e =? eventId) (events parsed).

(** * Auxiliary definitions for the statements *)

(** The region of an event: its framing followed by its payload. *)
Definition region (e : FlpEvent) : list byte := header e ++ bytes (payload e).

Definition varint_in_range (r : result (Z * Z)) : Prop :=
  match r with
  | Ok (v, c) => 1 <= c /\ 0 <= v < 2 ^ 32
  | Err _ => True
  end.

(** The checks made on the 22 bytes in front of the event stream. *)
Definition container_ok (buf : list byte) : bool :=
  String.eqb (toString_ascii (subarray buf 0 4)) "FLhd"
  && (22 <=? len buf)
  && (Reader.le_value (subarray buf 4 8) =? 6)
  && (let f := Reader.le_value (subarray buf 8 10) in
      let format := if f <? 2 ^ 15 then f else f - 2 ^ 16 in
      (-1 <=? format) && (format <=? 0x50))
  && String.eqb (toString_ascii (subarray buf 14 18)) "FLdt"
  && (len buf =? 22 + Reader.le_value (subarray buf 18 22)).

(** What [parseFlp] does once the container checks have passed. *)
Definition parseFlp_events (buf : list byte) : result ParsedFlp :=
  st <- parseEvents (Z.to_nat (len buf - 22)) buf (len buf)
          (mkLoop 22 [] "0.0.0" false) ;;
  Ok (mkParsed (subarray buf 0 14) (subarray buf 14 22) (l_events st)
        (if len buf - l_pos st >? 0
         then Some (subarray buf (l_pos st) (len buf)) else None)
        (l_flVersion st) (l_useUnicode st)).

(** The smallest project file, and the same file with the high bit set in
    the first byte of the file-header magic or of the event-chunk magic. *)
Definition minimal_file : list byte :=
  bytes_of [0x46; 0x4C; 0x68; 0x64; 6; 0; 0; 0; 0; 0; 1; 0; 0x60; 0;
            0x46; 0x4C; 0x64; 0x74; 0; 0; 0; 0].

Definition high_bit_FLhd : list byte :=
  bytes_of [0xC6; 0x4C; 0x68; 0x64; 6; 0; 0; 0; 0; 0; 1; 0; 0x60; 0;
            0x46; 0x4C; 0x64; 0x74; 0; 0; 0; 0].

Definition high_bit_FLdt : list byte :=
  bytes_of [0x46; 0x4C; 0x68; 0x64; 6; 0; 0; 0; 0; 0; 1; 0; 0x60; 0;
            0xC6; 0x4C; 0x64; 0x74; 0; 0; 0; 0].

(** The two outcomes of decoding the event at [p] whose id is in the DWORD
    range: the layout chosen by the loop, and the event it then records. *)
Definition decoded_as_fixed (buf : list byte) (end_ p eventId : Z) (fresh : N) : Prop :=
  eventLayout buf p end_ eventId (p + 1) = Ok (4, 1, p + 1)
  /\ exists e,
       parseEvent buf end_ p fresh = Ok (e, Z.min (len buf) (p + 5))
       /\ header e = [byte_of_Z eventId]
       /\ bytes (payload e) = subarray buf (p + 1) (p + 5).

Definition decoded_as_variable (buf : list byte) (end_ p eventId : Z) (fresh : N)
    (s v : Z) : Prop :=
  eventLayout buf p end_ eventId (p + 1) = Ok (s, 1 + v, p + 1 + v)
  /\ exists e,
       parseEvent buf end_ p fresh = Ok (e, p + 1 + v + s)
       /\ header e = subarray buf p (p + 1 + v)
       /\ len (header e) = 1 + v
       /\ bytes (payload e) = subarray buf (p + 1 + v) (p + 1 + v + s)
       /\ len (bytes (payload e)) = s.

(** Hypothesis B of the disambiguation is rejected outright. *)
Definition variable_rejected (vi : VarIntRaw) (p end_ : Z) : Prop :=
  vi = mkVarIntRaw (-1) 0            (* malformed *)
  \/ size vi < 0
  \/ size vi > 100000
  \/ p + 1 + bytesRead vi + size vi > end_.

(** An event stream with the unknown id 141, a one-byte length 8, eight
    payload bytes and an empty TEXT event, behind the container header. *)
Definition unknown_dword_file : list byte :=
  bytes_of [0x46; 0x4C; 0x68; 0x64; 6; 0; 0; 0; 0; 0; 1; 0; 0x60; 0;
            0x46; 0x4C; 0x64; 0x74; 12; 0; 0; 0;
            0x8D; 8; 1; 2; 3; 4; 5; 6; 7; 8; 0xC2; 0].

(** *** The look-ahead walker, as a relation

    What a walk over the window does, told step by step: [Walk buf end_
    limit off t c m o] says that the walker standing at [off] with
    TEXT/DATA count [t], current run of small ids [c] and longest run [m]
    ends in [o]. *)
Inductive outcome : Type :=
| Rejected
| Finished (textDataCount maxConsecutiveSmall : Z).

Definition score_of (o : outcome) : Z :=
  match o with
  | Rejected => -100
  | Finished t m => 10 * t - 3 * m
  end.

(** The id read at the walker's position is in the TEXT/DATA range.  (A
    read outside the buffer yields no id; the walker's last branch takes
    it.) *)
Definition text_data_range (x : option Z) : Prop :=
  match x with Some i => 192 <= i | None => True end.

(** The TEXT/DATA step at [off] is refused: the raw VLI behind the id is
    malformed or negative, or 100000 or more, or the payload would end
    behind [end_]. *)
Definition step_refused (buf : list byte) (end_ off : Z) : Prop :=
  let vi := readVarIntRaw buf (off + 1) end_ in
  size vi < 0 \/ 100000 <= size vi \/ off + 1 + bytesRead vi + size vi > end_.

Inductive Walk (buf : list byte) (end_ limit : Z)
  : Z -> Z -> Z -> Z -> outcome -> Prop :=
| Walk_halt off t c m :
    limit <= off ->
    Walk buf end_ limit off t c m (Finished t m)
| Walk_small off t c m i o :
    off < limit -> get buf off = Some i -> i < 32 ->
    Walk buf end_ limit (off + 2) t (c + 1) (Z.max m (c + 1)) o ->
    Walk buf end_ limit off t c m o
| Walk_byte off t c m i o :
    off < limit -> get buf off = Some i -> 32 <= i < 64 ->
    Walk buf end_ limit (off + 2) t 0 m o ->
    Walk buf end_ limit off t c m o
| Walk_word off t c m i o :
    off < limit -> get buf off = Some i -> 64 <= i < 128 ->
    Walk buf end_ limit (off + 3) t 0 m o ->
    Walk buf end_ limit off t c m o
| Walk_dword off t c m i o :
    off < limit -> get buf off = Some i -> 128 <= i < 192 ->
    Walk buf end_ limit (off + 5) t 0 m o ->
    Walk buf end_ limit off t c m o
| Walk_text off t c m o :
    off < limit -> text_data_range (get buf off) ->
    ~ step_refused buf end_ off ->
    let vi := readVarIntRaw buf (off + 1) end_ in
    Walk buf end_ limit (off + 1 + bytesRead vi + size vi) (t + 1) 0 m o ->
    Walk buf end_ limit off t c m o
| Walk_refused off t c m :
    off < limit -> text_data_range (get buf off) ->
    step_refused buf end_ off ->
    Walk buf end_ limit off t c m Rejected.

(** Two empty TEXT events followed by forty events with the small id 1. *)
Definition forty_small_ids : list byte :=
  bytes_of ([0xC0; 0; 0xC0; 0] ++ concat (repeat [1; 0] 40)).

(** *** Sizes of a parsed file *)

(** The size the specification declares for the event stream: framing and
    payload lengths of all events, plus the trailing bytes. *)
Definition declared_size (parsed : ParsedFlp) : Z :=
  fold_right (fun e acc => len (header e) + len (bytes (payload e)) + acc) 0
    (events parsed)
  + match trailingBytes parsed with Some t => len t | None => 0 end.

(** The size [serializeFlp] computes: the lengths of the serialized events,
    plus the trailing bytes. *)
Definition emitted_size (parsed : ParsedFlp) : Z :=
  fold_right (fun e acc => len (serializeEvent e) + acc) 0 (events parsed)
  + match trailingBytes parsed with Some t => len t | None => 0 end.

(** A parsed file with one event whose framing is empty, as for an event
    made after parsing. *)
Definition synthesized_event_file : ParsedFlp :=
  mkParsed (subarray minimal_file 0 14) (subarray minimal_file 14 22)
    [mkEvent 5 u8 [] (mkBuffer 0 (bytes_of [0x2A]))] None "0.0.0" false.

(** *** Files and transforms for the patcher *)

(** One TEXT event, [C2 03 41 42 43], behind the container header. *)
Definition text_event_file : list byte :=
  bytes_of [0x46; 0x4C; 0x68; 0x64; 6; 0; 0; 0; 0; 0; 1; 0; 0x60; 0;
            0x46; 0x4C; 0x64; 0x74; 5; 0; 0; 0;
            0xC2; 3; 0x41; 0x42; 0x43].

(** [e => ({...e, id: 195})] *)
Definition retag_195 (e : FlpEvent) (index : nat) : FlpEvent :=
  mkEvent 195 (kind e) (header e) (payload e).

(** [e => ({...e, header: Buffer.from([e.id, 0x83, 0x00])})]: the same
    length 3, written on two bytes. *)
Definition reframe_wide (e : FlpEvent) (index : nat) : FlpEvent :=
  mkEvent (id e) (kind e) (Writer.writeU8 (id e) ++ bytes_of [0x83; 0x00]) (payload e).

(** The offset of the event of index [i] in the source buffer. *)
Definition event_offset (es : list FlpEvent) (i : nat) : Z :=
  22 + len (concat (map region (firstn i es))).

(** Two FL-version events, "0.0.0" and then "12.0" (both NUL-terminated),
    behind the container header. *)
Definition two_versions_file : list byte :=
  bytes_of [0x46; 0x4C; 0x68; 0x64; 6; 0; 0; 0; 0; 0; 1; 0; 0x60; 0;
            0x46; 0x4C; 0x64; 0x74; 15; 0; 0; 0;
            0xC7; 6; 48; 46; 48; 46; 48; 0;
            0xC7; 5; 49; 50; 46; 48; 0].

(** The transform that returns every event as it is. *)
Definition keep_event (e : FlpEvent) (index : nat) : FlpEvent := e.

(** The version string an event carries, if it is an FL-version event
    whose payload reads as one, with the Unicode flag derived from it. *)
Definition version_of (event : FlpEvent) : option (string * bool) :=
  if id event =? EVENT_ID.PROJECT_FL_VERSION then
    let candidate :=
      trim (filter (fun c => negb (char_code c =? 0))
              (list_ascii_of_string (toString_ascii (bytes (payload event))))) in
    if is_version_string candidate then
      let parts := map parseInt10 (split_dot candidate []) in
      let major := nth 0 parts 0 in
      let minor := nth 1 parts 0 in
      Some (string_of_list_ascii candidate,
            (major >? 11) || ((major =? 11) && (minor >=? 5)))
    else None
  else None.

(** The first event that carries a version string other than "0.0.0". *)
Fixpoint first_version (es : list FlpEvent) : option (string * bool) :=
  match es with
  | [] => None
  | e :: tl =>
      match version_of e with
      | Some (v, u) => if String.eqb v "0.0.0" then first_version tl else Some (v, u)
      | None => first_version tl
      end
  end.

(** One round of the version detection, on the pair it updates. *)
Definition version_step (vu : string * bool) (e : FlpEvent) : string * bool :=
  detectVersion e (fst vu) (snd vu).

(** * Further definitions: the rest of the parser's interface *)

(** The number of payload bytes a kind stands for: what [getEventNumber]
    reads for the numeric kinds, -1 for the kinds of variable length. *)
Definition kind_width (k : EventKind) : Z :=
  match k with
  | u8 | i8 => 1
  | u16 | i16 => 2
  | u32 | i32 | f32 => 4
  | text | data => -1
  | unknown => 0
  end.

(** What the decoder guarantees of each event it records. *)
Definition decoded_event_ok (e : FlpEvent) : Prop :=
  0 <= id e < 256
  /\ kind e = getEventKind (id e)
  /\ (exists rest, header e = byte_of_Z (id e) :: rest)
  /\ (id e < DWORD \/ KNOWN_DWORD_IDS_has (id e) = true -> len (header e) = 1)
  /\ (TEXT <= id e -> 2 <= len (header e)).

(** The bytes from [off] up to [end_] all carry the continuation bit. *)
Definition all_continue (buf : list byte) (off end_ : Z) : Prop :=
  forall i, off <= i < end_ -> exists b, get buf i = Some b /\ 128 <= b.

(** What [pb_uint32] consumes lies in the bytes it was given, and its only
    error is the index-out-of-range one. *)
Definition varint_consumed (rest : list byte) (r : result (Z * Z)) : Prop :=
  match r with
  | Ok (_, c) => c <= len rest
  | Err e => e = IndexOutOfRange
  end.

(** The bytes [enc] stand in [buf] from offset [off] on. *)
Definition bytes_at (buf : list byte) (off : Z) (enc : list byte) : Prop :=
  forall i b, nth_error enc i = Some b -> get buf (off + Z.of_nat i) = Some (byteZ b).

(** An id with a payload of the size its range asks for: the fixed size for
    a BYTE, WORD or known DWORD id, any size that fits the 32-bit length
    prefix for a TEXT or DATA id. *)
Definition well_sized (eventId : Z) (payload : list byte) : Prop :=
  0 <= eventId < 256
  /\ (((eventId < DWORD \/ KNOWN_DWORD_IDS_has eventId = true)
       /\ len payload = getEventFixedSize eventId)
      \/ (TEXT <= eventId /\ len payload < 2 ^ 32)).

(** ** The rest of the parser module and of the high-level API

    [getEventString] and [createTextPayload] of [FlpParser.ts], and [getPPQ]
    of the high-level API.  A JavaScript string is its sequence of UTF-16
    code units. *)

Definition js_string : Type := list Z.

(** [buf.toString('utf16le')]: one code unit for every two bytes; an odd
    last byte is left out. *)
Fixpoint toString_utf16le (buf : list byte) : js_string :=
  match buf with
  | lo :: hi :: tl => (byteZ lo + 256 * byteZ hi) :: toString_utf16le tl
  | _ => []
  end.

(** [buf.toString('ascii')] as code units. *)
Definition toString_ascii_units (buf : list byte) : js_string :=
  map char_code (list_ascii_of_string (toString_ascii buf)).

(** [Buffer.from(s, 'utf16le')]: the two bytes of every code unit, low byte
    first. *)
Definition Buffer_from_utf16le (s : js_string) : list byte :=
  flat_map (fun c => [byte_of_Z (Z.land c 255); byte_of_Z (Z.land (Z.shiftr c 8) 255)]) s.

(** [Buffer.from(s, 'ascii')] for any string: Node writes the low byte of
    every code unit, as for 'latin1'. *)
Definition Buffer_from_ascii_units (s : js_string) : list byte :=
  map (fun c => byte_of_Z (Z.land c 255)) s.

(** [str.indexOf(c)], counting from [i] *)
Fixpoint indexOf (str : js_string) (c : Z) (i : Z) : Z :=
  match str with
  | [] => -1
  | x :: tl => if x =? c then i else indexOf tl c (i + 1)
  end.

(** [str.substring(0, n)] for [0 <= n] *)
Definition substring0 (str : js_string) (n : Z) : js_string :=
  firstn (Z.to_nat n) str.

(** [getEventString]; [None] is the thrown error. *)
Definition getEventString (event : FlpEvent) (useUnicode : bool) : option js_string :=
  match kind event with
  | text =>
      let str :=
        if useUnicode then toString_utf16le (bytes (payload event))
        else toString_ascii_units (bytes (payload event)) in
      let nullPos := indexOf str 0 0 in
      Some (if nullPos =? -1 then str else substring0 str nullPos)
  | _ => None
  end.

Definition createTextPayload (text : js_string) (useUnicode : bool) : list byte :=
  if useUnicode then Buffer_from_utf16le (text ++ [0])
  else Buffer_from_ascii_units (text ++ [0]).

(** [getPPQ]: a reader over the preserved header chunk, moved to offset 12. *)
Definition getPPQ (parsed : ParsedFlp) : result Z :=
  let reader := headerChunkBytes parsed in
  pos <- Reader.seek reader 12 ;;
  '(ppq, _) <- Reader.readU16LE reader pos ;;
  Ok ppq.

(** ** Auxiliary definitions for the further statements *)

(** Two buffers of one length that agree from offset [k] on. *)
Definition same_from (k : Z) (a b : list byte) : Prop :=
  len a = len b /\ skipn (Z.to_nat k) a = skipn (Z.to_nat k) b.

(** The stream of [text_event_file] behind another header: format 0, four
    channels, 480 pulses per quarter note. *)
Definition text_event_file_480 : list byte :=
  bytes_of [0x46; 0x4C; 0x68; 0x64; 6; 0; 0; 0; 0; 0; 4; 0; 0xE0; 1;
            0x46; 0x4C; 0x64; 0x74; 5; 0; 0; 0;
            0xC2; 3; 0x41; 0x42; 0x43].

(** A string as JavaScript has it: code units of 16 bits. *)
Definition valid_string (s : js_string) : Prop :=
  Forall (fun c => 0 <= c < 65536) s.

(** What a text payload written in the given encoding reads back as: the
    code units as the encoding keeps them (all 16 bits, or the low 7 bits),
    up to the first one that is 0. *)
Fixpoint kept_text (useUnicode : bool) (s : js_string) : js_string :=
  match s with
  | [] => []
  | c :: tl =>
      let c' := if useUnicode then c else Z.land c 127 in
      if c' =? 0 then [] else c' :: kept_text useUnicode tl
  end.

(** A file made of new events: the header chunk of a parsed file in front
    of the events [createEvent] makes for the given ids and payloads. *)
Definition built_events (items : list (Z * list byte)) : list FlpEvent :=
  map (fun item => createEvent (fst item) (snd item) 0%N) items.

Definition built_file (parsed : ParsedFlp) (items : list (Z * list byte)) : ParsedFlp :=
  mkParsed (headerChunkBytes parsed) (fldtHeaderBytes parsed) (built_events items)
    None (flVersion parsed) (useUnicode parsed).

(** The decoded event carries the id and the payload bytes of the item, the
    kind of the id, and the framing [createEvent] gave it. *)
Definition decodes_item (e : FlpEvent) (item : Z * list byte) : Prop :=
  id e = fst item
  /\ kind e = getEventKind (fst item)
  /\ header e = header (createEvent (fst item) (snd item) 0%N)
  /\ bytes (payload e) = snd item.

(** [listSamples] of the high-level API: the index and the path of every
    sample-path event whose string is not empty; [None] is the error that
    [getEventString] throws.  [index] is the index of the first event of
    [es] in the whole array. *)
Fixpoint listSamples_from (useUnicode : bool) (es : list FlpEvent) (index : nat)
  : option (list (nat * js_string)) :=
  match es with
  | [] => Some []
  | event :: tl =>
      if id event =? EVENT_ID.CHANNEL_SAMPLE_PATH then
        match getEventString event useUnicode with
        | None => None
        | Some path =>
            match listSamples_from useUnicode tl (S index) with
            | None => None
            | Some samples =>
                Some (if 0 <? Z.of_nat (List.length path)
                      then (index, path) :: samples else samples)
            end
        end
      else listSamples_from useUnicode tl (S index)
  end.

Definition listSamples (parsed : ParsedFlp) : option (list (nat * js_string)) :=
  listSamples_from (useUnicode parsed) (events parsed) 0%nat.

(** The entry [(index, path)] names a sample-path event of the file whose
    string is [path], and [path] is not empty. *)
Definition sample_entry_ok (parsed : ParsedFlp) (entry : nat * js_string) : Prop :=
  exists event,
    nth_error (events parsed) (fst entry) = Some event
    /\ id event = EVENT_ID.CHANNEL_SAMPLE_PATH
    /\ getEventString event (useUnicode parsed) = Some (snd entry)
    /\ snd entry <> [].

(** One sample-path event, [C4 04 61 2E 77 00] (the path "a.w"), behind the
    container header. *)
Definition sample_file : list byte :=
  bytes_of [0x46; 0x4C; 0x68; 0x64; 6; 0; 0; 0; 0; 0; 1; 0; 0x60; 0;
            0x46; 0x4C; 0x64; 0x74; 6; 0; 0; 0;
            0xC4; 4; 0x61; 0x2E; 0x77; 0].

(** [rewriteSamplePaths] of the high-level API. *)

(** [a === b] on strings *)
Definition js_string_eqb (a b : js_string) : bool :=
  if list_eq_dec Z.eq_dec a b then true else false.

(** The transform [rewriteSamplePaths] hands to [patchEvents]; [None] is
    the error thrown by [getEventString].  [fresh] is the reference of the
    buffer [createTextPayload] makes. *)
Definition samplePathPatcher (parsed : ParsedFlp) (mapper : js_string -> js_string)
    (fresh : N) (event : FlpEvent) : option FlpEvent :=
  if negb (id event =? EVENT_ID.CHANNEL_SAMPLE_PATH) then Some event else
  match getEventString event (useUnicode parsed) with
  | None => None
  | Some oldPath =>
      if Z.of_nat (List.length oldPath) =? 0 then Some event else
      let newPath := mapper oldPath in
      if js_string_eqb newPath oldPath then Some event else
      Some (mkEvent (id event) (kind event) (header event)
              (mkBuffer fresh (createTextPayload newPath (useUnicode parsed))))
  end.

(** [parsed.events.map] in [patchEvents] for a transform that may throw:
    the first error ends the whole call. *)
Fixpoint patchEvents_from (patcher : FlpEvent -> nat -> option FlpEvent)
    (es : list FlpEvent) (index : nat) : option (list FlpEvent) :=
  match es with
  | [] => Some []
  | event :: tl =>
      match patcher event index with
      | None => None
      | Some patched =>
          match patchEvents_from patcher tl (S index) with
          | None => None
          | Some rest => Some (patchEvent (fun _ _ => patched) event index :: rest)
          end
      end
  end.

(** [fresh index] is the reference of the payload buffer made for the event
    at [index]. *)
Definition rewriteSamplePaths (parsed : ParsedFlp) (mapper : js_string -> js_string)
    (fresh : nat -> N) : option ParsedFlp :=
  match patchEvents_from
          (fun event index => samplePathPatcher parsed mapper (fresh index) event)
          (events parsed) 0%nat with
  | None => None
  | Some patchedEvents =>
      Some (mkParsed (headerChunkBytes parsed) (fldtHeaderBytes parsed) patchedEvents
              (trailingBytes parsed) (flVersion parsed) (useUnicode parsed))
  end.

(** A path that a text payload keeps as it is: not empty, without NUL, of
    16-bit code units, and of 7-bit ones in the ascii encoding. *)
Definition good_path (useUnicode : bool) (s : js_string) : Prop :=
  s <> []
  /\ Forall (fun c => 0 < c < 65536 /\ (useUnicode = false -> c < 128)) s.

(** The buffers made for new payloads are none of the payload buffers of
    the file. *)
Definition fresh_for (parsed : ParsedFlp) (fresh : nat -> N) : Prop :=
  forall i e, nth_error (events parsed) i = Some e -> fresh i <> ref (payload e).

(** *** The sizes the length field counts

    The size of the framing [serializeFlp] writes for an event, told as the
    format has it: the framing the event carries when it carries one, and
    otherwise the id byte, followed for an id of 192 or more by the VLI of
    the payload length in its minimal width. *)
Definition framing_size (e : FlpEvent) : Z :=
  if 0 <? len (header e) then len (header e)
  else 1 + (if 192 <=? id e then Writer.varIntSize (len (bytes (payload e))) else 0).

(** Framing and payload sizes of all events, plus the trailing bytes. *)
Definition stream_size (parsed : ParsedFlp) : Z :=
  fold_right (fun e acc => framing_size e + len (bytes (payload e)) + acc) 0
    (events parsed)
  + match trailingBytes parsed with Some t => len t | None => 0 end.

(** A parsed file with three events made after parsing: a BYTE event and a
    TEXT event of 200 bytes without framing, and a TEXT event that carries
    its framing. *)
Definition synthesized_text_file : ParsedFlp :=
  mkParsed (subarray minimal_file 0 14) (subarray minimal_file 14 22)
    [ mkEvent 5 u8 [] (mkBuffer 0 (bytes_of [0x2A]))
    ; mkEvent 194 text [] (mkBuffer 1 (repeat x00 200))
    ; mkEvent 194 text (bytes_of [0xC2; 3]) (mkBuffer 2 (bytes_of [0x41; 0x42; 0x43])) ]
    None "0.0.0" false.

(** *** Where the event loop stands

    The offsets at which the event loop of [parseFlp] starts to decode an
    event: the start of the stream, and the offset behind every event it
    decoded. *)
Inductive event_start (buf : list byte) : Z -> Prop :=
| event_start_first : event_start buf 22
| event_start_next (p p' : Z) (fresh : N) (e : FlpEvent) :
    event_start buf p ->
    p < len buf ->
    parseEvent buf (len buf) p fresh = Ok (e, p') ->
    event_start buf p'.

(** A BYTE event, then a TEXT event whose size prefix [80] asks for a byte
    that the file does not have. *)
Definition truncated_prefix_file : list byte :=
  bytes_of [0x46; 0x4C; 0x68; 0x64; 6; 0; 0; 0; 0; 0; 1; 0; 0x60; 0;
            0x46; 0x4C; 0x64; 0x74; 4; 0; 0; 0;
            5; 1; 0xC2; 0x80].

(** * Properties *)

Unset Implicit Arguments.

(** ** Bytes and slices *)

Lemma byteZ_range (b : byte) : 0 <= byteZ b < 256.
Proof.
  unfold byteZ. pose proof (Byte.to_N_bounded b). lia.
Qed.

Lemma byte_of_Z_byteZ (b : byte) (k : Z) : byte_of_Z (byteZ b + 256 * k) = b.
Proof.
  unfold byte_of_Z.
  replace ((byteZ b + 256 * k) mod 256) with (byteZ b).
  - unfold byteZ. rewrite N2Z.id, Byte.of_to_N. reflexivity.
  - pose proof (byteZ_range b).
    rewrite (Z.mul_comm 256 k), Z.mod_add by lia.
    symmetry. apply Z.mod_small. lia.
Qed.

Lemma byteZ_byte_of_Z (z : Z) : 0 <= z < 256 -> byteZ (byte_of_Z z) = z.
Proof.
  intros Hz. unfold byte_of_Z. rewrite Z.mod_small by lia.
  destruct (Byte.of_N (Z.to_N z)) eqn:E.
  - apply Byte.to_of_N in E. unfold byteZ. rewrite E. lia.
  - pose proof (Byte.to_of_N_option_map (Z.to_N z)) as H.
    rewrite E in H. simpl in H.
    destruct (N.leb_spec (Z.to_N z) 255); [discriminate | lia].
Qed.

Lemma len_nonneg (buf : list byte) : 0 <= len buf.
Proof. unfold len. lia. Qed.

Lemma len_app (a b : list byte) : len (a ++ b) = len a + len b.
Proof. unfold len. rewrite length_app. lia. Qed.

Lemma get_Some (buf : list byte) (i v : Z) :
  get buf i = Some v -> 0 <= i < len buf /\ 0 <= v < 256.
Proof.
  unfold get. destruct (Z.ltb_spec i 0); [discriminate|].
  destruct (nth_error buf (Z.to_nat i)) eqn:E; [|discriminate].
  simpl. intros [= <-].
  assert (Z.to_nat i < List.length buf)%nat
    by (apply nth_error_Some; congruence).
  pose proof (byteZ_range b). unfold len. lia.
Qed.

Lemma get_in_range (buf : list byte) (i : Z) :
  0 <= i < len buf -> exists v, get buf i = Some v.
Proof.
  intros H. unfold get. destruct (Z.ltb_spec i 0); [lia|].
  destruct (nth_error buf (Z.to_nat i)) eqn:E; simpl; eauto.
  apply nth_error_None in E. unfold len in H. lia.
Qed.

Lemma len_subarray (buf : list byte) (s e : Z) :
  0 <= s <= e -> e <= len buf -> len (subarray buf s e) = e - s.
Proof.
  intros H1 H2. unfold len, subarray in *.
  rewrite length_firstn, length_skipn. lia.
Qed.

Lemma len_subarray_le (buf : list byte) (s e : Z) :
  s <= e -> len (subarray buf s e) <= e - s.
Proof.
  intros H. unfold len, subarray. rewrite length_firstn. lia.
Qed.

Lemma firstn_plus {A} (n m : nat) (l : list A) :
  firstn (n + m) l = firstn n l ++ firstn m (skipn n l).
Proof.
  revert l. induction n as [|n IH]; intros [|x l]; simpl; try reflexivity.
  - now rewrite firstn_nil.
  - now rewrite IH.
Qed.

Lemma subarray_app (buf : list byte) (a b c : Z) :
  0 <= a <= b -> b <= c ->
  subarray buf a b ++ subarray buf b c = subarray buf a c.
Proof.
  intros H1 H2. unfold subarray.
  replace (Z.to_nat b) with (Z.to_nat (b - a) + Z.to_nat a)%nat by lia.
  rewrite <- skipn_skipn.
  replace (Z.to_nat (c - a)) with (Z.to_nat (b - a) + Z.to_nat (c - b))%nat by lia.
  generalize (skipn (Z.to_nat a) buf) as l. intros l.
  now rewrite firstn_plus.
Qed.

Lemma subarray_clamp (buf : list byte) (s e : Z) :
  0 <= s -> subarray buf s (Z.min (len buf) e) = subarray buf s e.
Proof.
  intros H. unfold subarray.
  destruct (Z.le_ge_cases (len buf) e) as [Hle|Hge].
  - rewrite Z.min_l by lia.
    rewrite !firstn_all2; try reflexivity;
      rewrite length_skipn; unfold len in *; lia.
  - rewrite Z.min_r by lia. reflexivity.
Qed.

Lemma subarray_all (buf : list byte) : subarray buf 0 (len buf) = buf.
Proof.
  unfold subarray, len. simpl. rewrite Z.sub_0_r, Nat2Z.id.
  apply firstn_all.
Qed.

Lemma subarray_nil (buf : list byte) (s : Z) : subarray buf s s = [].
Proof. unfold subarray. rewrite Z.sub_diag. reflexivity. Qed.

Lemma subarray_one (buf : list byte) (i v : Z) :
  get buf i = Some v -> subarray buf i (i + 1) = [byte_of_Z v].
Proof.
  unfold get, subarray. destruct (Z.ltb_spec i 0); [discriminate|].
  replace (i + 1 - i) with 1 by lia.
  rewrite <- (Nat.add_0_r (Z.to_nat i)), <- nth_error_skipn.
  rewrite Nat.add_0_r.
  destruct (skipn (Z.to_nat i) buf) as [|b l]; simpl; [discriminate|].
  intros [= <-]. change (Z.to_nat 1) with 1%nat. simpl.
  pose proof (byte_of_Z_byteZ b 0) as Hb.
  rewrite Z.mul_0_r, Z.add_0_r in Hb. now rewrite Hb.
Qed.

(** ** The cursor stays inside the buffer *)

(** [injection] normalises the terms it extracts, which unfolds additions;
    [ok_inv] keeps them as written. *)
Lemma Ok_inj {A} (a b : A) : Ok a = Ok b -> a = b.
Proof. congruence. Qed.

Lemma Err_inj {A} (e e' : error) : @Err A e = Err e' -> e = e'.
Proof. congruence. Qed.

Lemma pair_inj {A B} (a a' : A) (b b' : B) : (a, b) = (a', b') -> a = a' /\ b = b'.
Proof. split; congruence. Qed.

Ltac ok_inv H :=
  apply Ok_inj in H;
  repeat match type of H with
  | (_, _) = (_, _) =>
      let H1 := fresh H in
      apply pair_inj in H as [H H1]; try subst
  end; try subst.

Lemma readUIntLE_ok (w : Z) (buf : list byte) (pos v pos' : Z) :
  Reader.readUIntLE w buf pos = Ok (v, pos') ->
  0 <= pos /\ pos + w <= len buf /\ pos' = pos + w
  /\ v = Reader.le_value (subarray buf pos (pos + w)).
Proof.
  unfold Reader.readUIntLE.
  destruct (Z.ltb_spec pos 0); simpl; [discriminate|].
  destruct (Z.ltb_spec (len buf) (pos + w)); [discriminate|].
  intros [= <- <-]. repeat split; lia.
Qed.

Lemma readU8_get (buf : list byte) (pos v pos' : Z) :
  Reader.readU8 buf pos = Ok (v, pos') ->
  get buf pos = Some v /\ pos' = pos + 1.
Proof.
  intros H. apply readUIntLE_ok in H as (H0 & H1 & -> & ->).
  split; [|reflexivity].
  destruct (get_in_range buf pos) as [x Hx]; [lia|].
  rewrite (subarray_one _ _ _ Hx). simpl.
  pose proof (get_Some _ _ _ Hx) as [_ Hr].
  rewrite byteZ_byte_of_Z by lia. rewrite Hx. f_equal. lia.
Qed.

Lemma readBytes_ok (buf : list byte) (pos n : Z) (bs : list byte) (pos' : Z) :
  Reader.readBytes buf pos n = Ok (bs, pos') ->
  0 <= n /\ pos' = Z.min (len buf) (pos + n) /\ bs = subarray buf pos pos'.
Proof.
  unfold Reader.readBytes. destruct (Z.ltb_spec n 0); [discriminate|].
  intros [= <- <-]. repeat split; lia.
Qed.

Lemma seek_ok (buf : list byte) (t p : Z) :
  Reader.seek buf t = Ok p -> p = t /\ 0 <= t <= len buf.
Proof.
  unfold Reader.seek.
  destruct (Z.ltb_spec t 0); simpl; [discriminate|].
  destruct (Z.ltb_spec (len buf) t); [discriminate|].
  intros [= <-]. lia.
Qed.

Lemma to_uint32_range (z : Z) : 0 <= to_uint32 z < 2 ^ 32.
Proof. unfold to_uint32. apply Z.mod_pos_bound. reflexivity. Qed.

Lemma pb_uint32_in_range (rest : list byte) :
  varint_in_range (Reader.pb_uint32 rest).
Proof.
  unfold Reader.pb_uint32. cbv zeta.
  repeat (destruct (js_lt _ 128);
          [unfold varint_in_range; split; [lia|apply to_uint32_range]|]).
  destruct (len rest <? 10); [exact I|].
  unfold varint_in_range; split; [lia|apply to_uint32_range].
Qed.

Lemma pb_uint32_ok (rest : list byte) (v c : Z) :
  Reader.pb_uint32 rest = Ok (v, c) -> 1 <= c /\ 0 <= v < 2 ^ 32.
Proof.
  intros H. pose proof (pb_uint32_in_range rest) as R.
  rewrite H in R. exact R.
Qed.

Lemma readVarInt_ok (buf : list byte) (pos v pos' : Z) :
  Reader.readVarInt buf pos = Ok (v, pos') ->
  pos + 1 <= pos' <= len buf /\ 0 <= v < 2 ^ 32.
Proof.
  unfold Reader.readVarInt. intros H.
  destruct (Reader.pb_uint32 _) as [[v0 c]|] eqn:E; [cbn [bind] in H|discriminate].
  destruct (Reader.seek buf (pos + c)) as [p|] eqn:Es; [cbn [bind] in H|discriminate].
  injection H as <- <-.
  apply pb_uint32_ok in E. apply seek_ok in Es. lia.
Qed.

(** [readVarIntRaw] either signals failure or has consumed one byte or more,
    all of them in front of [end_]. *)
Lemma readVarIntRaw_loop_spec (n : nat) (buf : list byte)
    (off end_ shift sz start : Z) :
  start <= off ->
  let r := readVarIntRaw_loop n buf off end_ shift sz start in
  r = mkVarIntRaw (-1) 0
  \/ (off - start + 1 <= bytesRead r /\ start + bytesRead r <= end_).
Proof.
  revert off shift sz. induction n as [|n IH]; intros off shift sz Hs; simpl.
  - now left.
  - destruct (Z.geb_spec off end_); [now left|].
    destruct (js_and (get buf off) 128 =? 0).
    + right. simpl. lia.
    + specialize (IH (off + 1) (shift + 7)
        (to_int32 (Z.lor sz (shl32 (js_and (get buf off) 127) shift)))).
      destruct IH as [IH|IH]; [lia|now left|right; lia].
Qed.

Lemma readVarIntRaw_spec (buf : list byte) (off end_ : Z) :
  let r := readVarIntRaw buf off end_ in
  r = mkVarIntRaw (-1) 0 \/ (1 <= bytesRead r /\ off + bytesRead r <= end_).
Proof.
  unfold readVarIntRaw.
  destruct (readVarIntRaw_loop_spec (Z.to_nat (end_ - off)) buf off end_ 0 0 off)
    as [H|H]; [lia|now left|right; lia].
Qed.

Lemma readVarIntRaw_bytesRead_nonneg (buf : list byte) (off end_ : Z) :
  0 <= bytesRead (readVarIntRaw buf off end_).
Proof.
  destruct (readVarIntRaw_spec buf off end_) as [H|H].
  - rewrite H. simpl. lia.
  - lia.
Qed.

(** More rounds than the bytes in front of [end_] change nothing: the loop
    of [readVarIntRaw] has returned by then. *)
Lemma readVarIntRaw_loop_fuel (n k : nat) (buf : list byte)
    (off end_ shift sz start : Z) :
  end_ - off <= Z.of_nat n ->
  readVarIntRaw_loop (n + k) buf off end_ shift sz start
  = readVarIntRaw_loop n buf off end_ shift sz start.
Proof.
  revert off shift sz. induction n as [|n IH]; intros off shift sz Hn.
  - destruct k as [|k]; cbn [Nat.add readVarIntRaw_loop]; [reflexivity|].
    destruct (Z.geb_spec off end_); [reflexivity|lia].
  - cbn [Nat.add readVarIntRaw_loop].
    destruct (off >=? end_); [reflexivity|].
    destruct (js_and (get buf off) 128 =? 0); [reflexivity|].
    apply IH. lia.
Qed.

(** The layout of an event puts the reader right after the framing, inside
    the buffer. *)
Lemma unknownDwordLayout_pos (buf : list byte) (p eventsEnd ps hs pos2 : Z) :
  unknownDwordLayout buf p eventsEnd (p + 1) = Ok (ps, hs, pos2) ->
  p + 1 <= len buf ->
  pos2 = p + hs /\ 1 <= hs /\ pos2 <= len buf /\ 0 <= ps.
Proof.
  unfold unknownDwordLayout. intros H Hp.
  pose proof (readVarIntRaw_bytesRead_nonneg buf (p + 1) eventsEnd) as Hv.
  revert H.
  destruct (readVarIntRaw buf (p + 1) eventsEnd) as [s v]. cbn [size bytesRead] in *.
  destruct (Z.ltb_spec s 0); cbn [orb];
    [intros Hok; ok_inv Hok; lia|].
  destruct (_ || _); [intros Hok; ok_inv Hok; lia|].
  destruct (s =? 3); [intros Hok; ok_inv Hok; lia|].
  destruct (_ >? _); [|intros Hok; ok_inv Hok; lia].
  destruct (Reader.seek buf (p + 1 + v)) as [q|] eqn:Es;
    [cbn [bind]|discriminate].
  intros Hok; ok_inv Hok. apply seek_ok in Es. lia.
Qed.

Lemma eventLayout_pos (buf : list byte) (p eventsEnd eventId ps hs pos2 : Z) :
  eventLayout buf p eventsEnd eventId (p + 1) = Ok (ps, hs, pos2) ->
  p + 1 <= len buf ->
  pos2 = p + hs /\ 1 <= hs /\ pos2 <= len buf /\ 0 <= ps.
Proof.
  unfold eventLayout. intros H Hp.
  destruct (eventId <? WORD); [ok_inv H; lia|].
  destruct (eventId <? DWORD); [ok_inv H; lia|].
  destruct (eventId <? TEXT).
  - destruct (KNOWN_DWORD_IDS_has eventId); [ok_inv H; lia|].
    now apply unknownDwordLayout_pos in H.
  - destruct (Reader.readVarInt buf (p + 1)) as [[v q]|] eqn:E;
      [cbn [bind] in H|discriminate].
    ok_inv H. apply readVarInt_ok in E. lia.
Qed.

(** One round of the event loop copies the slice between the old and the
    new reader position into the event, and moves the reader forward. *)
Lemma parseEvent_region (buf : list byte) (eventsEnd p : Z) (fresh : N)
    (e : FlpEvent) (p' : Z) :
  parseEvent buf eventsEnd p fresh = Ok (e, p') ->
  0 <= p /\ p < p' <= len buf
  /\ region e = subarray buf p p'
  /\ 1 <= len (header e)
  /\ get buf p = Some (id e)
  /\ ref (payload e) = fresh.
Proof.
  unfold parseEvent. intros H.
  destruct (Reader.readU8 buf p) as [[eventId pos1]|] eqn:E1;
    [cbn [bind] in H|discriminate].
  pose proof E1 as E1'. apply readUIntLE_ok in E1' as (Hp0 & Hp1 & _ & _).
  apply readU8_get in E1 as [Hget ->].
  destruct (eventLayout buf p eventsEnd eventId (p + 1)) as [[[ps hs] pos2]|] eqn:E2;
    [cbn [bind] in H|discriminate].
  apply eventLayout_pos in E2 as (-> & Hhs & Hle & Hps); [|lia].
  destruct (Reader.readBytes buf (p + hs) ps) as [[bs pos3]|] eqn:E3;
    [cbn [bind] in H|discriminate].
  apply readBytes_ok in E3 as (_ & -> & ->).
  injection H as <- <-. unfold region. simpl.
  repeat split; try lia; try assumption.
  - rewrite subarray_app by lia. reflexivity.
  - rewrite len_subarray by lia. lia.
Qed.

(** ** The event loop *)

Lemma parseEvent_no_fuel_error (buf : list byte) (eventsEnd p : Z) (fresh : N) :
  parseEvent buf eventsEnd p fresh <> Err FuelExhausted.
Proof.
  unfold parseEvent, Reader.readU8, Reader.readUIntLE.
  destruct (_ || _); [discriminate|]. cbn [bind].
  generalize (Reader.le_value (subarray buf p (p + 1))) as eventId.
  intros eventId.
  assert (HL : forall r, eventLayout buf p eventsEnd eventId (p + 1) = Err r ->
                         r <> FuelExhausted).
  { unfold eventLayout, unknownDwordLayout, Reader.readVarInt, Reader.seek,
      Reader.pb_uint32.
    cbv zeta. intros r.
    repeat match goal with
    | |- context [if ?b then _ else _] => destruct b; cbn [bind]
    end; congruence. }
  destruct (eventLayout buf p eventsEnd eventId (p + 1)) as [[[ps hs] pos2]|r] eqn:E;
    cbn [bind].
  - unfold Reader.readBytes. destruct (ps <? 0); cbn [bind]; discriminate.
  - intros [= ->]. now apply (HL FuelExhausted).
Qed.

(** The events appended by the loop are the slice the reader has crossed. *)
Lemma parseEvents_spec (n : nat) (buf : list byte) (eventsEnd : Z)
    (st st' : LoopState) :
  parseEvents n buf eventsEnd st = Ok st' ->
  l_pos st <= len buf ->
  l_pos st <= l_pos st' <= len buf
  /\ eventsEnd <= l_pos st'
  /\ exists new,
       l_events st' = l_events st ++ new
       /\ concat (map region new) = subarray buf (l_pos st) (l_pos st')
       /\ Forall (fun e => 1 <= len (header e)) new.
Proof.
  revert st. induction n as [|n IH]; intros st H Hle; simpl in H.
  - destruct (Z.ltb_spec (l_pos st) eventsEnd); [discriminate|].
    injection H as <-. repeat split; try lia.
    exists []. rewrite app_nil_r, subarray_nil. auto.
  - destruct (Z.ltb_spec (l_pos st) eventsEnd).
    + destruct (parseEvent _ _ _ _) as [[e p']|] eqn:E; [cbn [bind] in H|discriminate].
      destruct (detectVersion _ _ _) as [v u].
      apply parseEvent_region in E as (Hp0 & Hp & Hreg & Hhd & _ & _).
      apply IH in H; cbn [l_pos l_events] in *; [|lia].
      destruct H as (H1 & H2 & new & Hev & Hcat & Hall).
      repeat split; try lia.
      exists (e :: new). rewrite Hev, <- app_assoc. split; [reflexivity|].
      split; [|constructor; assumption].
      cbn [map concat]. rewrite Hreg, Hcat. apply subarray_app; lia.
    + injection H as <-. repeat split; try lia.
      exists []. rewrite app_nil_r, subarray_nil. auto.
Qed.

(** The loop bound is never the reason the loop stops. *)
Lemma parseEvents_fuel (n : nat) (buf : list byte) (eventsEnd : Z) (st : LoopState) :
  eventsEnd - l_pos st <= Z.of_nat n ->
  parseEvents n buf eventsEnd st <> Err FuelExhausted.
Proof.
  revert st. induction n as [|n IH]; intros st Hn; simpl.
  - destruct (Z.ltb_spec (l_pos st) eventsEnd); [lia|discriminate].
  - destruct (Z.ltb_spec (l_pos st) eventsEnd); [|discriminate].
    destruct (parseEvent _ _ _ _) as [[e p']|r] eqn:E; cbn [bind].
    + destruct (detectVersion _ _ _) as [v u].
      apply parseEvent_region in E as (_ & Hp & _).
      apply IH. cbn [l_pos]. lia.
    + intros [= ->]. now apply parseEvent_no_fuel_error in E.
Qed.

(** ** The container *)

Lemma readUIntLE_eq (w : Z) (buf : list byte) (pos : Z) :
  0 <= pos -> pos + w <= len buf ->
  Reader.readUIntLE w buf pos
  = Ok (Reader.le_value (subarray buf pos (pos + w)), pos + w).
Proof.
  intros H1 H2. unfold Reader.readUIntLE.
  destruct (Z.ltb_spec pos 0); [lia|].
  destruct (Z.ltb_spec (len buf) (pos + w)); [lia|]. reflexivity.
Qed.

Lemma readBytes_eq (buf : list byte) (pos n : Z) :
  0 <= n -> pos + n <= len buf ->
  Reader.readBytes buf pos n = Ok (subarray buf pos (pos + n), pos + n).
Proof.
  intros H1 H2. unfold Reader.readBytes.
  destruct (Z.ltb_spec n 0); [lia|]. now rewrite Z.min_r by lia.
Qed.

Lemma le_value_nonneg (l : list byte) : 0 <= Reader.le_value l.
Proof.
  induction l as [|b l IH]; cbn [Reader.le_value]; [lia|].
  pose proof (byteZ_range b). lia.
Qed.

(** A buffer shorter than the 22 bytes of the two chunk headers is rejected:
    a read fails, or the length check at the end does. *)
Lemma parseFlp_short (buf : list byte) :
  len buf < 22 -> is_ok (parseFlp buf) = false.
Proof.
  intros Hlen. unfold parseFlp.
  destruct (Reader.readBytes buf 0 4) as [[m p]|]; cbn [bind]; [|reflexivity].
  destruct (negb _); [reflexivity|].
  destruct (Reader.readU32LE buf p) as [[hs p1]|]; cbn [bind]; [|reflexivity].
  destruct (negb _); [reflexivity|].
  destruct (Reader.readI16LE buf p1) as [[f p2]|]; cbn [bind]; [|reflexivity].
  destruct (Reader.readU16LE buf p2) as [[cc p3]|]; cbn [bind]; [|reflexivity].
  destruct (Reader.readU16LE buf p3) as [[ppq p4]|]; cbn [bind]; [|reflexivity].
  destruct (_ || _); [reflexivity|].
  destruct (Reader.readBytes buf p4 4) as [[m' p5]|]; cbn [bind]; [|reflexivity].
  destruct (negb _); [reflexivity|].
  destruct (Reader.readU32LE buf p5) as [[es p6]|] eqn:E; cbn [bind]; [|reflexivity].
  apply readUIntLE_ok in E as (_ & _ & _ & ->).
  pose proof (le_value_nonneg (subarray buf p5 (p5 + 4))).
  destruct (Z.eqb_spec (len buf) (22 + Reader.le_value (subarray buf p5 (p5 + 4))));
    [lia|reflexivity].
Qed.

(** With 22 bytes or more, the container checks are exactly [container_ok],
    and the event loop runs when they pass. *)
Lemma parseFlp_unfold (buf : list byte) :
  22 <= len buf ->
  (container_ok buf = true -> parseFlp buf = parseFlp_events buf)
  /\ (container_ok buf = false -> is_ok (parseFlp buf) = false).
Proof.
  intros Hlen. unfold parseFlp, container_ok, parseFlp_events.
  unfold Reader.readU32LE, Reader.readI16LE, Reader.readU16LE.
  rewrite (readBytes_eq buf 0 4) by lia. cbn [bind]. change (0 + 4) with 4.
  unfold FLP_HEADER_MAGIC, FLP_DATA_MAGIC, FLP_HEADER_SIZE.
  destruct (String.eqb (toString_ascii (subarray buf 0 4)) "FLhd");
    cbn [negb andb]; [|split; [discriminate|reflexivity]].
  destruct (Z.leb_spec 22 (len buf)); [cbn [andb]|lia].
  rewrite (readUIntLE_eq 4 buf 4) by lia. cbn [bind]. change (4 + 4) with 8.
  destruct (Reader.le_value (subarray buf 4 8) =? 6);
    cbn [negb andb]; [|split; [discriminate|reflexivity]].
  rewrite (readUIntLE_eq 2 buf 8) by lia. cbn [bind]. change (8 + 2) with 10.
  rewrite (readUIntLE_eq 2 buf 10) by lia. cbn [bind]. change (10 + 2) with 12.
  rewrite (readUIntLE_eq 2 buf 12) by lia. cbn [bind]. change (12 + 2) with 14.
  cbv zeta.
  set (format := if Reader.le_value (subarray buf 8 10) <? 2 ^ 15
                 then Reader.le_value (subarray buf 8 10)
                 else Reader.le_value (subarray buf 8 10) - 2 ^ 16).
  replace ((format <? -1) || (format >? 80))
    with (negb ((-1 <=? format) && (format <=? 80)))
    by (destruct (Z.ltb_spec format (-1)), (Z.leb_spec (-1) format),
          (Z.leb_spec format 80), (Z.gtb_spec format 80); simpl; lia).
  destruct ((-1 <=? format) && (format <=? 80));
    cbn [negb andb]; [|split; [discriminate|reflexivity]].
  rewrite (readBytes_eq buf 14 4) by lia. cbn [bind]. change (14 + 4) with 18.
  destruct (String.eqb (toString_ascii (subarray buf 14 18)) "FLdt");
    cbn [negb andb]; [|split; [discriminate|reflexivity]].
  rewrite (readUIntLE_eq 4 buf 18) by lia. cbn [bind]. change (18 + 4) with 22.
  destruct (Z.eqb_spec (len buf) (22 + Reader.le_value (subarray buf 18 22))) as [E|E];
    cbn [negb]; [|split; [discriminate|reflexivity]].
  split; [intros _|discriminate].
  rewrite <- E.
  replace (Reader.le_value (subarray buf 18 22)) with (len buf - 22) by lia.
  destruct (parseEvents _ _ _ _) as [st|]; cbn [bind]; [|reflexivity].
  unfold Reader.remaining.
  destruct (Z.gtb_spec (len buf - l_pos st) 0); cbn [bind]; [|reflexivity].
  unfold Reader.readBytes.
  destruct (Z.ltb_spec (len buf - l_pos st) 0); [lia|]. cbn [bind].
  replace (l_pos st + (len buf - l_pos st)) with (len buf) by lia.
  now rewrite Z.min_id.
Qed.

Lemma parseFlp_inv (buf : list byte) (parsed : ParsedFlp) :
  parseFlp buf = Ok parsed ->
  22 <= len buf /\ container_ok buf = true /\ parseFlp_events buf = Ok parsed.
Proof.
  intros H.
  destruct (Z.lt_ge_cases (len buf) 22) as [Hs|Hl].
  - apply parseFlp_short in Hs. rewrite H in Hs. discriminate.
  - destruct (parseFlp_unfold buf Hl) as [Hok Hbad].
    destruct (container_ok buf).
    + rewrite <- Hok; auto.
    + rewrite H in Hbad. discriminate Hbad. reflexivity.
Qed.

(** The loop bound is never what [parseFlp] reports: it returns a parsed
    file or one of the errors of the source. *)
Lemma parseFlp_no_fuel_error (buf : list byte) : parseFlp buf <> Err FuelExhausted.
Proof.
  unfold parseFlp.
  destruct (Reader.readBytes buf 0 4) as [[m p]|e] eqn:E0; cbn [bind].
  2:{ unfold Reader.readBytes in E0. destruct (4 <? 0); congruence. }
  destruct (negb _); [discriminate|].
  unfold Reader.readU32LE, Reader.readI16LE, Reader.readU16LE.
  assert (R : forall w q e, Reader.readUIntLE w buf q = Err e -> e <> FuelExhausted).
  { intros w q e. unfold Reader.readUIntLE. destruct (_ || _); congruence. }
  destruct (Reader.readUIntLE 4 buf p) as [[hs p1]|e] eqn:E1; cbn [bind];
    [|intros [= ->]; now apply R in E1].
  destruct (negb _); [discriminate|].
  destruct (Reader.readUIntLE 2 buf p1) as [[f p2]|e] eqn:E2; cbn [bind];
    [|intros [= ->]; now apply R in E2].
  destruct (Reader.readUIntLE 2 buf p2) as [[cc p3]|e] eqn:E3; cbn [bind];
    [|intros [= ->]; now apply R in E3].
  destruct (Reader.readUIntLE 2 buf p3) as [[ppq p4]|e] eqn:E4; cbn [bind];
    [|intros [= ->]; now apply R in E4].
  destruct (_ || _); [discriminate|].
  destruct (Reader.readBytes buf p4 4) as [[m' p5]|e] eqn:E5; cbn [bind].
  2:{ unfold Reader.readBytes in E5. destruct (4 <? 0); congruence. }
  destruct (negb _); [discriminate|].
  destruct (Reader.readUIntLE 4 buf p5) as [[es p6]|e] eqn:E6; cbn [bind];
    [|intros [= ->]; now apply R in E6].
  destruct (negb _); [discriminate|].
  destruct (parseEvents _ _ _ _) as [st|e] eqn:E7; cbn [bind].
  - destruct (_ >? 0); cbn [bind]; [|discriminate].
    unfold Reader.readBytes. destruct (_ <? 0); cbn [bind]; discriminate.
  - intros [= ->]. revert E7. apply parseEvents_fuel. cbn [l_pos]. lia.
Qed.

(** The events of a parsed file tile the event stream, every framing holds
    one byte or more, and nothing is left behind the last event. *)
Lemma parseFlp_events_cover (buf : list byte) (parsed : ParsedFlp) :
  22 <= len buf ->
  parseFlp_events buf = Ok parsed ->
  headerChunkBytes parsed = subarray buf 0 14
  /\ fldtHeaderBytes parsed = subarray buf 14 22
  /\ concat (map region (events parsed)) = subarray buf 22 (len buf)
  /\ Forall (fun e => 1 <= len (header e)) (events parsed)
  /\ trailingBytes parsed = None.
Proof.
  intros Hlen H. unfold parseFlp_events in H.
  destruct (parseEvents _ _ _ _) as [st|] eqn:E; [cbn [bind] in H|discriminate].
  apply parseEvents_spec in E; cbn [l_pos l_events] in *; [|lia].
  destruct E as (Hpos & Hend & new & Hev & Hcat & Hall).
  assert (Hp : l_pos st = len buf) by lia.
  destruct (Z.gtb_spec (len buf - l_pos st) 0); [lia|].
  injection H as <-. cbn [headerChunkBytes fldtHeaderBytes events trailingBytes].
  rewrite Hev. cbn [app]. rewrite Hcat, Hp. auto.
Qed.

(** ** Serialization *)

Lemma serializeEvent_region (e : FlpEvent) :
  1 <= len (header e) -> serializeEvent e = region e.
Proof.
  intros H. unfold serializeEvent, region.
  destruct (Z.gtb_spec (Z.of_nat (List.length (header e))) 0); [reflexivity|].
  unfold len in H. lia.
Qed.

Lemma map_serializeEvent_region (es : list FlpEvent) :
  Forall (fun e => 1 <= len (header e)) es ->
  map serializeEvent es = map region es.
Proof.
  induction 1 as [|e es He _ IH]; cbn [map]; [reflexivity|].
  now rewrite IH, serializeEvent_region.
Qed.

Lemma fold_left_len (es : list FlpEvent) (acc : Z) :
  fold_left (fun a event => a + len (serializeEvent event)) es acc
  = acc + len (concat (map serializeEvent es)).
Proof.
  revert acc. induction es as [|e es IH]; intros acc; cbn [fold_left map concat].
  - unfold len. simpl. lia.
  - rewrite IH, len_app. lia.
Qed.

Lemma shiftr8 (b : byte) (k : Z) : Z.shiftr (byteZ b + 256 * k) 8 = k.
Proof.
  rewrite Z.shiftr_div_pow2 by lia. change (2 ^ 8) with 256.
  pose proof (byteZ_range b).
  rewrite Z.add_comm, Z.mul_comm, Z.div_add_l by lia.
  rewrite Z.div_small by lia. lia.
Qed.

(** Writing the 32-bit little-endian value of four bytes gives them back. *)
Lemma writeU32LE_le_value (l : list byte) :
  List.length l = 4%nat -> Writer.writeU32LE (Reader.le_value l) = l.
Proof.
  destruct l as [|b0 [|b1 [|b2 [|b3 [|? ?]]]]]; try discriminate. intros _.
  unfold Writer.writeU32LE. cbn [Reader.le_value].
  pose proof (byteZ_range b0). pose proof (byteZ_range b1).
  pose proof (byteZ_range b2). pose proof (byteZ_range b3).
  unfold to_uint32. rewrite Z.mod_small by lia.
  change 24 with (8 + 16) at 1. change 16 with (8 + 8) at 1 2.
  rewrite <- !Z.shiftr_shiftr by lia.
  rewrite !shiftr8, !byte_of_Z_byteZ. reflexivity.
Qed.

(** What [serializeFlp] returns on a parsed file: the source buffer with
    the four magic bytes of the event chunk written afresh. *)
Lemma serializeFlp_parseFlp (buf : list byte) (parsed : ParsedFlp) :
  parseFlp buf = Ok parsed ->
  serializeFlp parsed
  = subarray buf 0 14 ++ Buffer_from_ascii FLP_DATA_MAGIC ++ subarray buf 18 (len buf).
Proof.
  intros H. apply parseFlp_inv in H as (Hlen & Hok & H).
  apply parseFlp_events_cover in H as (Hh & _ & Hcat & Hall & Ht); [|assumption].
  unfold serializeFlp. rewrite Hh, Ht, fold_left_len, app_nil_r.
  rewrite (map_serializeEvent_region _ Hall), Hcat.
  rewrite len_subarray by lia. rewrite Z.add_0_l.
  unfold container_ok in Hok.
  apply andb_prop in Hok as [_ Hsz]. apply Z.eqb_eq in Hsz.
  replace (len buf - 22) with (Reader.le_value (subarray buf 18 22)) by lia.
  rewrite writeU32LE_le_value.
  - cbn [app]. now rewrite (subarray_app buf 18 22 (len buf)) by lia.
  - pose proof (len_subarray buf 18 22). unfold len in *. lia.
Qed.

(** Round trip, for the files whose event chunk starts with the bytes
    "FLdt" themselves. *)
Lemma serializeFlp_parseFlp_exact_magic (buf : list byte) (parsed : ParsedFlp) :
  parseFlp buf = Ok parsed ->
  (serializeFlp parsed = buf
   <-> subarray buf 14 18 = Buffer_from_ascii FLP_DATA_MAGIC).
Proof.
  intros H. pose proof (parseFlp_inv _ _ H) as (Hlen & _ & _).
  rewrite (serializeFlp_parseFlp _ _ H).
  rewrite <- (subarray_all buf) at 4.
  rewrite <- (subarray_app buf 0 14 (len buf)) by lia.
  rewrite <- (subarray_app buf 14 18 (len buf)) by lia.
  split.
  - intros E. apply app_inv_head, app_inv_tail in E. now symmetry.
  - intros ->. reflexivity.
Qed.

(** ** Claims about the container and the round trip *)

(** C1.  Round trip [serializeFlp (parseFlp F) = F] for every accepted [F]:
    the code breaks it.  [parseFlp] compares the magic of the event chunk
    after [toString('ascii')], which clears the high bit of each byte, so
    the buffer [high_bit_FLdt] (first magic byte 0xC6) is accepted;
    [serializeFlp] writes the magic afresh as "FLdt" (0x46), and the output
    differs from the input at offset 14. *)
Theorem roundtrip_fails_on_high_bit_FLdt :
  exists parsed,
    parseFlp high_bit_FLdt = Ok parsed
    /\ serializeFlp parsed = minimal_file
    /\ serializeFlp parsed <> high_bit_FLdt.
Proof.
  eexists. split; [vm_compute; reflexivity|].
  split; [vm_compute; reflexivity|].
  vm_compute. discriminate.
Qed.

(** C7.  The container checks reject every buffer whose first four bytes
    are not 'FLhd': the code breaks it.  The magic is compared after
    [toString('ascii')], which clears the high bit of each byte, so a
    buffer that starts with 0xC6 'L' 'h' 'd' passes the check and is
    parsed. *)
Theorem container_accepts_high_bit_FLhd :
  subarray high_bit_FLhd 0 4 <> Buffer_from_ascii FLP_HEADER_MAGIC
  /\ is_ok (parseFlp high_bit_FLhd) = true.
Proof.
  split; [vm_compute; discriminate|vm_compute; reflexivity].
Qed.

(** The container checks as the code makes them (the two magics compared
    after the high bits are cleared): a buffer that fails one of them is
    rejected, and a buffer that passes them all reaches the event loop, so
    that an error can only come from decoding the events. *)
Lemma container_checks (buf : list byte) :
  (container_ok buf = false -> is_ok (parseFlp buf) = false)
  /\ (container_ok buf = true -> parseFlp buf = parseFlp_events buf).
Proof.
  destruct (Z.lt_ge_cases (len buf) 22) as [Hs|Hl].
  - split; [intros _; now apply parseFlp_short|].
    unfold container_ok. destruct (Z.leb_spec 22 (len buf)); [lia|].
    rewrite andb_false_r. discriminate.
  - destruct (parseFlp_unfold buf Hl). split; assumption.
Qed.

(** C10.  Whenever [parseFlp] succeeds, [trailingBytes] is undefined: the
    length check makes the event stream end at the end of the buffer, and
    the reader never goes past it. *)
Theorem parseFlp_no_trailingBytes (buf : list byte) (parsed : ParsedFlp) :
  parseFlp buf = Ok parsed -> trailingBytes parsed = None.
Proof.
  intros H. apply parseFlp_inv in H as (Hlen & _ & H).
  now apply parseFlp_events_cover in H.
Qed.

(** On the smallest project file. *)
Lemma parseFlp_no_trailingBytes_witness :
  exists parsed, parseFlp minimal_file = Ok parsed /\ trailingBytes parsed = None.
Proof.
  eexists. split; [vm_compute; reflexivity|].
  eapply (parseFlp_no_trailingBytes minimal_file). vm_compute. reflexivity.
Defined.

(** ** Claims about the event table *)

(** C9.  [getEventKind] returns [text] for the three ids of
    [NEW_TEXT_IDS], 231, 239 and 241: the code breaks it for 231.
    [EVENT_KIND] maps [DISPLAY_GROUP_NAME] (231) to [data] and the explicit
    mapping is consulted first, so the [NEW_TEXT_IDS] test of the fallback
    is never reached for it. *)
Theorem getEventKind_new_text_ids :
  NEW_TEXT_IDS = [241; 231; 239]
  /\ getEventKind 231 = data
  /\ getEventKind 239 = text
  /\ getEventKind 241 = text.
Proof. repeat split. Qed.

Lemma existsb_filter (f : Z -> bool) (x : Z) (l : list Z) :
  existsb (Z.eqb x) (filter f l) = true -> f x = true.
Proof.
  induction l as [|y l IH]; cbn [filter existsb]; [discriminate|].
  destruct (f y) eqn:Ef; [|exact IH].
  cbn [existsb]. destruct (Z.eqb_spec x y) as [->|_]; [intros _; exact Ef|exact IH].
Qed.

Lemma KNOWN_DWORD_IDS_range (x : Z) :
  KNOWN_DWORD_IDS_has x = true -> DWORD <= x < TEXT.
Proof.
  unfold KNOWN_DWORD_IDS_has, KNOWN_DWORD_IDS.
  intros H. apply existsb_filter in H.
  apply andb_prop in H as [H1 H2].
  apply Z.leb_le in H1. apply Z.ltb_lt in H2. split; assumption.
Qed.

(** ** Claims about the disambiguation of unknown DWORD-range events *)

Lemma readU8_eq (buf : list byte) (p v : Z) :
  get buf p = Some v -> Reader.readU8 buf p = Ok (v, p + 1).
Proof.
  intros H. pose proof (get_Some _ _ _ H) as [Hp Hv].
  unfold Reader.readU8. rewrite readUIntLE_eq by lia.
  rewrite (subarray_one _ _ _ H). cbn [Reader.le_value].
  rewrite byteZ_byte_of_Z by lia. do 2 f_equal. lia.
Qed.

(** The event recorded for a given layout. *)
Lemma parseEvent_of_layout (buf : list byte) (end_ p eventId : Z) (fresh : N)
    (ps hs pos2 : Z) :
  get buf p = Some eventId ->
  eventLayout buf p end_ eventId (p + 1) = Ok (ps, hs, pos2) ->
  parseEvent buf end_ p fresh
  = Ok (mkEvent eventId (getEventKind eventId) (subarray buf p (p + hs))
          (mkBuffer fresh (subarray buf pos2 (pos2 + ps))),
        Z.min (len buf) (pos2 + ps)).
Proof.
  intros Hget HL. unfold parseEvent.
  rewrite (readU8_eq _ _ _ Hget). cbn [bind]. rewrite HL. cbn [bind].
  apply get_Some in Hget as [Hp _].
  apply eventLayout_pos in HL as (-> & Hhs & Hle & Hps); [|lia].
  unfold Reader.readBytes. destruct (Z.ltb_spec ps 0); [lia|]. cbn [bind].
  rewrite subarray_clamp by lia. reflexivity.
Qed.

(** C3.  For an id in [128, 192) outside the known-DWORD set, at offset
    [p]: when the raw VLI at [p+1] is malformed, or its value [s] is
    negative or above 100000, or [p + 1 + v + s > end_], or [s = 3], the
    event is decoded as fixed (payload size 4, framing the id byte alone);
    otherwise it is decoded as variable (framing of [1 + v] bytes, payload
    of [s] bytes) if and only if the look-ahead score of the variable
    hypothesis exceeds that of the fixed hypothesis by more than 2, and as
    fixed if not. *)
Theorem unknown_dword_disambiguation (buf : list byte) (p end_ eventId : Z)
    (fresh : N) :
  get buf p = Some eventId ->
  end_ <= len buf ->
  DWORD <= eventId < TEXT ->
  KNOWN_DWORD_IDS_has eventId = false ->
  let vi := readVarIntRaw buf (p + 1) end_ in
  let s := size vi in
  let v := bytesRead vi in
  let scoreA := scoreAlignment buf (p + 5) end_ LOOKAHEAD_BYTES in
  let scoreB := scoreAlignment buf (p + 1 + v + s) end_ LOOKAHEAD_BYTES in
  (variable_rejected vi p end_ \/ s = 3 ->
   decoded_as_fixed buf end_ p eventId fresh)
  /\ (~ (variable_rejected vi p end_ \/ s = 3) ->
      (decoded_as_variable buf end_ p eventId fresh s v <-> scoreB > scoreA + 2)
      /\ (decoded_as_fixed buf end_ p eventId fresh <-> ~ scoreB > scoreA + 2)).
Proof.
  intros Hget Hend Hid Hunk vi s v scoreA scoreB.
  pose proof (get_Some _ _ _ Hget) as [Hp Hv].
  (* the layout, branch by branch *)
  assert (HL : eventLayout buf p end_ eventId (p + 1)
               = unknownDwordLayout buf p end_ (p + 1)).
  { unfold eventLayout. rewrite Hunk.
    destruct (Z.ltb_spec eventId WORD); [unfold WORD, DWORD in *; lia|].
    destruct (Z.ltb_spec eventId DWORD); [lia|].
    destruct (Z.ltb_spec eventId TEXT); [reflexivity|lia]. }
  assert (Hfixed : eventLayout buf p end_ eventId (p + 1) = Ok (4, 1, p + 1) ->
                   decoded_as_fixed buf end_ p eventId fresh).
  { intros E. split; [exact E|].
    eexists. rewrite (parseEvent_of_layout _ _ _ _ _ _ _ _ Hget E).
    replace (p + 1 + 4) with (p + 5) by lia.
    split; [reflexivity|]. cbn [header payload bytes].
    split; [|reflexivity].
    now apply subarray_one. }
  assert (Hrej : variable_rejected vi p end_ <->
                 (size vi <? 0) || (size vi >? LOOKAHEAD_VARINT_MAX)
                 || (p + 1 + bytesRead vi + size vi >? end_) = true).
  { unfold variable_rejected, LOOKAHEAD_VARINT_MAX.
    rewrite !orb_true_iff, Z.ltb_lt, !Z.gtb_gt. split.
    - intros [E|[H|[H|H]]]; [rewrite E; cbn; lia|lia..].
    - intros [[H|H]|H]; auto. }
  unfold unknownDwordLayout in HL.
  replace (p + 1 + 4) with (p + 5) in HL by lia. fold vi in HL.
  fold s v in HL. fold scoreA scoreB in HL. fold s v in Hrej.
  destruct ((s <? 0) || (s >? LOOKAHEAD_VARINT_MAX) || (p + 1 + v + s >? end_))
    eqn:Erej.
  { (* rejected *)
    split; [intros _; now apply Hfixed|].
    intros Hn. exfalso. apply Hn. left. now apply Hrej. }
  assert (Hnrej : ~ variable_rejected vi p end_)
    by (intros H; apply Hrej in H; discriminate).
  destruct (Z.eqb_spec s 3) as [E3|E3].
  { split; [intros _; now apply Hfixed|]. intros Hn. exfalso. apply Hn. now right. }
  split; [intros [H|H]; contradiction|]. intros _.
  (* the VLI was decoded: one byte or more, inside the stream *)
  assert (Hvs : 0 <= s /\ 1 <= v /\ p + 1 + v + s <= end_).
  { apply orb_false_iff in Erej as [Erej E2]. apply orb_false_iff in Erej as [E0 E1].
    apply Z.ltb_ge in E0. rewrite Z.gtb_ltb in E2. apply Z.ltb_ge in E2.
    destruct (readVarIntRaw_spec buf (p + 1) end_) as [F|F]; fold vi in F.
    - exfalso. apply Hnrej. now left.
    - fold v in F. lia. }
  revert HL. destruct (Z.gtb_spec scoreB (scoreA + 2)) as [Hgt|Hle]; intros HL.
  - (* variable *)
    assert (Es : Reader.seek buf (p + 1 + v) = Ok (p + 1 + v)).
    { unfold Reader.seek.
      destruct (Z.ltb_spec (p + 1 + v) 0); [lia|].
      destruct (Z.ltb_spec (len buf) (p + 1 + v)); [lia|]. reflexivity. }
    rewrite Es in HL. cbn [bind] in HL.
    split; split.
    + intros _. lia.
    + intros _. split; [exact HL|].
      eexists. rewrite (parseEvent_of_layout _ _ _ _ _ _ _ _ Hget HL).
      rewrite Z.min_r by lia.
      split; [reflexivity|]. cbn [header payload bytes].
      replace (p + (1 + v)) with (p + 1 + v) by lia.
      split; [reflexivity|].
      rewrite !len_subarray by lia.
      repeat split; lia.
    + intros [E _]. rewrite HL in E. apply Ok_inj in E.
      apply pair_inj in E as [E _]. apply pair_inj in E as [_ E]. lia.
    + intros Hn. exfalso. lia.
  - split; split.
    + intros [E _]. rewrite HL in E. apply Ok_inj in E.
      apply pair_inj in E as [E _]. apply pair_inj in E as [_ E]. lia.
    + intros Hgt. lia.
    + intros _. lia.
    + intros _. now apply Hfixed.
Qed.

(** On [unknown_dword_file]: the VLI is 8 on one byte, the variable hypothesis
    reaches the TEXT event and wins. *)
Lemma unknown_dword_disambiguation_witness :
  decoded_as_variable unknown_dword_file 34 22 141 0%N 8 1.
Proof.
  pose proof (unknown_dword_disambiguation unknown_dword_file 22 34 141 0%N) as H.
  assert (Hvi : readVarIntRaw unknown_dword_file (22 + 1) 34 = mkVarIntRaw 8 1)
    by (vm_compute; reflexivity).
  cbv zeta in H. rewrite Hvi in H. cbn [size bytesRead] in H.
  destruct H as [_ H].
  - vm_compute; reflexivity.
  - vm_compute; discriminate.
  - unfold DWORD, TEXT; lia.
  - vm_compute; reflexivity.
  - apply H.
    + unfold variable_rejected. cbn [size bytesRead].
      intros [[E|[E|[E|E]]]|E]; try discriminate E; lia.
    + vm_compute. reflexivity.
Defined.

(** ** Claims about the look-ahead walker *)

Lemma small_id_not_known (i : Z) : i < 32 -> KNOWN_DWORD_IDS_has i = false.
Proof.
  intros H. destruct (KNOWN_DWORD_IDS_has i) eqn:E; [|reflexivity].
  apply KNOWN_DWORD_IDS_range in E. unfold DWORD in E. lia.
Qed.

Lemma step_refused_iff (buf : list byte) (end_ off : Z) :
  let vi := readVarIntRaw buf (off + 1) end_ in
  (size vi >=? 0) && (size vi <? LOOKAHEAD_VARINT_MAX)
  && (off + 1 + bytesRead vi + size vi <=? end_) = false
  <-> step_refused buf end_ off.
Proof.
  unfold step_refused, LOOKAHEAD_VARINT_MAX. cbv zeta.
  destruct (readVarIntRaw buf (off + 1) end_) as [s v]. cbn [size bytesRead].
  rewrite !andb_false_iff, Z.geb_leb, Z.leb_gt, Z.ltb_ge, Z.leb_gt. lia.
Qed.

(** The loop of [scoreAlignment] follows the walk, whatever its state, as
    soon as its bound covers the rest of the window. *)
Lemma scoreAlignment_loop_walk (buf : list byte) (end_ limit : Z) (n : nat) :
  forall off t c m,
    limit - off <= Z.of_nat n ->
    exists o,
      Walk buf end_ limit off t c m o
      /\ scoreAlignment_loop n buf off end_ limit t c m = score_of o.
Proof.
  induction n as [|n IH]; intros off t c m Hn; cbn [scoreAlignment_loop].
  - destruct (Z.ltb_spec off limit); [lia|].
    exists (Finished t m). split; [apply Walk_halt; lia|cbn [score_of]; lia].
  - destruct (Z.ltb_spec off limit) as [Hlt|Hge].
    2:{ exists (Finished t m). split; [apply Walk_halt; lia|cbn [score_of]; lia]. }
    destruct (get buf off) as [i|] eqn:Hget; cbn [js_lt js_known_dword].
    + unfold WORD, DWORD, TEXT.
      destruct (Z.ltb_spec i 64).
      { destruct (Z.ltb_spec i 32); cbn [andb].
        - rewrite small_id_not_known by assumption. cbn [negb].
          destruct (IH (off + 2) t (c + 1) (Z.max m (c + 1))) as (o & W & E); [lia|].
          exists o. split; [|exact E]. eapply Walk_small; eauto.
        - destruct (IH (off + 2) t 0 m) as (o & W & E); [lia|].
          exists o. split; [|exact E]. eapply Walk_byte; eauto. }
      destruct (Z.ltb_spec i 128).
      { destruct (IH (off + 3) t 0 m) as (o & W & E); [lia|].
        exists o. split; [|exact E]. eapply Walk_word; eauto. }
      destruct (Z.ltb_spec i 192).
      { destruct (IH (off + 5) t 0 m) as (o & W & E); [lia|].
        exists o. split; [|exact E]. eapply Walk_dword; eauto. }
      pose proof (step_refused_iff buf end_ off) as R. cbv zeta in R.
      destruct (_ && _) eqn:Ev.
      * assert (Hnr : ~ step_refused buf end_ off)
          by (intros F; apply R in F; discriminate).
        destruct (readVarIntRaw_spec buf (off + 1) end_) as [F|F].
        { exfalso. apply Hnr. unfold step_refused. rewrite F. cbn. lia. }
        assert (0 <= size (readVarIntRaw buf (off + 1) end_))
          by (unfold step_refused in Hnr; cbv zeta in Hnr; lia).
        destruct (IH (off + 1 + bytesRead (readVarIntRaw buf (off + 1) end_)
                      + size (readVarIntRaw buf (off + 1) end_)) (t + 1) 0 m)
          as (o & W & E); [lia|].
        exists o. split; [|exact E].
        eapply Walk_text; eauto. rewrite Hget. cbn. lia.
      * exists Rejected. split; [|reflexivity].
        apply Walk_refused; [assumption|rewrite Hget; cbn; lia|now apply R].
    + pose proof (step_refused_iff buf end_ off) as R. cbv zeta in R.
      destruct (_ && _) eqn:Ev.
      * assert (Hnr : ~ step_refused buf end_ off)
          by (intros F; apply R in F; discriminate).
        destruct (readVarIntRaw_spec buf (off + 1) end_) as [F|F].
        { exfalso. apply Hnr. unfold step_refused. rewrite F. cbn. lia. }
        assert (0 <= size (readVarIntRaw buf (off + 1) end_))
          by (unfold step_refused in Hnr; cbv zeta in Hnr; lia).
        destruct (IH (off + 1 + bytesRead (readVarIntRaw buf (off + 1) end_)
                      + size (readVarIntRaw buf (off + 1) end_)) (t + 1) 0 m)
          as (o & W & E); [lia|].
        exists o. split; [|exact E].
        eapply Walk_text; eauto. rewrite Hget. exact I.
      * exists Rejected. split; [|reflexivity].
        apply Walk_refused; [assumption|rewrite Hget; exact I|now apply R].
Qed.

(** A walk has one outcome. *)
Lemma Walk_deterministic (buf : list byte) (end_ limit off t c m : Z)
    (o o' : outcome) :
  Walk buf end_ limit off t c m o ->
  Walk buf end_ limit off t c m o' ->
  o = o'.
Proof.
  intros W. revert o'.
  induction W as [off t c m H
                 |off t c m i o H G R W IH |off t c m i o H G R W IH
                 |off t c m i o H G R W IH |off t c m i o H G R W IH
                 |off t c m o H G R vi W IH |off t c m H G R];
    intros o' W'; inversion W'; subst;
    try lia;
    try (match goal with
         | G1 : get buf ?x = Some ?a, G2 : get buf ?x = Some ?b |- _ =>
             rewrite G1 in G2; injection G2 as ->
         end);
    try lia;
    try (match goal with
         | G1 : get buf ?x = Some ?a, G2 : text_data_range (get buf ?x) |- _ =>
             rewrite G1 in G2; cbn in G2
         end);
    try lia;
    try contradiction;
    try reflexivity;
    try (apply IH; assumption).
Qed.

(** C4, as the code has it.  From [q], within the window of 200 bytes
    (and in front of [end_]), [scoreAlignment] walks as [Walk] tells: an id
    below 64 advances by 2 (the run of small ids grows when the id is below
    32 and is reset if not), an id in [64, 128) advances by 3 and an id in
    [128, 192) by 5 (both reset the run), an id of 192 or more raw-decodes
    a VLI, counts one TEXT/DATA event and advances behind its payload.  The
    walk has one outcome, and the score is [10 * t - 3 * m] when the window
    is walked through, and -100 when a TEXT/DATA step is refused (VLI
    malformed or negative, 100000 or more, or payload ending behind
    [end_]). *)
Theorem scoreAlignment_walk (buf : list byte) (q end_ : Z) :
  let limit := Z.min (q + LOOKAHEAD_BYTES) end_ in
  exists o,
    Walk buf end_ limit q 0 0 0 o
    /\ (forall o', Walk buf end_ limit q 0 0 0 o' -> o' = o)
    /\ scoreAlignment buf q end_ LOOKAHEAD_BYTES = score_of o.
Proof.
  intros limit. unfold scoreAlignment. fold limit.
  destruct (scoreAlignment_loop_walk buf end_ limit (Z.to_nat (limit - q)) q 0 0 0)
    as (o & W & E); [lia|].
  exists o. split; [exact W|]. split; [|exact E].
  intros o' W'. exact (Walk_deterministic _ _ _ _ _ _ _ _ _ W' W).
Qed.

Ltac walk_small :=
  eapply Walk_small; [lia | vm_compute; reflexivity | lia | ].

Ltac walk_text :=
  eapply Walk_text;
  [ lia
  | vm_compute; first [exact I | discriminate]
  | let H := fresh in
    unfold step_refused; intros [H|[H|H]]; vm_compute in H;
    first [discriminate H | apply H; reflexivity]
  | cbv zeta ].

(** C4, as stated, fails: the score is -100 whenever [10 * t - 3 * m] is,
    with no step refused.  Over [forty_small_ids] the walker counts two
    TEXT/DATA events and a run of forty small ids: 20 - 120 = -100. *)
Lemma score_minus_100_without_refusal :
  scoreAlignment forty_small_ids 0 84 LOOKAHEAD_BYTES = -100
  /\ Walk forty_small_ids 84 (Z.min (0 + LOOKAHEAD_BYTES) 84) 0 0 0 0 (Finished 2 40)
  /\ ~ Walk forty_small_ids 84 (Z.min (0 + LOOKAHEAD_BYTES) 84) 0 0 0 0 Rejected.
Proof.
  assert (W : Walk forty_small_ids 84 (Z.min (0 + LOOKAHEAD_BYTES) 84) 0 0 0 0
                (Finished 2 40)).
  { change (Z.min (0 + LOOKAHEAD_BYTES) 84) with 84.
    walk_text.
    assert (E : readVarIntRaw forty_small_ids (0 + 1) 84 = mkVarIntRaw 0 1)
      by (vm_compute; reflexivity).
    rewrite E. cbn [size bytesRead]. change (0 + 1 + 1 + 0) with 2. change (0 + 1) with 1.
    walk_text.
    assert (E' : readVarIntRaw forty_small_ids (2 + 1) 84 = mkVarIntRaw 0 1)
      by (vm_compute; reflexivity).
    rewrite E'. cbn [size bytesRead]. change (2 + 1 + 1 + 0) with 4. change (1 + 1) with 2.
    do 40 walk_small.
    match goal with
    | |- Walk _ _ _ ?off ?t ?c ?m _ =>
        let off' := eval vm_compute in off in
        let m' := eval vm_compute in m in
        change off with off'; change m with m'
    end.
    apply Walk_halt. lia. }
  split; [vm_compute; reflexivity|]. split; [exact W|].
  intros R. pose proof (Walk_deterministic _ _ _ _ _ _ _ _ _ W R). discriminate.
Qed.

(** ** Claims about serialization and patching *)

Lemma byteZ_byte_of_Z_mod (z : Z) : byteZ (byte_of_Z z) = z mod 256.
Proof.
  unfold byte_of_Z.
  pose proof (Z.mod_pos_bound z 256 ltac:(lia)) as Hm.
  destruct (Byte.of_N (Z.to_N (z mod 256))) eqn:E.
  - apply Byte.to_of_N in E. unfold byteZ. rewrite E. lia.
  - pose proof (Byte.to_of_N_option_map (Z.to_N (z mod 256))) as H.
    rewrite E in H. cbn [option_map] in H.
    destruct (N.leb_spec (Z.to_N (z mod 256)) 255); [discriminate|lia].
Qed.

(** Reading back the four bytes written for a 32-bit value gives it back. *)
Lemma le_value_writeU32LE (v : Z) :
  0 <= v < 2 ^ 32 -> Reader.le_value (Writer.writeU32LE v) = v.
Proof.
  intros Hv. unfold Writer.writeU32LE, to_uint32.
  rewrite Z.mod_small by lia. cbn [Reader.le_value].
  rewrite !byteZ_byte_of_Z_mod, !Z.shiftr_div_pow2 by lia.
  change (2 ^ 8) with 256. change (2 ^ 16) with 65536.
  change (2 ^ 24) with 16777216. change (2 ^ 32) with 4294967296 in Hv.
  Z.div_mod_to_equations. lia.
Qed.

Lemma len_writeU32LE (v : Z) : len (Writer.writeU32LE v) = 4.
Proof. reflexivity. Qed.

Lemma subarray_app_at (a b : list byte) (s e : Z) :
  len a = s -> s <= e -> subarray (a ++ b) s e = subarray b 0 (e - s).
Proof.
  intros Ha He. unfold subarray, len in *.
  rewrite skipn_app, skipn_all2 by lia. cbn [app].
  replace (Z.to_nat s - List.length a)%nat with 0%nat by lia.
  now rewrite Z.sub_0_r.
Qed.

Lemma subarray_prefix (a b : list byte) : subarray (a ++ b) 0 (len a) = a.
Proof.
  unfold subarray, len. cbn [Z.to_nat skipn]. rewrite Z.sub_0_r, Nat2Z.id.
  rewrite firstn_app, Nat.sub_diag, firstn_all. cbn [firstn]. apply app_nil_r.
Qed.

Lemma fold_right_len_serialize (es : list FlpEvent) :
  fold_right (fun e acc => len (serializeEvent e) + acc) 0 es
  = len (concat (map serializeEvent es)).
Proof.
  induction es as [|e es IH]; cbn [fold_right map concat]; [reflexivity|].
  rewrite IH, len_app. reflexivity.
Qed.

Lemma serializeFlp_eventsSize (parsed : ParsedFlp) :
  serializeFlp parsed
  = headerChunkBytes parsed
    ++ Buffer_from_ascii FLP_DATA_MAGIC
    ++ Writer.writeU32LE (emitted_size parsed)
    ++ concat (map serializeEvent (events parsed))
    ++ match trailingBytes parsed with Some t => t | None => [] end.
Proof.
  unfold serializeFlp, emitted_size.
  rewrite fold_left_len, fold_right_len_serialize, Z.add_0_l.
  destruct (trailingBytes parsed); [reflexivity|]. now rewrite Z.add_0_r.
Qed.

Lemma nth_error_map_index {A B} (f : A -> nat -> B) (l : list A) (k i : nat) :
  nth_error (map_index f l k) i
  = option_map (fun a => f a (k + i)%nat) (nth_error l i).
Proof.
  revert k i. induction l as [|a l IH]; intros k [|i]; cbn [map_index nth_error option_map];
    try reflexivity.
  - now rewrite Nat.add_0_r.
  - rewrite IH. now rewrite Nat.add_succ_r.
Qed.

Lemma nth_error_patchEvents (parsed : ParsedFlp)
    (patcher : FlpEvent -> nat -> FlpEvent) (index : nat) (event : FlpEvent) :
  nth_error (events parsed) index = Some event ->
  nth_error (events (patchEvents parsed patcher)) index
  = Some (patchEvent patcher event index).
Proof.
  intros H. unfold patchEvents. cbn [events].
  rewrite nth_error_map_index, H. reflexivity.
Qed.

(** C6, as the code has it.  For an event whose original framing is longer
    than one byte: when the transform returns the original payload object,
    [patchEvents] passes on the event the transform returned, framing
    included (the original framing when the transform left it alone),
    whether the id changed or not; when the transform returns another
    payload object, the framing is rebuilt as the new id byte followed by
    the VLI of the new payload length, and id, kind and payload are those
    the transform returned. *)
Theorem patchEvents_framing (parsed : ParsedFlp)
    (patcher : FlpEvent -> nat -> FlpEvent) (index : nat) (event : FlpEvent) :
  nth_error (events parsed) index = Some event ->
  1 < len (header event) ->
  let patched := patcher event index in
  exists e',
    nth_error (events (patchEvents parsed patcher)) index = Some e'
    /\ (ref (payload patched) = ref (payload event) -> e' = patched)
    /\ (ref (payload patched) <> ref (payload event) ->
        header e' = Writer.writeU8 (id patched)
                    ++ Writer.writeVarInt (len (bytes (payload patched)))
        /\ id e' = id patched
        /\ kind e' = kind patched
        /\ payload e' = payload patched).
Proof.
  intros Hnth Hlen patched.
  exists (patchEvent patcher event index).
  split; [now apply nth_error_patchEvents|].
  unfold patchEvent, payload_differs. fold patched.
  destruct (Z.gtb_spec (Z.of_nat (List.length (header event))) 1) as [_|H];
    [|unfold len in Hlen; lia].
  rewrite andb_true_r.
  destruct (N.eqb_spec (ref (payload patched)) (ref (payload event))) as [E|E];
    cbn [negb].
  - split; [reflexivity|]. intros N. contradiction.
  - split; [intros N; contradiction|]. intros _. repeat split.
Qed.

(** On [text_event_file], re-tagged by [retag_195]: the payload object is the
    original one, and the event is passed on as the transform returned it. *)
Lemma patchEvents_framing_witness :
  exists parsed event e',
    parseFlp text_event_file = Ok parsed
    /\ nth_error (events parsed) 0 = Some event
    /\ nth_error (events (patchEvents parsed retag_195)) 0 = Some e'
    /\ e' = retag_195 event 0.
Proof.
  assert (P : exists parsed event,
             parseFlp text_event_file = Ok parsed
             /\ nth_error (events parsed) 0 = Some event
             /\ 1 < len (header event)
             /\ ref (payload (retag_195 event 0)) = ref (payload event)).
  { eexists. eexists. split; [vm_compute; reflexivity|].
    split; [reflexivity|]. split; reflexivity. }
  destruct P as (parsed & event & Hp & Hn & Hl & Hr).
  destruct (patchEvents_framing parsed retag_195 0 event Hn Hl) as (e' & He & Hsame & _).
  exists parsed, event, e'. repeat split; try assumption.
  apply Hsame. exact Hr.
Defined.

(** C6, as stated, fails when the id changes and the payload does not: the
    framing is not rebuilt.  The TEXT event [C2 03 41 42 43], re-tagged as
    195 with its payload untouched, keeps the framing [C2 03], not the
    rebuilt [C3 03]. *)
Lemma id_change_keeps_framing :
  exists parsed event e',
    parseFlp text_event_file = Ok parsed
    /\ nth_error (events parsed) 0 = Some event
    /\ 1 < len (header event)
    /\ id (retag_195 event 0) <> id event
    /\ nth_error (events (patchEvents parsed retag_195)) 0 = Some e'
    /\ header e' = bytes_of [0xC2; 3]
    /\ Writer.writeU8 (id (retag_195 event 0))
       ++ Writer.writeVarInt (len (bytes (payload (retag_195 event 0))))
       = bytes_of [0xC3; 3]
    /\ header e' <> bytes_of [0xC3; 3].
Proof.
  eexists. eexists. eexists.
  split; [vm_compute; reflexivity|].
  split; [reflexivity|].
  split; [reflexivity|].
  split; [vm_compute; discriminate|].
  split; [vm_compute; reflexivity|].
  split; [reflexivity|].
  split; [vm_compute; reflexivity|].
  vm_compute. discriminate.
Qed.

(** The slice of the source buffer an event was copied from. *)
Lemma slice_of_concat (l : list byte) (A x B : list byte) :
  l = A ++ x ++ B ->
  firstn (List.length x) (skipn (List.length A) l) = x.
Proof.
  intros ->. rewrite skipn_app, skipn_all, Nat.sub_diag. cbn [skipn app].
  rewrite firstn_app, Nat.sub_diag, firstn_all. cbn [firstn]. apply app_nil_r.
Qed.

Lemma concat_split_nth {A} (l : list (list A)) (i : nat) (x : list A) :
  nth_error l i = Some x ->
  concat l = concat (firstn i l) ++ x ++ concat (skipn (S i) l).
Proof.
  revert i. induction l as [|y l IH]; intros [|i] H; cbn in H; try discriminate.
  - injection H as ->. reflexivity.
  - cbn [firstn skipn concat]. rewrite (IH i H), <- app_assoc. reflexivity.
Qed.

Lemma parsed_event_region (buf : list byte) (parsed : ParsedFlp)
    (index : nat) (event : FlpEvent) :
  parseFlp buf = Ok parsed ->
  nth_error (events parsed) index = Some event ->
  let off := event_offset (events parsed) index in
  region event = subarray buf off (off + len (region event))
  /\ 1 <= len (header event)
  /\ off + len (region event) <= len buf.
Proof.
  intros H Hn off.
  apply parseFlp_inv in H as (Hlen & _ & H).
  apply parseFlp_events_cover in H as (_ & _ & Hcat & Hall & _); [|assumption].
  assert (Hreg : nth_error (map region (events parsed)) index = Some (region event))
    by (rewrite nth_error_map, Hn; reflexivity).
  pose proof (concat_split_nth _ _ _ Hreg) as Hs.
  rewrite Hcat in Hs. rewrite firstn_map in Hs.
  set (A := concat (map region (firstn index (events parsed)))) in *.
  set (B := concat (skipn (S index) (map region (events parsed)))) in *.
  assert (Hoff : off = 22 + len A) by reflexivity.
  assert (Htot : len buf - 22 = len A + len (region event) + len B).
  { apply (f_equal len) in Hs. rewrite len_subarray, !len_app in Hs by lia. lia. }
  pose proof (len_nonneg A). pose proof (len_nonneg B).
  pose proof (len_nonneg (region event)).
  split; [|split].
  - unfold subarray in *.
    replace (Z.to_nat (off + len (region event) - off))
      with (List.length (region event)) by (unfold len; lia).
    replace (Z.to_nat off) with (List.length A + Z.to_nat 22)%nat
      by (unfold len in *; lia).
    rewrite <- skipn_skipn.
    rewrite firstn_all2 in Hs by (rewrite length_skipn; unfold len in *; lia).
    symmetry. now apply slice_of_concat with (B := B).
  - rewrite Forall_forall in Hall. apply Hall. eapply nth_error_In; eauto.
  - lia.
Qed.

(** C2, as the code has it.  When the transform returns, for the event of
    some index, an event with the original id, the original payload object
    and the original framing, the bytes serialized for that event are the
    event's region of the source buffer, framing followed by payload. *)
Theorem untouched_event_bytes (buf : list byte) (parsed : ParsedFlp)
    (patcher : FlpEvent -> nat -> FlpEvent) (index : nat) (event : FlpEvent) :
  parseFlp buf = Ok parsed ->
  nth_error (events parsed) index = Some event ->
  id (patcher event index) = id event ->
  payload (patcher event index) = payload event ->
  header (patcher event index) = header event ->
  let off := event_offset (events parsed) index in
  exists e',
    nth_error (events (patchEvents parsed patcher)) index = Some e'
    /\ serializeEvent e' = header event ++ bytes (payload event)
    /\ serializeEvent e'
       = subarray buf off (off + len (header event) + len (bytes (payload event))).
Proof.
  intros Hp Hn Hid Hpay Hhd off.
  exists (patchEvent patcher event index).
  split; [now apply nth_error_patchEvents|].
  destruct (parsed_event_region buf parsed index event Hp Hn) as (Hreg & Hh & _).
  fold off in Hreg.
  assert (E : serializeEvent (patchEvent patcher event index) = region event).
  { unfold patchEvent, payload_differs. rewrite Hpay, N.eqb_refl. cbn [negb andb].
    rewrite serializeEvent_region by (rewrite Hhd; exact Hh).
    unfold region. now rewrite Hhd, Hpay. }
  split; [exact E|].
  rewrite E. etransitivity; [exact Hreg|].
  unfold region. rewrite len_app. f_equal. lia.
Qed.

(** On [text_event_file] with the transform that keeps every event: the
    event is written as bytes 22 to 26 of the file. *)
Lemma untouched_event_bytes_witness :
  exists parsed event e',
    parseFlp text_event_file = Ok parsed
    /\ nth_error (events parsed) 0 = Some event
    /\ nth_error (events (patchEvents parsed keep_event)) 0 = Some e'
    /\ serializeEvent e' = subarray text_event_file 22 27.
Proof.
  assert (P : exists parsed event,
             parseFlp text_event_file = Ok parsed
             /\ nth_error (events parsed) 0 = Some event
             /\ event_offset (events parsed) 0 = 22
             /\ len (header event) = 2 /\ len (bytes (payload event)) = 3).
  { eexists. eexists. split; [vm_compute; reflexivity|].
    split; [reflexivity|]. repeat split. }
  destruct P as (parsed & event & Hp & Hn & Hoff & Hh & Hb).
  destruct (untouched_event_bytes text_event_file parsed keep_event 0 event Hp Hn
              eq_refl eq_refl eq_refl) as (e' & He & _ & Hs).
  exists parsed, event, e'. repeat split; try assumption.
  rewrite Hs, Hoff, Hh, Hb. reflexivity.
Defined.

(** C2, as stated, fails for a transform that returns the original id and
    the original payload object under another framing: the framing the
    transform returned is serialized.  The TEXT event [C2 03 41 42 43],
    returned with the framing [C2 83 00], is written as
    [C2 83 00 41 42 43]. *)
Lemma same_payload_other_framing :
  exists parsed event e',
    parseFlp text_event_file = Ok parsed
    /\ nth_error (events parsed) 0 = Some event
    /\ id (reframe_wide event 0) = id event
    /\ payload (reframe_wide event 0) = payload event
    /\ nth_error (events (patchEvents parsed reframe_wide)) 0 = Some e'
    /\ header event ++ bytes (payload event) = subarray text_event_file 22 27
    /\ serializeEvent e' = bytes_of [0xC2; 0x83; 0; 0x41; 0x42; 0x43]
    /\ serializeEvent e' <> subarray text_event_file 22 27.
Proof.
  eexists. eexists. eexists.
  split; [vm_compute; reflexivity|].
  split; [reflexivity|].
  split; [reflexivity|].
  split; [reflexivity|].
  split; [vm_compute; reflexivity|].
  split; [vm_compute; reflexivity|].
  split; [vm_compute; reflexivity|].
  vm_compute. discriminate.
Qed.

(** ** Claims about the version detection *)

(** C5.  The version and the Unicode flag come from the first FL-version
    event whose payload reads as a version string, and later ones never
    change them: the code breaks it when that first string is "0.0.0".
    The loop recognises "no version yet" by [flVersion === '0.0.0'], so
    after the event "0.0.0" the next FL-version event, "12.0", is taken:
    the parsed file has version "12.0" and [useUnicode] true, where the
    first matching event gives "0.0.0" and false. *)
Theorem version_sentinel_collision :
  exists parsed e1 e2,
    parseFlp two_versions_file = Ok parsed
    /\ events parsed = [e1; e2]
    /\ version_of e1 = Some ("0.0.0"%string, false)
    /\ version_of e2 = Some ("12.0"%string, true)
    /\ flVersion parsed = "12.0"%string
    /\ useUnicode parsed = true.
Proof.
  eexists. eexists. eexists.
  split; [vm_compute; reflexivity|].
  split; [reflexivity|].
  repeat split.
Qed.

(** What the loop does hold: the version and the flag come from the first
    FL-version event whose payload reads as a version string other than
    "0.0.0", and stay ("0.0.0", false) when there is none. *)
Lemma detectVersion_version_of (e : FlpEvent) (v : string) (u : bool) :
  detectVersion e v u
  = if String.eqb v "0.0.0"
    then match version_of e with Some vu => vu | None => (v, u) end
    else (v, u).
Proof.
  unfold detectVersion, version_of.
  destruct (id e =? EVENT_ID.PROJECT_FL_VERSION); cbn [andb];
    [|now destruct (String.eqb v "0.0.0")].
  destruct (String.eqb v "0.0.0"); [|reflexivity].
  set (candidate := trim _).
  destruct (is_version_string candidate) eqn:E; [|reflexivity].
  unfold is_version_string in E. apply andb_prop in E as [E _].
  rewrite length_map, E. reflexivity.
Qed.

Lemma version_of_sentinel (e : FlpEvent) (u : bool) :
  version_of e = Some ("0.0.0"%string, u) -> u = false.
Proof.
  unfold version_of.
  destruct (id e =? EVENT_ID.PROJECT_FL_VERSION); [|discriminate].
  set (candidate := trim _).
  destruct (is_version_string candidate); [|discriminate].
  intros H. injection H as Hs Hu.
  assert (Hc : candidate = list_ascii_of_string "0.0.0").
  { rewrite <- Hs. now rewrite list_ascii_of_string_of_list_ascii. }
  rewrite Hc in Hu. rewrite <- Hu. reflexivity.
Qed.

Lemma version_fold_first (es : list FlpEvent) :
  fold_left version_step es ("0.0.0"%string, false)
  = match first_version es with
    | Some vu => vu
    | None => ("0.0.0"%string, false)
    end.
Proof.
  assert (Hkeep : forall l v u, String.eqb v "0.0.0" = false ->
                    fold_left version_step l (v, u) = (v, u)).
  { induction l as [|e l IH]; intros v u Hv; cbn [fold_left]; [reflexivity|].
    unfold version_step at 2. cbn [fst snd].
    rewrite detectVersion_version_of, Hv. now apply IH. }
  induction es as [|e es IH]; cbn [fold_left first_version]; [reflexivity|].
  unfold version_step at 2. cbn [fst snd].
  rewrite detectVersion_version_of. cbn [String.eqb Ascii.eqb Bool.eqb].
  change (String.eqb "0.0.0" "0.0.0") with true. cbv iota.
  destruct (version_of e) as [[v u]|] eqn:Ev; [|exact IH].
  destruct (String.eqb v "0.0.0") eqn:E.
  - apply String.eqb_eq in E. subst v.
    apply version_of_sentinel in Ev. subst u. exact IH.
  - now apply Hkeep.
Qed.

Lemma parseEvents_version (n : nat) (buf : list byte) (eventsEnd : Z)
    (st st' : LoopState) :
  parseEvents n buf eventsEnd st = Ok st' ->
  exists new,
    l_events st' = l_events st ++ new
    /\ (l_flVersion st', l_useUnicode st')
       = fold_left version_step new (l_flVersion st, l_useUnicode st).
Proof.
  revert st. induction n as [|n IH]; intros st H; cbn [parseEvents] in H.
  - destruct (l_pos st <? eventsEnd); [discriminate|].
    apply Ok_inj in H. subst st'. exists []. now rewrite app_nil_r.
  - destruct (l_pos st <? eventsEnd).
    + destruct (parseEvent _ _ _ _) as [[e p']|]; [cbn [bind] in H|discriminate].
      destruct (detectVersion e (l_flVersion st) (l_useUnicode st)) as [v u] eqn:Ed.
      apply IH in H as (new & Hev & Hv). cbn [l_events l_flVersion l_useUnicode] in *.
      exists (e :: new). rewrite Hev, <- app_assoc. split; [reflexivity|].
      cbn [fold_left]. unfold version_step at 2. cbn [fst snd]. now rewrite Ed.
    + apply Ok_inj in H. subst st'. exists []. now rewrite app_nil_r.
Qed.

Lemma parseFlp_version (buf : list byte) (parsed : ParsedFlp) :
  parseFlp buf = Ok parsed ->
  (flVersion parsed, useUnicode parsed)
  = match first_version (events parsed) with
    | Some vu => vu
    | None => ("0.0.0"%string, false)
    end.
Proof.
  intros H. apply parseFlp_inv in H as (_ & _ & H).
  unfold parseFlp_events in H.
  destruct (parseEvents _ _ _ _) as [st|] eqn:E; [cbn [bind] in H|discriminate].
  apply parseEvents_version in E as (new & Hev & Hv).
  cbn [l_events l_flVersion l_useUnicode app] in *.
  apply Ok_inj in H. subst parsed. cbn [flVersion useUnicode events].
  rewrite Hv, Hev. apply version_fold_first.
Qed.

(** ** The VLI written for a rebuilt framing is the shortest one *)

Lemma writeVarInt_length (n : Z) :
  0 <= n < 2 ^ 32 -> len (Writer.writeVarInt n) = Writer.varIntSize n.
Proof.
  intros Hn. unfold Writer.writeVarInt, Writer.varIntSize, to_uint32.
  rewrite Z.mod_small by lia.
  change (2 ^ 32) with 4294967296 in Hn.
  cbn [Writer.writeVarint32].
  rewrite !Z.shiftr_shiftr by lia.
  change (7 + 7 + 7 + 7) with 28. change (7 + 7 + 7) with 21. change (7 + 7) with 14.
  rewrite !Z.shiftr_div_pow2 by lia.
  change (2 ^ 7) with 128. change (2 ^ 14) with 16384.
  change (2 ^ 21) with 2097152. change (2 ^ 28) with 268435456.
  destruct (Z.gtb_spec n 127); destruct (Z.ltb_spec n 128); try lia;
    [|reflexivity].
  destruct (Z.gtb_spec (n / 128) 127); destruct (Z.ltb_spec n 16384);
    try (Z.div_mod_to_equations; lia); [|reflexivity].
  destruct (Z.gtb_spec (n / 16384) 127); destruct (Z.ltb_spec n 2097152);
    try (Z.div_mod_to_equations; lia); [|reflexivity].
  destruct (Z.gtb_spec (n / 2097152) 127); destruct (Z.ltb_spec n 268435456);
    try (Z.div_mod_to_equations; lia); reflexivity.
Qed.

(** ** The length field *)

Lemma varIntSize_pos (n : Z) : 1 <= Writer.varIntSize n.
Proof.
  unfold Writer.varIntSize.
  repeat (match goal with |- context [if ?c then _ else _] => destruct c end); lia.
Qed.

Lemma framing_size_pos (e : FlpEvent) : 1 <= framing_size e.
Proof.
  unfold framing_size.
  destruct (Z.ltb_spec 0 (len (header e))); [lia|].
  pose proof (varIntSize_pos (len (bytes (payload e)))).
  destruct (192 <=? id e); lia.
Qed.

(** What [serializeEvent] writes has the framing size of the format in
    front of the payload. *)
Lemma len_serializeEvent (e : FlpEvent) :
  len (bytes (payload e)) < 2 ^ 32 ->
  len (serializeEvent e) = framing_size e + len (bytes (payload e)).
Proof.
  intros Hp. pose proof (len_nonneg (bytes (payload e))) as H0.
  unfold serializeEvent, framing_size. rewrite len_app. f_equal.
  change (Z.of_nat (List.length (header e))) with (len (header e)).
  destruct (Z.gtb_spec (len (header e)) 0) as [Hh|Hh];
    destruct (Z.ltb_spec 0 (len (header e))) as [Hh'|Hh']; try lia.
  rewrite len_app. change (len (Writer.writeU8 (id e))) with 1. f_equal.
  unfold TEXT.
  destruct (Z.geb_spec (id e) 192) as [Hi|Hi];
    destruct (Z.leb_spec 192 (id e)) as [Hi'|Hi']; try lia.
  - apply writeVarInt_length. lia.
  - reflexivity.
Qed.

Lemma stream_size_events (es : list FlpEvent) :
  0 <= fold_right (fun e acc => framing_size e + len (bytes (payload e)) + acc) 0 es
  /\ Forall (fun e => len (bytes (payload e))
                      <= fold_right (fun e acc => framing_size e
                                                  + len (bytes (payload e)) + acc) 0 es)
       es.
Proof.
  induction es as [|e es [IH0 IH]]; cbn [fold_right]; [split; [lia|constructor]|].
  pose proof (framing_size_pos e). pose proof (len_nonneg (bytes (payload e))).
  split; [lia|]. constructor; [lia|].
  eapply Forall_impl; [|exact IH]. cbn. intros x Hx. lia.
Qed.

Lemma emitted_size_stream_size (parsed : ParsedFlp) :
  stream_size parsed < 2 ^ 32 -> emitted_size parsed = stream_size parsed.
Proof.
  unfold emitted_size, stream_size. intros H. f_equal.
  destruct (stream_size_events (events parsed)) as [H0 Hall].
  assert (Ht : 0 <= match trailingBytes parsed with Some t => len t | None => 0 end).
  { destruct (trailingBytes parsed) as [t|]; [apply len_nonneg|lia]. }
  assert (Hb : fold_right (fun e acc => framing_size e + len (bytes (payload e)) + acc)
                 0 (events parsed) < 2 ^ 32) by lia.
  clear H Ht. induction (events parsed) as [|e es IH]; cbn [fold_right] in *;
    [reflexivity|].
  inversion Hall as [|? ? He Hes]; subst.
  destruct (stream_size_events es) as [Hes0 Hes'].
  pose proof (framing_size_pos e). pose proof (len_nonneg (bytes (payload e))).
  rewrite len_serializeEvent by lia.
  rewrite IH; [reflexivity|lia|exact Hes'|lia].
Qed.

(** C8, as the code has it.  For a [ParsedFlp] with a file header of 14
    bytes and an event stream below 2^32 bytes, the little-endian u32 at
    offset 18 of the output of [serializeFlp] is the sum over the events of
    framing size plus payload length, plus the trailing bytes, and the
    output has 22 bytes more.  The framing size of an event is the length
    of its framing when the framing is not empty; for an empty framing it
    is what the serializer writes instead: the id byte, and for an id of
    192 or more also the VLI of the payload length ([varIntSize] bytes).
    For a file whose events all carry a framing the sum is the declared
    one. *)
Theorem serializeFlp_length_field (parsed : ParsedFlp) :
  len (headerChunkBytes parsed) = 14 ->
  stream_size parsed < 2 ^ 32 ->
  let out := serializeFlp parsed in
  Reader.le_value (subarray out 18 22) = stream_size parsed
  /\ len out = 22 + stream_size parsed
  /\ (Forall (fun e => 1 <= len (header e)) (events parsed) ->
      stream_size parsed = declared_size parsed).
Proof.
  intros Hh Hsz out. subst out. rewrite serializeFlp_eventsSize.
  pose proof (emitted_size_stream_size parsed Hsz) as Hem. rewrite Hem.
  assert (H0 : 0 <= stream_size parsed).
  { unfold stream_size. destruct (stream_size_events (events parsed)) as [H0 _].
    destruct (trailingBytes parsed) as [t|]; [pose proof (len_nonneg t)|]; lia. }
  split; [|split].
  - rewrite app_assoc.
    rewrite subarray_app_at;
      [|rewrite len_app, Hh; reflexivity|lia].
    change (22 - 18) with (len (Writer.writeU32LE (stream_size parsed))).
    rewrite subarray_prefix. apply le_value_writeU32LE. lia.
  - rewrite !len_app, Hh, len_writeU32LE.
    change (len (Buffer_from_ascii FLP_DATA_MAGIC)) with 4.
    rewrite <- Hem. unfold emitted_size. rewrite fold_right_len_serialize.
    destruct (trailingBytes parsed); [|change (len []) with 0]; lia.
  - intros Hall. unfold stream_size, declared_size. f_equal.
    induction Hall as [|e es He _ IH]; cbn [fold_right]; [reflexivity|].
    rewrite IH. unfold framing_size.
    destruct (Z.ltb_spec 0 (len (header e))); [reflexivity|lia].
Qed.

(** On [synthesized_text_file]: the BYTE event without framing counts 1 + 1
    bytes, the TEXT event of 200 bytes without framing 1 + 2 + 200, the
    TEXT event with its framing 2 + 3; the field is 210 and the output has
    232 bytes. *)
Lemma serializeFlp_length_field_witness :
  Reader.le_value (subarray (serializeFlp synthesized_text_file) 18 22)
  = (1 + 1) + (1 + 2 + 200) + (2 + 3)
  /\ len (serializeFlp synthesized_text_file) = 232.
Proof.
  destruct (serializeFlp_length_field synthesized_text_file) as (H1 & H2 & _).
  - vm_compute; reflexivity.
  - vm_compute; reflexivity.
  - split; [exact H1|exact H2].
Defined.

(** C8, as stated, fails on an event with an empty framing: the serializer
    writes the id byte for it, so the length field counts 2 bytes where
    framing length plus payload length is 1. *)
Lemma length_field_counts_synthesized_framing :
  Reader.le_value (subarray (serializeFlp synthesized_event_file) 18 22) = 2
  /\ declared_size synthesized_event_file = 1
  /\ Reader.le_value (subarray (serializeFlp synthesized_event_file) 18 22)
     <> declared_size synthesized_event_file
  /\ len (serializeFlp synthesized_event_file)
     <> 22 + declared_size synthesized_event_file.
Proof.
  split; [reflexivity|]. split; [reflexivity|].
  split; vm_compute; discriminate.
Qed.

(** * Further properties of the code *)

(** ** The event table and the ranges agree *)

Lemma lookup_last_In (k : Z) (l : list (Z * EventKind)) (acc : option EventKind)
    (v : EventKind) :
  lookup_last k l acc = Some v -> acc = Some v \/ In (k, v) l.
Proof.
  revert acc. induction l as [|[k' v'] l IH]; intros acc H; cbn [lookup_last] in H.
  - now left.
  - apply IH in H as [H|H]; [|right; now right].
    destruct (Z.eqb_spec k k') as [->|_]; [|now left].
    injection H as ->. right. now left.
Qed.

Lemma EVENT_KIND_entries_widths :
  Forall (fun kv => kind_width (snd kv) = getEventFixedSize (fst kv))
    EVENT_KIND_entries.
Proof.
  unfold EVENT_KIND_entries. repeat (constructor; [reflexivity|]). constructor.
Qed.

(** For every id, the kind [getEventKind] returns has the payload width
    [getEventFixedSize] returns: one, two or four bytes in the BYTE, WORD
    and DWORD ranges, text or data (width -1) from 192 on.  The table has
    no entry that contradicts the range of its id, and no id is of kind
    [unknown]. *)
Theorem getEventKind_matches_fixed_size (eventId : Z) :
  kind_width (getEventKind eventId) = getEventFixedSize eventId
  /\ getEventKind eventId <> unknown.
Proof.
  assert (W : kind_width (getEventKind eventId) = getEventFixedSize eventId).
  { unfold getEventKind. destruct (EVENT_KIND eventId) as [k|] eqn:E.
    - unfold EVENT_KIND in E. apply lookup_last_In in E as [E|E]; [discriminate|].
      pose proof EVENT_KIND_entries_widths as F. rewrite Forall_forall in F.
      exact (F _ E).
    - unfold getEventFixedSize.
      destruct (eventId <? WORD); [reflexivity|].
      destruct (eventId <? DWORD); [reflexivity|].
      destruct (eventId <? TEXT); [reflexivity|].
      destruct (_ || _); reflexivity. }
  split; [exact W|].
  intros U. rewrite U in W. cbn [kind_width] in W.
  unfold getEventFixedSize in W.
  destruct (eventId <? WORD); [discriminate|].
  destruct (eventId <? DWORD); [discriminate|].
  destruct (eventId <? TEXT); discriminate.
Qed.

(** ** What every decoded event satisfies *)

Lemma parseEvents_Forall (P : FlpEvent -> Prop) (buf : list byte) (eventsEnd : Z) :
  (forall p fresh e p', parseEvent buf eventsEnd p fresh = Ok (e, p') -> P e) ->
  forall n st st',
    parseEvents n buf eventsEnd st = Ok st' ->
    Forall P (l_events st) -> Forall P (l_events st').
Proof.
  intros HP. induction n as [|n IH]; intros st st' H Hall; cbn [parseEvents] in H.
  - destruct (l_pos st <? eventsEnd); [discriminate|].
    apply Ok_inj in H. now subst.
  - destruct (l_pos st <? eventsEnd); [|apply Ok_inj in H; now subst].
    destruct (parseEvent _ _ _ _) as [[e p']|] eqn:E; [cbn [bind] in H|discriminate].
    destruct (detectVersion _ _ _) as [v u].
    apply IH in H; [exact H|]. cbn [l_events].
    apply Forall_app. split; [exact Hall|].
    constructor; [|constructor]. eapply HP; eassumption.
Qed.

Lemma parseEvent_decoded_ok (buf : list byte) (eventsEnd p : Z) (fresh : N)
    (e : FlpEvent) (p' : Z) :
  parseEvent buf eventsEnd p fresh = Ok (e, p') -> decoded_event_ok e.
Proof.
  intros H. unfold parseEvent in H.
  destruct (Reader.readU8 buf p) as [[eventId pos1]|] eqn:E1;
    [cbn [bind] in H|discriminate].
  apply readU8_get in E1 as [Hget ->].
  pose proof (get_Some _ _ _ Hget) as [Hp Hid].
  destruct (eventLayout buf p eventsEnd eventId (p + 1)) as [[[ps hs] pos2]|] eqn:E2;
    [cbn [bind] in H|discriminate].
  pose proof (eventLayout_pos _ _ _ _ _ _ _ E2 ltac:(lia)) as (-> & Hhs & Hle & Hps).
  destruct (Reader.readBytes buf (p + hs) ps) as [[bs pos3]|] eqn:E3;
    [cbn [bind] in H|discriminate].
  apply Ok_inj, pair_inj in H as [<- _].
  unfold decoded_event_ok. cbn [id kind header].
  split; [exact Hid|]. split; [reflexivity|]. split; [|split].
  - exists (subarray buf (p + 1) (p + hs)).
    rewrite <- (subarray_app buf p (p + 1) (p + hs)) by lia.
    now rewrite (subarray_one _ _ _ Hget).
  - intros Hfix. rewrite len_subarray by lia.
    unfold eventLayout in E2. unfold WORD, DWORD, TEXT in *.
    destruct (Z.ltb_spec eventId 64); [ok_inv E2; lia|].
    destruct (Z.ltb_spec eventId 128); [ok_inv E2; lia|].
    destruct Hfix as [Hfix|Hfix]; [lia|].
    pose proof (KNOWN_DWORD_IDS_range _ Hfix) as Hr. unfold DWORD, TEXT in Hr.
    destruct (Z.ltb_spec eventId 192); [|lia].
    rewrite Hfix in E2. ok_inv E2. lia.
  - intros Htext. rewrite len_subarray by lia.
    unfold eventLayout in E2. unfold WORD, DWORD, TEXT in *.
    destruct (Z.ltb_spec eventId 64); [lia|].
    destruct (Z.ltb_spec eventId 128); [lia|].
    destruct (Z.ltb_spec eventId 192); [lia|].
    destruct (Reader.readVarInt buf (p + 1)) as [[v q]|] eqn:E;
      [cbn [bind] in E2|discriminate].
    ok_inv E2. apply readVarInt_ok in E. lia.
Qed.

(** Every event of a parsed file has an id in [0, 255], the kind
    [getEventKind] gives for it, and a framing that starts with the id
    byte; the framing is that one byte for a BYTE, WORD or known DWORD id,
    and two bytes or more for a TEXT or DATA id.  The framings and
    payloads together are as long as the event stream. *)
Theorem parsed_events_wellformed (buf : list byte) (parsed : ParsedFlp) :
  parseFlp buf = Ok parsed ->
  Forall decoded_event_ok (events parsed)
  /\ declared_size parsed = len buf - 22.
Proof.
  intros H. apply parseFlp_inv in H as (Hlen & _ & H). split.
  - unfold parseFlp_events in H.
    destruct (parseEvents _ _ _ _) as [st|] eqn:E; [cbn [bind] in H|discriminate].
    apply Ok_inj in H. subst parsed. cbn [events].
    eapply parseEvents_Forall in E; [exact E| |constructor].
    intros p fresh e p'. apply parseEvent_decoded_ok.
  - apply parseFlp_events_cover in H as (_ & _ & Hcat & _ & Ht); [|assumption].
    unfold declared_size. rewrite Ht, Z.add_0_r.
    apply (f_equal len) in Hcat. rewrite len_subarray in Hcat by lia.
    rewrite <- Hcat. clear.
    induction (events parsed) as [|e es IH]; cbn [fold_right map concat];
      [reflexivity|].
    rewrite IH, len_app. unfold region. rewrite len_app. lia.
Qed.

(** On [unknown_dword_file]. *)
Lemma parsed_events_wellformed_witness :
  exists parsed,
    parseFlp unknown_dword_file = Ok parsed
    /\ Forall decoded_event_ok (events parsed)
    /\ declared_size parsed = 12.
Proof.
  eexists. split; [vm_compute; reflexivity|].
  eapply (parsed_events_wellformed unknown_dword_file). vm_compute. reflexivity.
Defined.

(** ** Where decoding can fail *)

Lemma js_lt_nth (rest : list byte) (i : nat) :
  js_lt (option_map byteZ (nth_error rest i)) 128 = true ->
  Z.of_nat i < len rest.
Proof.
  destruct (nth_error rest i) eqn:E; [|discriminate]. intros _.
  assert (i < List.length rest)%nat by (apply nth_error_Some; congruence).
  unfold len. lia.
Qed.

Lemma pb_uint32_consumed (rest : list byte) :
  varint_consumed rest (Reader.pb_uint32 rest).
Proof.
  unfold Reader.pb_uint32. cbv zeta.
  destruct (js_lt (option_map byteZ (nth_error rest 0)) 128) eqn:E0;
    [apply js_lt_nth in E0; cbv beta iota delta [varint_consumed]; lia|].
  destruct (js_lt (option_map byteZ (nth_error rest 1)) 128) eqn:E1;
    [apply js_lt_nth in E1; cbv beta iota delta [varint_consumed]; lia|].
  destruct (js_lt (option_map byteZ (nth_error rest 2)) 128) eqn:E2;
    [apply js_lt_nth in E2; cbv beta iota delta [varint_consumed]; lia|].
  destruct (js_lt (option_map byteZ (nth_error rest 3)) 128) eqn:E3;
    [apply js_lt_nth in E3; cbv beta iota delta [varint_consumed]; lia|].
  destruct (js_lt (option_map byteZ (nth_error rest 4)) 128) eqn:E4;
    [apply js_lt_nth in E4; cbv beta iota delta [varint_consumed]; lia|].
  destruct (Z.ltb_spec (len rest) 10); cbv beta iota delta [varint_consumed];
    [reflexivity|lia].
Qed.

Lemma len_skipn (buf : list byte) (pos : Z) :
  0 <= pos <= len buf -> len (skipn (Z.to_nat pos) buf) = len buf - pos.
Proof. intros H. unfold len in *. rewrite length_skipn. lia. Qed.

Lemma readVarInt_error (buf : list byte) (pos : Z) (e : error) :
  0 <= pos <= len buf ->
  Reader.readVarInt buf pos = Err e -> e = IndexOutOfRange.
Proof.
  intros Hpos. unfold Reader.readVarInt.
  pose proof (pb_uint32_consumed (skipn (Z.to_nat pos) buf)) as C.
  pose proof (pb_uint32_in_range (skipn (Z.to_nat pos) buf)) as R.
  destruct (Reader.pb_uint32 _) as [[v c]|e']; cbn [bind].
  - cbv beta iota delta [varint_consumed] in C.
    cbv beta iota delta [varint_in_range] in R.
    rewrite len_skipn in C by lia.
    unfold Reader.seek.
    destruct (Z.ltb_spec (pos + c) 0); [lia|].
    destruct (Z.ltb_spec (len buf) (pos + c)); [lia|]. discriminate.
  - cbv beta iota delta [varint_consumed] in C. congruence.
Qed.

Lemma unknownDwordLayout_ok (buf : list byte) (p eventsEnd : Z) :
  0 <= p -> eventsEnd <= len buf ->
  is_ok (unknownDwordLayout buf p eventsEnd (p + 1)) = true.
Proof.
  intros Hp Hend. unfold unknownDwordLayout.
  pose proof (readVarIntRaw_bytesRead_nonneg buf (p + 1) eventsEnd) as Hv.
  destruct (readVarIntRaw buf (p + 1) eventsEnd) as [s v]. cbn [size bytesRead] in *.
  destruct (Z.ltb_spec s 0); [reflexivity|]. cbn [orb].
  destruct (Z.gtb_spec s LOOKAHEAD_VARINT_MAX); [reflexivity|]. cbn [orb].
  destruct (Z.gtb_spec (p + 1 + v + s) eventsEnd); [reflexivity|].
  destruct (s =? 3); [reflexivity|].
  destruct (_ >? _); [|reflexivity].
  unfold Reader.seek.
  destruct (Z.ltb_spec (p + 1 + v) 0); [lia|].
  destruct (Z.ltb_spec (len buf) (p + 1 + v)); [lia|]. reflexivity.
Qed.

Lemma parseEvent_error (buf : list byte) (eventsEnd p : Z) (fresh : N) :
  0 <= p < len buf -> eventsEnd <= len buf ->
  match parseEvent buf eventsEnd p fresh with
  | Ok _ => True
  | Err e => e = IndexOutOfRange /\ exists i, get buf p = Some i /\ TEXT <= i
  end.
Proof.
  intros Hp Hend. unfold parseEvent.
  destruct (get_in_range buf p Hp) as [i Hget].
  rewrite (readU8_eq _ _ _ Hget). cbn [bind].
  assert (HL : match eventLayout buf p eventsEnd i (p + 1) with
               | Ok (ps, _, _) => 0 <= ps
               | Err e => e = IndexOutOfRange /\ TEXT <= i
               end).
  { destruct (eventLayout buf p eventsEnd i (p + 1)) as [[[ps hs] pos2]|e] eqn:E.
    - apply eventLayout_pos in E; lia.
    - unfold eventLayout in E.
      destruct (i <? WORD); [discriminate|].
      destruct (i <? DWORD); [discriminate|].
      destruct (Z.ltb_spec i TEXT).
      + destruct (KNOWN_DWORD_IDS_has i); [discriminate|].
        pose proof (unknownDwordLayout_ok buf p eventsEnd ltac:(lia) Hend) as O.
        rewrite E in O. discriminate.
      + destruct (Reader.readVarInt buf (p + 1)) as [[v q]|e'] eqn:Ev;
          cbn [bind] in E; [discriminate|].
        apply Err_inj in E. subst e'.
        apply readVarInt_error in Ev; [|lia]. now split. }
  destruct (eventLayout buf p eventsEnd i (p + 1)) as [[[ps hs] pos2]|e]; cbn [bind].
  - unfold Reader.readBytes. destruct (Z.ltb_spec ps 0); [lia|]. exact I.
  - destruct HL as [-> Ht]. split; [reflexivity|]. now exists i.
Qed.

(** An event whose id is below 192 is always decoded, whatever follows it:
    the look-ahead only chooses a layout, and a payload that runs past the
    end of the buffer is cut there instead of failing. *)
Theorem fixed_range_event_decodes (buf : list byte) (eventsEnd p eventId : Z)
    (fresh : N) :
  get buf p = Some eventId ->
  eventId < TEXT ->
  eventsEnd <= len buf ->
  exists e p',
    parseEvent buf eventsEnd p fresh = Ok (e, p')
    /\ id e = eventId
    /\ p' <= len buf.
Proof.
  intros Hget Hid Hend.
  pose proof (get_Some _ _ _ Hget) as [Hp _].
  pose proof (parseEvent_error buf eventsEnd p fresh Hp Hend) as E.
  destruct (parseEvent buf eventsEnd p fresh) as [[e p']|err] eqn:Ep.
  - exists e, p'. split; [reflexivity|].
    apply parseEvent_region in Ep as (_ & Hp' & _ & _ & Hg & _).
    rewrite Hget in Hg. injection Hg as <-. split; [reflexivity|lia].
  - destruct E as (_ & i & Hi & Ht). rewrite Hget in Hi. injection Hi as <-. lia.
Qed.

(** On the BYTE event [05] that ends a buffer without its payload byte. *)
Lemma fixed_range_event_decodes_witness :
  exists e p',
    parseEvent (bytes_of [5]) 1 0 0%N = Ok (e, p') /\ id e = 5 /\ p' <= 1.
Proof.
  apply (fixed_range_event_decodes (bytes_of [5]) 1 0 5 0%N).
  - reflexivity.
  - unfold TEXT. lia.
  - vm_compute. discriminate.
Defined.

Lemma parseEvent_fails_at_prefix (buf : list byte) (eventsEnd p : Z) (fresh : N)
    (e : error) :
  0 <= p < len buf -> eventsEnd <= len buf ->
  parseEvent buf eventsEnd p fresh = Err e ->
  exists eventId,
    get buf p = Some eventId /\ TEXT <= eventId
    /\ Reader.readVarInt buf (p + 1) = Err e.
Proof.
  intros Hp Hend H. unfold parseEvent in H.
  destruct (get_in_range buf p Hp) as [i Hget].
  rewrite (readU8_eq _ _ _ Hget) in H. cbn [bind] in H.
  destruct (eventLayout buf p eventsEnd i (p + 1)) as [[[ps hs] pos2]|e'] eqn:E;
    cbn [bind] in H.
  - apply eventLayout_pos in E; [|lia].
    unfold Reader.readBytes in H. destruct (Z.ltb_spec ps 0); [lia|discriminate].
  - apply Err_inj in H. subst e'. exists i. split; [exact Hget|].
    unfold eventLayout in E.
    destruct (i <? WORD); [discriminate|].
    destruct (i <? DWORD); [discriminate|].
    destruct (Z.ltb_spec i TEXT).
    + destruct (KNOWN_DWORD_IDS_has i); [discriminate|].
      pose proof (unknownDwordLayout_ok buf p eventsEnd ltac:(lia) Hend) as O.
      rewrite E in O. discriminate.
    + split; [assumption|].
      destruct (Reader.readVarInt buf (p + 1)) as [[v q]|e'];
        cbn [bind] in E; [discriminate|].
      apply Err_inj in E. now subst.
Qed.

Lemma parseEvents_fails_at_prefix (n : nat) (buf : list byte) (e : error) :
  forall st,
    parseEvents n buf (len buf) st = Err e ->
    event_start buf (l_pos st) ->
    0 <= l_pos st ->
    len buf - l_pos st <= Z.of_nat n ->
    exists p eventId,
      event_start buf p /\ p < len buf
      /\ get buf p = Some eventId /\ TEXT <= eventId
      /\ Reader.readVarInt buf (p + 1) = Err e.
Proof.
  induction n as [|n IH]; intros st H Hst Hp Hn; cbn [parseEvents] in H.
  - destruct (Z.ltb_spec (l_pos st) (len buf)); [lia|discriminate].
  - destruct (Z.ltb_spec (l_pos st) (len buf)) as [Hlt|]; [|discriminate].
    destruct (parseEvent buf (len buf) (l_pos st)
                (N.of_nat (List.length (l_events st)))) as [[ev p']|err] eqn:Ep;
      cbn [bind] in H.
    + destruct (detectVersion _ _ _) as [v u].
      pose proof Ep as Hreg. apply parseEvent_region in Hreg as (_ & Hp' & _).
      apply (IH _ H); cbn [l_pos]; [|lia|lia].
      eapply event_start_next; [exact Hst|exact Hlt|exact Ep].
    + apply Err_inj in H. subst err.
      apply parseEvent_fails_at_prefix in Ep as (i & Hi & Ht & Hv); [|lia|lia].
      exists (l_pos st), i. auto.
Qed.

(** Once the container checks have passed, [parseFlp] can fail in one place
    only: in [readVarInt] on the size prefix of a TEXT or DATA event.  When
    it fails, the event loop stands at the start [p] of an event whose id is
    192 or more, [readVarInt] fails on the size prefix at [p + 1], and the
    error of [parseFlp] is the one [readVarInt] raised there; no other step
    of the event loop raises an error. *)
Theorem parse_fails_only_on_size_prefix (buf : list byte) (e : error) :
  container_ok buf = true ->
  parseFlp buf = Err e ->
  exists p eventId,
    event_start buf p /\ p < len buf
    /\ get buf p = Some eventId /\ TEXT <= eventId
    /\ Reader.readVarInt buf (p + 1) = Err e.
Proof.
  intros Hok H.
  assert (Hlen : 22 <= len buf).
  { unfold container_ok in Hok.
    destruct (Z.leb_spec 22 (len buf)); [assumption|].
    rewrite andb_false_r in Hok. discriminate. }
  destruct (parseFlp_unfold buf Hlen) as [Hun _]. rewrite (Hun Hok) in H.
  unfold parseFlp_events in H.
  destruct (parseEvents _ _ _ _) as [st|e'] eqn:E; cbn [bind] in H; [discriminate|].
  apply Err_inj in H. subst e'.
  apply parseEvents_fails_at_prefix in E; cbn [l_pos]; [exact E| |lia|lia].
  apply event_start_first.
Qed.

(** On [truncated_prefix_file]: the loop decodes the BYTE event and fails on
    the size prefix of the TEXT event behind it. *)
Lemma parse_fails_only_on_size_prefix_witness :
  exists e p eventId,
    parseFlp truncated_prefix_file = Err e
    /\ event_start truncated_prefix_file p /\ p < len truncated_prefix_file
    /\ get truncated_prefix_file p = Some eventId /\ TEXT <= eventId
    /\ Reader.readVarInt truncated_prefix_file (p + 1) = Err e.
Proof.
  destruct (parseFlp truncated_prefix_file) as [parsed|e] eqn:E; [discriminate E|].
  destruct (parse_fails_only_on_size_prefix truncated_prefix_file e)
    as (p & eventId & H); [reflexivity|exact E|].
  exists e, p, eventId. split; [reflexivity|exact H].
Defined.

(** ** When the raw VLI decoder gives up *)

Lemma high_bit_test_byte (x : byte) :
  (Z.land (byteZ x) 128 =? 0) = (byteZ x <? 128).
Proof. destruct x; reflexivity. Qed.

Lemma high_bit_test (b : Z) :
  0 <= b < 256 -> (Z.land b 128 =? 0) = (b <? 128).
Proof.
  intros Hb. rewrite <- (byteZ_byte_of_Z b Hb). apply high_bit_test_byte.
Qed.

Lemma readVarIntRaw_loop_stops (buf : list byte) (end_ start : Z) (n : nat) :
  forall off shift sz,
    0 <= off -> end_ <= len buf -> start <= off ->
    end_ - off <= Z.of_nat n ->
    let r := readVarIntRaw_loop n buf off end_ shift sz start in
    (r = mkVarIntRaw (-1) 0 /\ all_continue buf off end_)
    \/ (exists b,
          off - start + 1 <= bytesRead r
          /\ start + bytesRead r <= end_
          /\ get buf (start + bytesRead r - 1) = Some b /\ b < 128
          /\ all_continue buf off (start + bytesRead r - 1)).
Proof.
  induction n as [|n IH]; intros off shift sz Hoff Hend Hs Hn;
    cbn [readVarIntRaw_loop].
  - left. split; [reflexivity|]. intros i Hi. lia.
  - destruct (Z.geb_spec off end_).
    { left. split; [reflexivity|]. intros i Hi. lia. }
    destruct (get_in_range buf off ltac:(lia)) as [b Hb]. rewrite Hb.
    pose proof (get_Some _ _ _ Hb) as [_ Hr].
    cbn [js_and]. rewrite high_bit_test by assumption.
    destruct (Z.ltb_spec b 128).
    + right. exists b. cbn [bytesRead].
      replace (start + (off + 1 - start) - 1) with off by lia.
      repeat split; try lia; try assumption.
      intros i Hi. lia.
    + specialize (IH (off + 1) (shift + 7)
                    (to_int32 (Z.lor sz (shl32 (Z.land b 127) shift)))
                    ltac:(lia) Hend ltac:(lia) ltac:(lia)).
      cbv zeta in IH.
      destruct IH as [[E A]|(b' & H1 & H2 & H3 & H4 & A)].
      * left. split; [exact E|]. intros i Hi.
        destruct (Z.eq_dec i off) as [->|]; [exists b; split; [assumption|lia]|].
        apply A. lia.
      * right. exists b'. repeat split; try lia; try assumption.
        intros i Hi.
        destruct (Z.eq_dec i off) as [->|]; [exists b; split; [assumption|lia]|].
        apply A. lia.
Qed.

(** [readVarIntRaw] between [off] and [end_], inside the buffer: it
    signals failure ([size] -1, [bytesRead] 0) exactly when every byte of
    the range carries the continuation bit (an empty range included);
    otherwise it stops on the first byte without that bit, and [bytesRead]
    counts the bytes up to and including that one. *)
Theorem readVarIntRaw_stops_at_first_terminator (buf : list byte) (off end_ : Z) :
  0 <= off -> end_ <= len buf ->
  let r := readVarIntRaw buf off end_ in
  (r = mkVarIntRaw (-1) 0 <-> all_continue buf off end_)
  /\ (r <> mkVarIntRaw (-1) 0 ->
      exists b,
        1 <= bytesRead r
        /\ off + bytesRead r <= end_
        /\ get buf (off + bytesRead r - 1) = Some b /\ b < 128
        /\ all_continue buf off (off + bytesRead r - 1)).
Proof.
  intros Hoff Hend r. subst r. unfold readVarIntRaw.
  pose proof (readVarIntRaw_loop_stops buf end_ off (Z.to_nat (end_ - off))
                off 0 0 Hoff Hend ltac:(lia) ltac:(lia)) as H.
  cbv zeta in H.
  destruct H as [[E A]|(b & H1 & H2 & H3 & H4 & A)].
  - rewrite E. split; [tauto|]. intros N. contradiction.
  - assert (Hne : readVarIntRaw_loop (Z.to_nat (end_ - off)) buf off end_ 0 0 off
                  <> mkVarIntRaw (-1) 0).
    { intros E. rewrite E in H1. cbn [bytesRead] in H1. lia. }
    split.
    + split; [intros E; contradiction|].
      intros All. exfalso.
      destruct (All (off + bytesRead
                       (readVarIntRaw_loop (Z.to_nat (end_ - off)) buf off end_ 0 0 off)
                     - 1)) as (b' & Hb' & Hge); [lia|].
      rewrite H3 in Hb'. injection Hb' as <-. lia.
    + intros _. exists b. repeat split; try lia; assumption.
Qed.

(** On [unknown_dword_file] behind the id byte at 22: one byte, value 8. *)
Lemma readVarIntRaw_stops_at_first_terminator_witness :
  readVarIntRaw unknown_dword_file 23 34 <> mkVarIntRaw (-1) 0
  /\ ~ all_continue unknown_dword_file 23 34.
Proof.
  destruct (readVarIntRaw_stops_at_first_terminator unknown_dword_file 23 34)
    as [[H1 H2] _].
  - lia.
  - vm_compute. discriminate.
  - assert (N : readVarIntRaw unknown_dword_file 23 34 <> mkVarIntRaw (-1) 0)
      by (vm_compute; discriminate).
    split; [exact N|]. intros A. apply N. now apply H2.
Defined.

(** ** The VLI codec: what is written is read back *)

Lemma land_shiftl_small (a x s : Z) :
  0 <= a < 2 ^ s -> 0 <= s -> Z.land a (Z.shiftl x s) = 0.
Proof.
  intros Ha Hs. apply Z.bits_inj'. intros n Hn.
  rewrite Z.land_spec, Z.bits_0.
  destruct (Z.lt_ge_cases n s).
  - rewrite Z.shiftl_spec_low by lia. apply andb_false_r.
  - rewrite <- (Z.mod_small a (2 ^ s)) by lia.
    rewrite Z.mod_pow2_bits_high by lia. reflexivity.
Qed.

Lemma lor_disjoint_add (a x s : Z) :
  0 <= a < 2 ^ s -> 0 <= s -> Z.lor a (x * 2 ^ s) = a + x * 2 ^ s.
Proof.
  intros Ha Hs. rewrite <- Z.shiftl_mul_pow2 by lia.
  pose proof (land_shiftl_small a x s Ha Hs) as D.
  rewrite Z.add_nocarry_lxor by assumption. symmetry. now apply Z.lxor_lor.
Qed.

Lemma to_int32_mod (z : Z) : to_int32 z mod 2 ^ 32 = z mod 2 ^ 32.
Proof.
  unfold to_int32. change (2 ^ 32) with 4294967296. change (2 ^ 31) with 2147483648.
  Z.div_mod_to_equations. lia.
Qed.

Lemma to_uint32_lor (a b : Z) :
  to_uint32 (Z.lor a b) = Z.lor (a mod 2 ^ 32) (b mod 2 ^ 32).
Proof.
  unfold to_uint32. rewrite <- !Z.land_ones by lia. apply Z.land_lor_distr_l.
Qed.

Lemma acc_step (a x s : Z) :
  0 <= a < 2 ^ s -> 0 <= x -> 0 <= s < 32 -> a + x * 2 ^ s < 2 ^ 32 ->
  to_uint32 (Z.lor (to_int32 a) (shl32 x s)) = a + x * 2 ^ s.
Proof.
  intros Ha Hx Hs Hlt.
  assert (0 < 2 ^ s) by (apply Z.pow_pos_nonneg; lia).
  assert (0 <= x * 2 ^ s) by (apply Z.mul_nonneg_nonneg; lia).
  rewrite to_uint32_lor, to_int32_mod. unfold shl32.
  rewrite to_int32_mod.
  rewrite (Z.mod_small s 32) by lia.
  rewrite Z.shiftl_mul_pow2 by lia.
  rewrite (Z.mod_small (x * 2 ^ s)) by lia.
  rewrite (Z.mod_small a) by lia.
  now apply lor_disjoint_add.
Qed.

Lemma cont_byte (v : Z) :
  byteZ (byte_of_Z (Z.lor (Z.land v 127) 128)) = v mod 128 + 128.
Proof.
  change 127 with (Z.ones 7). rewrite Z.land_ones by lia.
  change 128 with (1 * 2 ^ 7) at 1.
  pose proof (Z.mod_pos_bound v 128 ltac:(lia)).
  rewrite lor_disjoint_add by (change (2 ^ 7) with 128; lia).
  change (1 * 2 ^ 7) with 128. change (2 ^ 7) with 128.
  rewrite byteZ_byte_of_Z_mod. apply Z.mod_small. lia.
Qed.

Lemma land127 (v : Z) : Z.land v 127 = v mod 128.
Proof. change 127 with (Z.ones 7). now rewrite Z.land_ones by lia. Qed.

Lemma land15 (v : Z) : Z.land v 15 = v mod 16.
Proof. change 15 with (Z.ones 4). now rewrite Z.land_ones by lia. Qed.

Lemma js_lt_cont (v : Z) : js_lt (Some (v mod 128 + 128)) 128 = false.
Proof.
  cbn [js_lt]. pose proof (Z.mod_pos_bound v 128 ltac:(lia)).
  destruct (Z.ltb_spec (v mod 128 + 128) 128); [lia|reflexivity].
Qed.

Lemma land127_cont (v : Z) : Z.land (v mod 128 + 128) 127 = v mod 128.
Proof.
  rewrite land127. pose proof (Z.mod_pos_bound v 128 ltac:(lia)).
  Z.div_mod_to_equations. lia.
Qed.

Lemma acc_first (x : Z) :
  0 <= x < 2 ^ 32 -> to_uint32 (Z.lor (to_int32 0) (shl32 x 0)) = x.
Proof.
  intros Hx. rewrite (acc_step 0 x 0); change (2 ^ 0) with 1; lia.
Qed.

Ltac vli_bytes :=
  cbn [app nth_error option_map];
  rewrite ?cont_byte, ?js_lt_cont, ?land127_cont.

(** protobufjs reads back what it wrote: the value, on as many bytes as
    [varIntSize] counts. *)
Lemma pb_uint32_writeVarInt (n : Z) (rest : list byte) :
  0 <= n < 2 ^ 32 ->
  Reader.pb_uint32 (Writer.writeVarInt n ++ rest) = Ok (n, Writer.varIntSize n).
Proof.
  intros Hn. change (2 ^ 32) with 4294967296 in Hn.
  unfold Writer.writeVarInt, to_uint32. rewrite Z.mod_small by lia.
  unfold Writer.varIntSize, Reader.pb_uint32. cbv zeta.
  cbn [Writer.writeVarint32].
  rewrite !Z.shiftr_shiftr by lia.
  change (7 + 7 + 7 + 7) with 28. change (7 + 7 + 7) with 21. change (7 + 7) with 14.
  rewrite !Z.shiftr_div_pow2 by lia.
  change (2 ^ 7) with 128. change (2 ^ 14) with 16384.
  change (2 ^ 21) with 2097152. change (2 ^ 28) with 268435456.
  destruct (Z.gtb_spec n 127); destruct (Z.ltb_spec n 128); try lia.
  2:{ (* one byte *)
      vli_bytes. rewrite byteZ_byte_of_Z by lia. cbn [js_lt js_and].
      destruct (Z.ltb_spec n 128); [|lia].
      rewrite land127, acc_first by (Z.div_mod_to_equations; lia).
      do 2 f_equal. Z.div_mod_to_equations; lia. }
  destruct (Z.gtb_spec (n / 128) 127); destruct (Z.ltb_spec n 16384);
    try (Z.div_mod_to_equations; lia).
  2:{ (* two bytes *)
      vli_bytes. rewrite byteZ_byte_of_Z by (Z.div_mod_to_equations; lia).
      cbn [js_lt js_and]. rewrite ?land127_cont.
      destruct (Z.ltb_spec (n / 128) 128); [|lia].
      rewrite acc_first by (Z.div_mod_to_equations; lia).
      rewrite land127.
      rewrite (acc_step (n mod 128) ((n / 128) mod 128) 7);
        change (2 ^ 7) with 128; change (2 ^ 32) with 4294967296;
        try (Z.div_mod_to_equations; lia).
      do 2 f_equal. Z.div_mod_to_equations; lia. }
  destruct (Z.gtb_spec (n / 16384) 127); destruct (Z.ltb_spec n 2097152);
    try (Z.div_mod_to_equations; lia).
  2:{ (* three bytes *)
      vli_bytes. rewrite byteZ_byte_of_Z by (Z.div_mod_to_equations; lia).
      cbn [js_lt js_and]. rewrite ?land127_cont.
      destruct (Z.ltb_spec (n / 16384) 128); [|lia].
      rewrite acc_first by (Z.div_mod_to_equations; lia).
      rewrite land127.
      rewrite (acc_step (n mod 128) ((n / 128) mod 128) 7);
        change (2 ^ 7) with 128; change (2 ^ 32) with 4294967296;
        try (Z.div_mod_to_equations; lia).
      rewrite (acc_step (n mod 128 + (n / 128) mod 128 * 128) ((n / 16384) mod 128) 14);
        change (2 ^ 14) with 16384; change (2 ^ 32) with 4294967296;
        try (Z.div_mod_to_equations; lia).
      do 2 f_equal. Z.div_mod_to_equations; lia. }
  destruct (Z.gtb_spec (n / 2097152) 127); destruct (Z.ltb_spec n 268435456);
    try (Z.div_mod_to_equations; lia).
  - (* five bytes *)
    vli_bytes. rewrite byteZ_byte_of_Z by (Z.div_mod_to_equations; lia).
    cbn [js_lt js_and]. rewrite ?land127_cont.
    destruct (Z.ltb_spec (n / 268435456) 128); [|Z.div_mod_to_equations; lia].
    rewrite acc_first by (Z.div_mod_to_equations; lia).
    rewrite land15.
    rewrite (acc_step (n mod 128) ((n / 128) mod 128) 7);
      change (2 ^ 7) with 128; change (2 ^ 32) with 4294967296;
      try (Z.div_mod_to_equations; lia).
    rewrite (acc_step (n mod 128 + (n / 128) mod 128 * 128) ((n / 16384) mod 128) 14);
      change (2 ^ 14) with 16384; change (2 ^ 32) with 4294967296;
      try (Z.div_mod_to_equations; lia).
    rewrite (acc_step (n mod 128 + (n / 128) mod 128 * 128 + (n / 16384) mod 128 * 16384)
               ((n / 2097152) mod 128) 21);
      change (2 ^ 21) with 2097152; change (2 ^ 32) with 4294967296;
      try (Z.div_mod_to_equations; lia).
    rewrite (acc_step (n mod 128 + (n / 128) mod 128 * 128 + (n / 16384) mod 128 * 16384
                       + (n / 2097152) mod 128 * 2097152)
               ((n / 268435456) mod 16) 28);
      change (2 ^ 28) with 268435456; change (2 ^ 32) with 4294967296;
      try (Z.div_mod_to_equations; lia).
    do 2 f_equal. Z.div_mod_to_equations; lia.
  - (* four bytes *)
    vli_bytes. rewrite byteZ_byte_of_Z by (Z.div_mod_to_equations; lia).
    cbn [js_lt js_and]. rewrite ?land127_cont.
    destruct (Z.ltb_spec (n / 2097152) 128); [|lia].
    rewrite acc_first by (Z.div_mod_to_equations; lia).
    rewrite land127.
    rewrite (acc_step (n mod 128) ((n / 128) mod 128) 7);
      change (2 ^ 7) with 128; change (2 ^ 32) with 4294967296;
      try (Z.div_mod_to_equations; lia).
    rewrite (acc_step (n mod 128 + (n / 128) mod 128 * 128) ((n / 16384) mod 128) 14);
      change (2 ^ 14) with 16384; change (2 ^ 32) with 4294967296;
      try (Z.div_mod_to_equations; lia).
    rewrite (acc_step (n mod 128 + (n / 128) mod 128 * 128 + (n / 16384) mod 128 * 16384)
               ((n / 2097152) mod 128) 21);
      change (2 ^ 21) with 2097152; change (2 ^ 32) with 4294967296;
      try (Z.div_mod_to_equations; lia).
    do 2 f_equal. Z.div_mod_to_equations; lia.
Qed.

Lemma to_int32_small (z : Z) : - 2 ^ 31 <= z < 2 ^ 31 -> to_int32 z = z.
Proof.
  intros H. unfold to_int32.
  change (2 ^ 31) with 2147483648 in *. change (2 ^ 32) with 4294967296.
  Z.div_mod_to_equations. lia.
Qed.

Lemma raw_step (sz x s : Z) :
  0 <= sz < 2 ^ s -> 0 <= x -> 0 <= s < 32 -> sz + x * 2 ^ s < 2 ^ 31 ->
  to_int32 (Z.lor sz (shl32 x s)) = sz + x * 2 ^ s.
Proof.
  intros Hsz Hx Hs Hlt.
  assert (0 < 2 ^ s) by (apply Z.pow_pos_nonneg; lia).
  assert (0 <= x * 2 ^ s) by (apply Z.mul_nonneg_nonneg; lia).
  unfold shl32. rewrite (Z.mod_small s 32) by lia.
  rewrite Z.shiftl_mul_pow2 by lia.
  rewrite (to_int32_small (x * 2 ^ s)) by lia.
  rewrite lor_disjoint_add by lia.
  apply to_int32_small. lia.
Qed.

Lemma bytes_at_cons (buf : list byte) (off : Z) (b : byte) (enc : list byte) :
  bytes_at buf off (b :: enc) ->
  get buf off = Some (byteZ b) /\ bytes_at buf (off + 1) enc.
Proof.
  intros H. split.
  - specialize (H 0%nat b eq_refl). now rewrite Z.add_0_r in H.
  - intros i x Hi. specialize (H (S i) x Hi).
    replace (off + 1 + Z.of_nat i) with (off + Z.of_nat (S i)) by lia. exact H.
Qed.

Lemma bytes_at_middle (pre enc post : list byte) :
  bytes_at (pre ++ enc ++ post) (len pre) enc.
Proof.
  intros i b Hi. unfold get, len.
  destruct (Z.ltb_spec (Z.of_nat (List.length pre) + Z.of_nat i) 0); [lia|].
  replace (Z.to_nat (Z.of_nat (List.length pre) + Z.of_nat i))
    with (List.length pre + i)%nat by lia.
  rewrite nth_error_app2 by lia.
  replace (List.length pre + i - List.length pre)%nat with i by lia.
  rewrite nth_error_app1 by (apply nth_error_Some; congruence).
  now rewrite Hi.
Qed.

Lemma readVarIntRaw_loop_writeVarint32 (buf : list byte) (end_ start : Z) (r : nat) :
  forall v off shift sz fuel,
    0 <= v < 2 ^ (7 * (Z.of_nat r + 1)) ->
    0 <= shift -> shift + 7 * Z.of_nat r <= 28 ->
    0 <= sz < 2 ^ shift ->
    sz + v * 2 ^ shift < 2 ^ 31 ->
    bytes_at buf off (Writer.writeVarint32 r v) ->
    off + len (Writer.writeVarint32 r v) <= end_ ->
    end_ - off <= Z.of_nat fuel ->
    readVarIntRaw_loop fuel buf off end_ shift sz start
    = mkVarIntRaw (sz + v * 2 ^ shift)
        (off + len (Writer.writeVarint32 r v) - start).
Proof.
  assert (Last : forall v off shift sz fuel,
    0 <= v < 128 -> 0 <= shift <= 28 -> 0 <= sz < 2 ^ shift ->
    sz + v * 2 ^ shift < 2 ^ 31 ->
    bytes_at buf off [byte_of_Z v] -> off + 1 <= end_ ->
    end_ - off <= Z.of_nat fuel ->
    readVarIntRaw_loop fuel buf off end_ shift sz start
    = mkVarIntRaw (sz + v * 2 ^ shift) (off + 1 - start)).
  { intros v off shift sz fuel Hv Hs Hsz Hlt Hb Hend Hf.
    destruct fuel as [|fuel]; [lia|]. cbn [readVarIntRaw_loop].
    destruct (Z.geb_spec off end_); [lia|].
    apply bytes_at_cons in Hb as [Hb _]. rewrite Hb.
    rewrite byteZ_byte_of_Z by lia. cbn [js_and].
    rewrite high_bit_test by lia.
    destruct (Z.ltb_spec v 128); [|lia].
    rewrite land127, Z.mod_small by lia.
    now rewrite raw_step by lia. }
  induction r as [|r IH]; intros v off shift sz fuel Hv Hs Hsr Hsz Hlt Hb Hend Hf.
  - cbn [Writer.writeVarint32] in *. change (len [byte_of_Z v]) with 1 in *.
    change (2 ^ (7 * (Z.of_nat 0 + 1))) with 128 in Hv.
    apply Last; try assumption; lia.
  - cbn [Writer.writeVarint32] in *.
    destruct (Z.gtb_spec v 127) as [Hbig|Hsmall].
    2:{ change (len [byte_of_Z v]) with 1 in *. apply Last; try assumption; lia. }
    assert (Hlen : len (byte_of_Z (Z.lor (Z.land v 127) 128)
                        :: Writer.writeVarint32 r (Z.shiftr v 7))
                   = 1 + len (Writer.writeVarint32 r (Z.shiftr v 7))).
    { unfold len. cbn [List.length]. lia. }
    rewrite Hlen in *.
    pose proof (len_nonneg (Writer.writeVarint32 r (Z.shiftr v 7))) as Hnn.
    destruct fuel as [|fuel]; [lia|]. cbn [readVarIntRaw_loop].
    destruct (Z.geb_spec off end_); [lia|].
    apply bytes_at_cons in Hb as [Hb0 Hb]. rewrite Hb0, cont_byte.
    cbn [js_and]. pose proof (Z.mod_pos_bound v 128 ltac:(lia)) as Hm.
    rewrite high_bit_test by lia.
    destruct (Z.ltb_spec (v mod 128 + 128) 128); [lia|].
    rewrite land127_cont.
    assert (Hp : 0 < 2 ^ shift) by (apply Z.pow_pos_nonneg; lia).
    assert (Hsplit : v = 128 * (v / 128) + v mod 128) by (apply Z.div_mod; lia).
    assert (Hq : 0 <= v / 128) by (apply Z.div_pos; lia).
    assert (Hpow : 2 ^ (shift + 7) = 2 ^ shift * 128)
      by (rewrite Z.pow_add_r by lia; reflexivity).
    assert (Hvs : sz + v * 2 ^ shift
                  = sz + v mod 128 * 2 ^ shift + v / 128 * 2 ^ (shift + 7)).
    { rewrite Hpow. rewrite Hsplit at 1. ring. }
    assert (0 <= v / 128 * 2 ^ (shift + 7)) by (apply Z.mul_nonneg_nonneg; lia).
    rewrite raw_step by lia.
    rewrite Z.shiftr_div_pow2 in * by lia. change (2 ^ 7) with 128 in *.
    rewrite (IH (v / 128) (off + 1) (shift + 7)); try lia; try assumption.
    + f_equal; lia.
    + split; [assumption|].
      apply Z.div_lt_upper_bound; [lia|].
      replace (128 * 2 ^ (7 * (Z.of_nat r + 1)))
        with (2 ^ (7 * (Z.of_nat (S r) + 1))); [lia|].
      replace (7 * (Z.of_nat (S r) + 1)) with (7 + 7 * (Z.of_nat r + 1)) by lia.
      rewrite Z.pow_add_r by lia. reflexivity.
    + split.
      * assert (0 <= v mod 128 * 2 ^ shift) by (apply Z.mul_nonneg_nonneg; lia). lia.
      * rewrite Hpow. nia.
Qed.

(** The raw decoder of the parser reads back a length written by
    [writeVarInt]: for a value below 2^31 placed anywhere in a buffer, with
    its bytes in front of [end_], [readVarIntRaw] returns the value and
    [bytesRead] is [varIntSize] of it, the width the writer used. *)
Theorem readVarIntRaw_decodes_writeVarInt (pre post : list byte) (n end_ : Z) :
  0 <= n < 2 ^ 31 ->
  len pre + Writer.varIntSize n <= end_ ->
  readVarIntRaw (pre ++ Writer.writeVarInt n ++ post) (len pre) end_
  = mkVarIntRaw n (Writer.varIntSize n).
Proof.
  intros Hn Hend. unfold readVarIntRaw.
  assert (Hn32 : 0 <= n < 2 ^ 32) by (change (2 ^ 32) with (2 * 2 ^ 31); lia).
  pose proof (writeVarInt_length n Hn32) as Hlen.
  unfold Writer.writeVarInt, to_uint32 in *. rewrite Z.mod_small in * by lia.
  rewrite (readVarIntRaw_loop_writeVarint32 _ end_ (len pre) 4 n (len pre) 0 0).
  - rewrite Hlen. f_equal; lia.
  - change (2 ^ (7 * (Z.of_nat 4 + 1))) with (16 * 2 ^ 31). lia.
  - lia.
  - cbn; lia.
  - change (2 ^ 0) with 1. lia.
  - change (2 ^ 0) with 1. lia.
  - apply bytes_at_middle.
  - rewrite Hlen. exact Hend.
  - lia.
Qed.

Lemma skipn_len_app (pre l : list byte) : skipn (Z.to_nat (len pre)) (pre ++ l) = l.
Proof.
  unfold len. rewrite Nat2Z.id, skipn_app, skipn_all, Nat.sub_diag. reflexivity.
Qed.

Lemma readVarInt_writeVarInt_at (pre post : list byte) (n : Z) :
  0 <= n < 2 ^ 32 ->
  Reader.readVarInt (pre ++ Writer.writeVarInt n ++ post) (len pre)
  = Ok (n, len pre + Writer.varIntSize n).
Proof.
  intros Hn. unfold Reader.readVarInt.
  rewrite skipn_len_app, pb_uint32_writeVarInt by assumption. cbn [bind].
  unfold Reader.seek.
  pose proof (writeVarInt_length n Hn) as Hlen.
  pose proof (len_nonneg pre). pose proof (len_nonneg post).
  assert (0 <= Writer.varIntSize n) by (rewrite <- Hlen; apply len_nonneg).
  destruct (Z.ltb_spec (len pre + Writer.varIntSize n) 0); [lia|].
  rewrite !len_app, Hlen.
  destruct (Z.ltb_spec (len pre + (Writer.varIntSize n + len post))
              (len pre + Writer.varIntSize n)); [lia|].
  reflexivity.
Qed.

(** [readVarInt] reads back what [writeVarInt] wrote, for every 32-bit
    value and wherever it stands in the buffer, and leaves the cursor just
    behind the bytes written, whose number is [varIntSize]. *)
Theorem readVarInt_decodes_writeVarInt (pre post : list byte) (n : Z) :
  0 <= n < 2 ^ 32 ->
  Reader.readVarInt (pre ++ Writer.writeVarInt n ++ post) (len pre)
  = Ok (n, len (pre ++ Writer.writeVarInt n))
  /\ len (Writer.writeVarInt n) = Writer.varIntSize n.
Proof.
  intros Hn. rewrite readVarInt_writeVarInt_at by assumption.
  rewrite len_app, (writeVarInt_length n Hn). split; reflexivity.
Qed.

(** On the length 200, written [C8 01], between two other bytes. *)
Lemma readVarIntRaw_decodes_writeVarInt_witness :
  readVarIntRaw (bytes_of [0xC2] ++ Writer.writeVarInt 200 ++ bytes_of [7]) 1 4
  = mkVarIntRaw 200 2.
Proof.
  apply (readVarIntRaw_decodes_writeVarInt (bytes_of [0xC2]) (bytes_of [7]) 200 4).
  - lia.
  - vm_compute. discriminate.
Defined.

(** On the length 200, written [C8 01], behind an id byte. *)
Lemma readVarInt_decodes_writeVarInt_witness :
  Reader.readVarInt (bytes_of [0xC2] ++ Writer.writeVarInt 200 ++ bytes_of [7]) 1
  = Ok (200, 3)
  /\ len (Writer.writeVarInt 200) = 2.
Proof.
  apply (readVarInt_decodes_writeVarInt (bytes_of [0xC2]) (bytes_of [7]) 200). lia.
Defined.

(** ** A created event is decoded as it was made *)

Lemma subarray_middle (pre x post : list byte) :
  subarray (pre ++ x ++ post) (len pre) (len pre + len x) = x.
Proof.
  rewrite subarray_app_at by (pose proof (len_nonneg x); lia).
  replace (len pre + len x - len pre) with (len x) by lia.
  apply subarray_prefix.
Qed.

Lemma get_middle (pre post : list byte) (b : byte) :
  get (pre ++ b :: post) (len pre) = Some (byteZ b).
Proof.
  pose proof (bytes_at_middle pre [b] post 0%nat b eq_refl) as H.
  now rewrite Z.add_0_r in H.
Qed.

Lemma writeU8_id (eventId : Z) :
  0 <= eventId < 256 -> Writer.writeU8 eventId = [byte_of_Z eventId].
Proof.
  intros H. unfold Writer.writeU8.
  change 255 with (Z.ones 8). rewrite Z.land_ones by lia.
  change (2 ^ 8) with 256. now rewrite Z.mod_small by lia.
Qed.

Lemma parseEvent_createEvent (pre post payload : list byte)
    (eventId eventsEnd : Z) (made fresh : N) :
  well_sized eventId payload ->
  let e := createEvent eventId payload made in
  parseEvent (pre ++ serializeEvent e ++ post) eventsEnd (len pre) fresh
  = Ok (mkEvent eventId (getEventKind eventId) (header e) (mkBuffer fresh payload),
        len pre + len (serializeEvent e)).
Proof.
  intros (Hid & Hsz) e.
  assert (Hhd : header e
                = byte_of_Z eventId
                  :: (if eventId >=? TEXT then Writer.writeVarInt (len payload) else [])).
  { subst e. unfold createEvent. cbn [header]. now rewrite writeU8_id. }
  assert (Hser : serializeEvent e = header e ++ payload).
  { unfold serializeEvent. rewrite Hhd. cbn [List.length].
    destruct (Z.gtb_spec (Z.of_nat (S (List.length
               (if eventId >=? TEXT then Writer.writeVarInt (len payload) else [])))) 0);
      [|lia].
    subst e. reflexivity. }
  set (buf := pre ++ serializeEvent e ++ post).
  pose proof (len_nonneg pre) as Hpre. pose proof (len_nonneg payload) as Hpay.
  pose proof (len_nonneg post) as Hpost.
  assert (Hget : get buf (len pre) = Some eventId).
  { subst buf. rewrite Hser, Hhd. cbn [app].
    rewrite get_middle. now rewrite byteZ_byte_of_Z. }
  assert (Hbuf : len buf = len pre + len (header e) + len payload + len post).
  { subst buf. rewrite Hser, !len_app. lia. }
  assert (HL : eventLayout buf (len pre) eventsEnd eventId (len pre + 1)
               = Ok (len payload, len (header e), len pre + len (header e))).
  { unfold eventLayout. unfold WORD, DWORD, TEXT in *.
    destruct Hsz as [[Hfix Hlen]|[Htext Hlen]].
    - assert (Hh1 : header e = [byte_of_Z eventId]).
      { rewrite Hhd. destruct (Z.geb_spec eventId 192); [|reflexivity].
        destruct Hfix as [Hfix|Hfix]; [lia|].
        apply KNOWN_DWORD_IDS_range in Hfix. unfold TEXT in Hfix. lia. }
      rewrite Hh1. change (len [byte_of_Z eventId]) with 1.
      unfold getEventFixedSize, WORD, DWORD, TEXT in Hlen.
      destruct (Z.ltb_spec eventId 64); [now rewrite Hlen|].
      destruct (Z.ltb_spec eventId 128); [now rewrite Hlen|].
      destruct Hfix as [Hfix|Hfix]; [lia|].
      pose proof (KNOWN_DWORD_IDS_range _ Hfix) as Hr. unfold DWORD, TEXT in Hr.
      destruct (Z.ltb_spec eventId 192); [|lia].
      now rewrite Hfix, Hlen.
    - destruct (Z.ltb_spec eventId 64); [lia|].
      destruct (Z.ltb_spec eventId 128); [lia|].
      destruct (Z.ltb_spec eventId 192); [lia|].
      assert (Hh2 : header e = byte_of_Z eventId :: Writer.writeVarInt (len payload)).
      { rewrite Hhd. destruct (Z.geb_spec eventId 192); [reflexivity|lia]. }
      assert (Hb : buf = (pre ++ [byte_of_Z eventId])
                         ++ Writer.writeVarInt (len payload) ++ (payload ++ post)).
      { subst buf. rewrite Hser, Hh2. cbn [app]. now rewrite <- !app_assoc. }
      assert (Hl1 : len pre + 1 = len (pre ++ [byte_of_Z eventId]))
        by (rewrite len_app; reflexivity).
      rewrite Hb, Hl1, readVarInt_writeVarInt_at by lia. cbn [bind].
      rewrite Hh2. rewrite <- Hl1.
      pose proof (writeVarInt_length (len payload) ltac:(lia)) as Hw.
      replace (len (byte_of_Z eventId :: Writer.writeVarInt (len payload)))
        with (1 + len (Writer.writeVarInt (len payload)))
        by (unfold len; cbn [List.length]; lia).
      rewrite Hw. apply f_equal.
      apply f_equal2; [apply f_equal2; [reflexivity|lia]|lia]. }
  rewrite (parseEvent_of_layout _ _ _ _ _ _ _ _ Hget HL).
  assert (Hh0 : 0 <= len (header e)) by apply len_nonneg.
  rewrite Z.min_r by lia.
  assert (E1 : subarray buf (len pre) (len pre + len (header e)) = header e).
  { subst buf. rewrite Hser, <- app_assoc. apply subarray_middle. }
  assert (E2 : subarray buf (len pre + len (header e))
                 (len pre + len (header e) + len payload) = payload).
  { subst buf. rewrite Hser, <- app_assoc, app_assoc.
    rewrite <- len_app. apply subarray_middle. }
  rewrite E1, E2, Hser, len_app. apply f_equal.
  apply f_equal2; [reflexivity|lia].
Qed.

(** The bytes [serializeEvent] writes for an event made by [createEvent],
    wherever they stand in a buffer, are decoded by the event loop into the
    same id, framing and payload, with the kind of the id, when the payload
    has the size the range of the id asks for; the reader ends right behind
    them, and the decoded event is serialized into the same bytes again. *)
Theorem created_event_decodes (pre post payload : list byte)
    (eventId eventsEnd : Z) (made fresh : N) :
  well_sized eventId payload ->
  let e := createEvent eventId payload made in
  let decoded :=
    mkEvent eventId (getEventKind eventId) (header e) (mkBuffer fresh payload) in
  parseEvent (pre ++ serializeEvent e ++ post) eventsEnd (len pre) fresh
  = Ok (decoded, len pre + len (serializeEvent e))
  /\ serializeEvent decoded = serializeEvent e.
Proof.
  intros Hw e decoded. split.
  - now apply parseEvent_createEvent.
  - reflexivity.
Qed.

(** On the TEXT event 194 with payload "ABC", between two other bytes. *)
Lemma created_event_decodes_witness :
  parseEvent
    (bytes_of [5] ++ serializeEvent (createEvent 194 (bytes_of [0x41; 0x42; 0x43]) 0%N)
     ++ bytes_of [9]) 7 1 1%N
  = Ok (mkEvent 194 text (bytes_of [0xC2; 3])
          (mkBuffer 1%N (bytes_of [0x41; 0x42; 0x43])), 6)
  /\ serializeEvent (mkEvent 194 text (bytes_of [0xC2; 3])
                       (mkBuffer 1%N (bytes_of [0x41; 0x42; 0x43])))
     = serializeEvent (createEvent 194 (bytes_of [0x41; 0x42; 0x43]) 0%N).
Proof.
  apply (created_event_decodes (bytes_of [5]) (bytes_of [9])
           (bytes_of [0x41; 0x42; 0x43]) 194 7 0%N 1%N).
  split; [lia|]. right. split; [unfold TEXT; lia|vm_compute; reflexivity].
Defined.

(** ** Buffers that agree behind the container header *)

Section SameFrom.
Variables (k : Z) (a b : list byte).
Hypothesis Hk : 0 <= k.
Hypothesis Hab : same_from k a b.

Lemma same_skipn (s : Z) : k <= s -> skipn (Z.to_nat s) a = skipn (Z.to_nat s) b.
Proof.
  intros Hs. destruct Hab as [_ E].
  replace (Z.to_nat s) with (Z.to_nat (s - k) + Z.to_nat k)%nat by lia.
  now rewrite <- !skipn_skipn, E.
Qed.

Lemma same_subarray (s e : Z) : k <= s -> subarray a s e = subarray b s e.
Proof. intros Hs. unfold subarray. now rewrite same_skipn. Qed.

Lemma same_get (i : Z) : k <= i -> get a i = get b i.
Proof.
  intros Hi. unfold get. destruct (i <? 0); [reflexivity|].
  rewrite <- (Nat.add_0_r (Z.to_nat i)), <- !nth_error_skipn.
  now rewrite same_skipn.
Qed.

Lemma same_len : len a = len b.
Proof. exact (proj1 Hab). Qed.

Lemma same_readVarIntRaw_loop (n : nat) (end_ start : Z) :
  forall off shift sz, k <= off ->
    readVarIntRaw_loop n a off end_ shift sz start
    = readVarIntRaw_loop n b off end_ shift sz start.
Proof.
  induction n as [|n IH]; intros off shift sz Hoff; cbn [readVarIntRaw_loop];
    [reflexivity|].
  rewrite (same_get off Hoff).
  destruct (off >=? end_); [reflexivity|].
  destruct (js_and (get b off) 128 =? 0); [reflexivity|].
  apply IH. lia.
Qed.

Lemma same_readVarIntRaw (off end_ : Z) :
  k <= off -> readVarIntRaw a off end_ = readVarIntRaw b off end_.
Proof. intros H. unfold readVarIntRaw. now apply same_readVarIntRaw_loop. Qed.

Lemma same_scoreAlignment_loop (n : nat) (end_ limit : Z) :
  forall off t c m, k <= off ->
    scoreAlignment_loop n a off end_ limit t c m
    = scoreAlignment_loop n b off end_ limit t c m.
Proof.
  induction n as [|n IH]; intros off t c m Hoff; cbn [scoreAlignment_loop];
    [reflexivity|].
  rewrite (same_get off Hoff), (same_readVarIntRaw (off + 1)) by lia.
  destruct (off <? limit); [|reflexivity].
  destruct (js_lt (get b off) WORD).
  { destruct (_ && _); apply IH; lia. }
  destruct (js_lt (get b off) DWORD); [apply IH; lia|].
  destruct (js_lt (get b off) TEXT); [apply IH; lia|].
  pose proof (readVarIntRaw_bytesRead_nonneg b (off + 1) end_) as Hv.
  destruct (readVarIntRaw b (off + 1) end_) as [s v]. cbn [size bytesRead] in *.
  destruct (Z.geb_spec s 0); [|reflexivity]. cbn [andb].
  destruct (_ && _); [|reflexivity].
  apply IH. lia.
Qed.

Lemma same_scoreAlignment (off end_ w : Z) :
  k <= off -> scoreAlignment a off end_ w = scoreAlignment b off end_ w.
Proof. intros H. unfold scoreAlignment. now apply same_scoreAlignment_loop. Qed.

Lemma same_eventLayout (p eventsEnd eventId : Z) :
  k <= p ->
  eventLayout a p eventsEnd eventId (p + 1) = eventLayout b p eventsEnd eventId (p + 1).
Proof.
  intros Hp. unfold eventLayout, unknownDwordLayout, Reader.readVarInt, Reader.seek.
  rewrite (same_readVarIntRaw (p + 1)) by lia.
  rewrite (same_skipn (p + 1)) by lia. rewrite same_len.
  pose proof (readVarIntRaw_bytesRead_nonneg b (p + 1) eventsEnd) as Hv.
  destruct (readVarIntRaw b (p + 1) eventsEnd) as [s v]. cbn [size bytesRead] in *.
  destruct (eventId <? WORD); [reflexivity|].
  destruct (eventId <? DWORD); [reflexivity|].
  destruct (eventId <? TEXT); [|reflexivity].
  destruct (KNOWN_DWORD_IDS_has eventId); [reflexivity|].
  destruct (Z.ltb_spec s 0); [reflexivity|]. cbn [orb].
  destruct (_ || _); [reflexivity|].
  destruct (s =? 3); [reflexivity|].
  rewrite (same_scoreAlignment (p + 1 + v + s)) by lia.
  rewrite (same_scoreAlignment (p + 1 + 4)) by lia.
  reflexivity.
Qed.

Lemma same_parseEvent (eventsEnd p : Z) (fresh : N) :
  k <= p -> parseEvent a eventsEnd p fresh = parseEvent b eventsEnd p fresh.
Proof.
  intros Hp. unfold parseEvent, Reader.readU8, Reader.readUIntLE.
  rewrite same_len, (same_subarray p) by lia.
  destruct (_ || _) eqn:Eb; [reflexivity|]. cbn [bind].
  rewrite same_eventLayout by assumption.
  destruct (eventLayout b p eventsEnd _ (p + 1)) as [[[ps hs] pos2]|] eqn:E;
    [cbn [bind]|reflexivity].
  apply orb_false_iff in Eb as [Eb0 Eb1].
  apply Z.ltb_ge in Eb0, Eb1.
  apply eventLayout_pos in E as (-> & Hhs & _ & _); [|lia].
  unfold Reader.readBytes. rewrite same_len.
  rewrite (same_subarray (p + hs)) by lia.
  rewrite (same_subarray p) by lia. reflexivity.
Qed.

Lemma same_parseEvents (n : nat) (eventsEnd : Z) :
  forall st, k <= l_pos st ->
    parseEvents n a eventsEnd st = parseEvents n b eventsEnd st.
Proof.
  induction n as [|n IH]; intros st Hst; cbn [parseEvents]; [reflexivity|].
  destruct (l_pos st <? eventsEnd); [|reflexivity].
  rewrite same_parseEvent by assumption.
  destruct (parseEvent b eventsEnd (l_pos st) _) as [[e p']|] eqn:E;
    [cbn [bind]|reflexivity].
  destruct (detectVersion _ _ _) as [v u].
  apply IH. cbn [l_pos].
  apply parseEvent_region in E. lia.
Qed.

End SameFrom.

Lemma subarray_app_l (x y : list byte) (s e : Z) :
  0 <= s -> e <= len x -> subarray (x ++ y) s e = subarray x s e.
Proof.
  intros Hs0 He. unfold subarray, len in *.
  destruct (Nat.le_gt_cases (Z.to_nat s) (List.length x)) as [Hs|Hs].
  - rewrite skipn_app.
    replace (Z.to_nat s - List.length x)%nat with 0%nat by lia.
    cbn [skipn]. rewrite firstn_app.
    replace (Z.to_nat (e - s) - List.length (skipn (Z.to_nat s) x))%nat with 0%nat
      by (rewrite length_skipn; lia).
    cbn [firstn]. apply app_nil_r.
  - replace (Z.to_nat (e - s)) with 0%nat by lia. reflexivity.
Qed.

Lemma skipn_subarray (buf : list byte) (s : Z) :
  skipn (Z.to_nat s) buf = subarray buf s (len buf).
Proof.
  unfold subarray. symmetry. apply firstn_all2.
  rewrite length_skipn. unfold len. lia.
Qed.

Lemma parseFlp_events_same (a b : list byte) :
  same_from 22 a b -> 22 <= len a ->
  forall pa, parseFlp_events a = Ok pa ->
    parseFlp_events b
    = Ok (mkParsed (subarray b 0 14) (subarray b 14 22) (events pa)
            (trailingBytes pa) (flVersion pa) (useUnicode pa)).
Proof.
  intros Hab Hlen pa H. unfold parseFlp_events in *.
  rewrite <- (same_len 22 a b Hab).
  rewrite <- (same_parseEvents 22 a b ltac:(lia) Hab) by (cbn [l_pos]; lia).
  destruct (parseEvents _ a _ _) as [st|] eqn:E; [cbn [bind] in *|discriminate].
  apply Ok_inj in H. subst pa. cbn [events trailingBytes flVersion useUnicode].
  apply parseEvents_spec in E; cbn [l_pos] in *; [|lia].
  rewrite <- (same_subarray 22 a b ltac:(lia) Hab (l_pos st) (len a)) by lia.
  reflexivity.
Qed.

Lemma serializeFlp_same_from (buf : list byte) (parsed : ParsedFlp) :
  parseFlp buf = Ok parsed ->
  same_from 22 buf (serializeFlp parsed)
  /\ container_ok (serializeFlp parsed) = true
  /\ subarray (serializeFlp parsed) 0 14 = subarray buf 0 14
  /\ subarray (serializeFlp parsed) 14 22
     = Buffer_from_ascii FLP_DATA_MAGIC ++ subarray buf 18 22.
Proof.
  intros H. pose proof (serializeFlp_parseFlp buf parsed H) as Hs.
  apply parseFlp_inv in H as (Hlen & Hok & _).
  assert (Hsplit : subarray buf 18 (len buf)
                   = subarray buf 18 22 ++ subarray buf 22 (len buf)).
  { symmetry. apply subarray_app; lia. }
  rewrite Hsplit in Hs. clear Hsplit.
  set (h := subarray buf 0 14) in *.
  set (z := subarray buf 18 22) in *.
  set (evs := subarray buf 22 (len buf)) in *.
  set (m := Buffer_from_ascii FLP_DATA_MAGIC) in *.
  assert (Lh : len h = 14) by (unfold h; rewrite len_subarray; lia).
  assert (Lz : len z = 4) by (unfold z; rewrite len_subarray; lia).
  assert (Lm : len m = 4) by reflexivity.
  assert (Le : len evs = len buf - 22) by (unfold evs; rewrite len_subarray; lia).
  assert (Hlen' : len (serializeFlp parsed) = len buf).
  { rewrite Hs. rewrite !len_app. lia. }
  assert (S14 : forall s e, 0 <= s -> e <= 14 ->
            subarray (serializeFlp parsed) s e = subarray h s e).
  { intros s e Hs0 He. rewrite Hs. apply subarray_app_l; lia. }
  assert (Hh : forall s e, 0 <= s -> s <= e -> e <= 14 ->
            subarray h s e = subarray buf s e).
  { intros s e Hs0 Hse He.
    transitivity (subarray (h ++ subarray buf 14 (len buf)) s e).
    - symmetry. apply subarray_app_l; lia.
    - unfold h. rewrite subarray_app by lia. rewrite subarray_all. reflexivity. }
  assert (Sm : subarray (serializeFlp parsed) 14 18 = m).
  { rewrite Hs. rewrite <- Lh at 1.
    replace 18 with (len h + len m) by lia. apply subarray_middle. }
  assert (Sz : subarray (serializeFlp parsed) 18 22 = z).
  { rewrite Hs.
    replace (h ++ m ++ z ++ evs) with ((h ++ m) ++ z ++ evs)
      by (rewrite <- app_assoc; reflexivity).
    replace 18 with (len (h ++ m)) by (rewrite len_app; lia).
    replace 22 with (len (h ++ m) + len z) by (rewrite len_app; lia).
    apply subarray_middle. }
  split; [|split; [|split]].
  - split; [symmetry; exact Hlen'|].
    rewrite (skipn_subarray buf 22). fold evs. rewrite Hs.
    replace (h ++ m ++ z ++ evs) with ((h ++ m ++ z) ++ evs)
      by (rewrite <- !app_assoc; reflexivity).
    replace (Z.to_nat 22) with (List.length (h ++ m ++ z)).
    + rewrite skipn_app, skipn_all, Nat.sub_diag. reflexivity.
    + unfold len in *. rewrite !length_app. lia.
  - unfold container_ok in *.
    rewrite Hlen', Sm, Sz.
    rewrite !S14 by lia. rewrite !Hh by lia.
    fold z.
    apply andb_prop in Hok as [Hok Hsz]. apply andb_prop in Hok as [Hok _].
    fold z in Hsz. rewrite Hok, Hsz. reflexivity.
  - rewrite S14 by lia. apply Hh; lia.
  - rewrite <- (subarray_app (serializeFlp parsed) 14 18 22) by lia.
    rewrite Sm, Sz. reflexivity.
Qed.

(** ** Parsing the output again *)

(** The output of [serializeFlp] for a parsed file is accepted by [parseFlp]
    and decodes into the same events, version and encoding flag, with the
    same header chunk and the event-chunk magic written afresh; serializing
    that again gives the same bytes. *)
Theorem reparse_serialized (buf : list byte) (parsed : ParsedFlp) :
  parseFlp buf = Ok parsed ->
  exists parsed',
    parseFlp (serializeFlp parsed) = Ok parsed'
    /\ events parsed' = events parsed
    /\ headerChunkBytes parsed' = headerChunkBytes parsed
    /\ fldtHeaderBytes parsed'
       = Buffer_from_ascii FLP_DATA_MAGIC ++ subarray buf 18 22
    /\ flVersion parsed' = flVersion parsed
    /\ useUnicode parsed' = useUnicode parsed
    /\ trailingBytes parsed' = None
    /\ serializeFlp parsed' = serializeFlp parsed.
Proof.
  intros H.
  destruct (serializeFlp_same_from buf parsed H) as (Hsame & Hok & Hh & Hd).
  apply parseFlp_inv in H as (Hlen & _ & Hev).
  pose proof (parseFlp_events_same _ _ Hsame Hlen _ Hev) as Hre.
  apply parseFlp_events_cover in Hev as (Hh0 & _ & _ & _ & Ht); [|assumption].
  destruct (container_checks (serializeFlp parsed)) as [_ Hc].
  rewrite <- (Hc Hok) in Hre. rewrite Hh, Hd in Hre.
  eexists. split; [exact Hre|].
  cbn [events headerChunkBytes fldtHeaderBytes flVersion useUnicode trailingBytes].
  repeat split; try congruence.
  unfold serializeFlp.
  cbn [events headerChunkBytes trailingBytes]. rewrite Ht, Hh0. reflexivity.
Qed.

Lemma reparse_serialized_witness :
  exists parsed parsed',
    parseFlp high_bit_FLdt = Ok parsed
    /\ parseFlp (serializeFlp parsed) = Ok parsed'
    /\ events parsed' = events parsed
    /\ headerChunkBytes parsed' = headerChunkBytes parsed
    /\ fldtHeaderBytes parsed'
       = Buffer_from_ascii FLP_DATA_MAGIC ++ subarray high_bit_FLdt 18 22
    /\ flVersion parsed' = flVersion parsed
    /\ useUnicode parsed' = useUnicode parsed
    /\ trailingBytes parsed' = None
    /\ serializeFlp parsed' = serializeFlp parsed.
Proof.
  destruct (parseFlp high_bit_FLdt) as [parsed|] eqn:E; [|discriminate E].
  destruct (reparse_serialized high_bit_FLdt parsed E) as (parsed' & H).
  exists parsed, parsed'. split; [reflexivity|exact H].
Defined.

(** The events, the version and the encoding flag that [parseFlp] decodes
    depend only on the bytes behind the 22-byte container header: any other
    accepted buffer with the same bytes from offset 22 on gives the same. *)
Theorem events_independent_of_header (a b : list byte) (pa : ParsedFlp) :
  same_from 22 a b ->
  parseFlp a = Ok pa ->
  container_ok b = true ->
  exists pb,
    parseFlp b = Ok pb
    /\ events pb = events pa
    /\ flVersion pb = flVersion pa
    /\ useUnicode pb = useUnicode pa.
Proof.
  intros Hsame H Hok.
  apply parseFlp_inv in H as (Hlen & _ & Hev).
  pose proof (parseFlp_events_same _ _ Hsame Hlen _ Hev) as Hre.
  destruct (container_checks b) as [_ Hc]. rewrite <- (Hc Hok) in Hre.
  eexists. split; [exact Hre|]. repeat split.
Qed.

Lemma events_independent_of_header_witness :
  exists pa pb,
    parseFlp text_event_file = Ok pa
    /\ parseFlp text_event_file_480 = Ok pb
    /\ events pb = events pa
    /\ flVersion pb = flVersion pa
    /\ useUnicode pb = useUnicode pa.
Proof.
  destruct (parseFlp text_event_file) as [pa|] eqn:E; [|discriminate E].
  destruct (events_independent_of_header text_event_file text_event_file_480 pa)
    as (pb & H); [split; reflexivity|exact E|reflexivity|].
  exists pa, pb. split; [reflexivity|exact H].
Defined.

(** ** The header chunk and the PPQ *)

Lemma subarray_of_prefix (buf : list byte) (n s e : Z) :
  0 <= s -> e <= n -> 0 <= n <= len buf ->
  subarray (subarray buf 0 n) s e = subarray buf s e.
Proof.
  intros Hs He Hn.
  transitivity (subarray (subarray buf 0 n ++ subarray buf n (len buf)) s e).
  - symmetry. apply subarray_app_l; [lia|]. rewrite len_subarray; lia.
  - rewrite subarray_app by lia. now rewrite subarray_all.
Qed.

(** [getPPQ] on a parsed file succeeds and returns the 16-bit little-endian
    number at offsets 12 and 13 of the file; a patched file gives the same. *)
Theorem getPPQ_of_parsed (buf : list byte) (parsed : ParsedFlp)
    (patcher : FlpEvent -> nat -> FlpEvent) :
  parseFlp buf = Ok parsed ->
  getPPQ parsed = Ok (Reader.le_value (subarray buf 12 14))
  /\ 0 <= Reader.le_value (subarray buf 12 14) < 65536
  /\ getPPQ (patchEvents parsed patcher) = getPPQ parsed.
Proof.
  intros H. apply parseFlp_inv in H as (Hlen & _ & Hev).
  apply parseFlp_events_cover in Hev as (Hh & _); [|assumption].
  split; [|split; [|reflexivity]].
  - unfold getPPQ, Reader.seek. rewrite Hh.
    rewrite len_subarray by lia.
    change ((12 <? 0) || (14 - 0 <? 12)) with false. cbn [bind].
    unfold Reader.readU16LE. rewrite readUIntLE_eq by (rewrite ?len_subarray; lia).
    cbn [bind]. change (12 + 2) with 14.
    now rewrite subarray_of_prefix by lia.
  - assert (L : len (subarray buf 12 14) = 2) by (rewrite len_subarray; lia).
    destruct (subarray buf 12 14) as [|b0 [|b1 [|? ?]]];
      unfold len in L; cbn [List.length] in L; try lia.
    cbn [Reader.le_value].
    pose proof (byteZ_range b0). pose proof (byteZ_range b1). lia.
Qed.

Lemma getPPQ_of_parsed_witness :
  exists parsed,
    parseFlp text_event_file_480 = Ok parsed
    /\ getPPQ parsed = Ok 480
    /\ 0 <= 480 < 65536
    /\ getPPQ (patchEvents parsed retag_195) = getPPQ parsed.
Proof.
  destruct (parseFlp text_event_file_480) as [parsed|] eqn:E; [|discriminate E].
  exists parsed. split; [reflexivity|].
  exact (getPPQ_of_parsed text_event_file_480 parsed retag_195 E).
Defined.

(** ** Text payloads *)

Lemma toString_utf16le_from (s : js_string) :
  valid_string s -> toString_utf16le (Buffer_from_utf16le s) = s.
Proof.
  induction 1 as [|c s Hc _ IH]; [reflexivity|].
  cbn [Buffer_from_utf16le flat_map app toString_utf16le].
  fold (Buffer_from_utf16le s). rewrite IH. f_equal.
  rewrite !byteZ_byte_of_Z_mod.
  change 255 with (Z.ones 8). rewrite !Z.land_ones by lia.
  rewrite Z.shiftr_div_pow2 by lia. change (2 ^ 8) with 256.
  rewrite !Z.mod_mod by lia.
  rewrite (Z.mod_small (c / 256)) by (split; [apply Z.div_pos; lia|apply Z.div_lt_upper_bound; lia]).
  pose proof (Z.div_mod c 256 ltac:(lia)). lia.
Qed.

Lemma char_code_low7 (x : byte) :
  char_code (ascii_of_byte (byte_of_Z (Z.land (byteZ x) 127))) = Z.land (byteZ x) 127.
Proof. destruct x; reflexivity. Qed.

Lemma toString_ascii_units_eq (buf : list byte) :
  toString_ascii_units buf = map (fun b => Z.land (byteZ b) 127) buf.
Proof.
  unfold toString_ascii_units, toString_ascii.
  rewrite list_ascii_of_string_of_list_ascii, map_map.
  apply map_ext. intros x. apply char_code_low7.
Qed.

Lemma low7_of_low8 (c : Z) : Z.land (Z.land c 255) 127 = Z.land c 127.
Proof. rewrite <- Z.land_assoc. reflexivity. Qed.

Lemma toString_ascii_units_from (s : js_string) :
  toString_ascii_units (Buffer_from_ascii_units s) = map (fun c => Z.land c 127) s.
Proof.
  rewrite toString_ascii_units_eq. unfold Buffer_from_ascii_units.
  rewrite map_map. apply map_ext. intros c.
  rewrite byteZ_byte_of_Z_mod.
  replace ((Z.land c 255) mod 256) with (Z.land c 255); [apply low7_of_low8|].
  change 255 with (Z.ones 8). rewrite Z.land_ones by lia.
  change (2 ^ 8) with 256. now rewrite Z.mod_mod by lia.
Qed.

Lemma kept_text_ascii (s : js_string) :
  kept_text false s = kept_text true (map (fun c => Z.land c 127) s).
Proof.
  induction s as [|c s IH]; [reflexivity|].
  cbn [kept_text map]. now rewrite IH.
Qed.

(** Cutting a NUL-terminated string at the first NUL. *)
Lemma cut_at_nul (s : js_string) (i : Z) :
  0 <= i ->
  let k := Z.of_nat (List.length (kept_text true s)) in
  indexOf (s ++ [0]) 0 i = i + k
  /\ firstn (Z.to_nat k) (s ++ [0]) = kept_text true s.
Proof.
  revert i. induction s as [|c s IH]; intros i Hi; cbn zeta.
  - cbn. split; [lia|reflexivity].
  - cbn [app indexOf kept_text].
    destruct (Z.eqb_spec c 0) as [->|Hc].
    + cbn. split; [lia|reflexivity].
    + destruct (IH (i + 1) ltac:(lia)) as [H1 H2]. cbn zeta in H1, H2.
      cbn [List.length]. rewrite H1. split; [lia|].
      rewrite Nat2Z.id in *. cbn [firstn]. now rewrite H2.
Qed.

Lemma getEventString_kept_text (text : js_string) (useUnicode : bool)
    (event : FlpEvent) :
  valid_string text ->
  kind event = Events.text ->
  bytes (payload event) = createTextPayload text useUnicode ->
  getEventString event useUnicode = Some (kept_text useUnicode text).
Proof.
  intros Hv Hk Hb.
  unfold getEventString. rewrite Hk, Hb. unfold createTextPayload.
  assert (Hcut : forall s,
            (if indexOf (s ++ [0]) 0 0 =? -1 then s ++ [0]
             else substring0 (s ++ [0]) (indexOf (s ++ [0]) 0 0))
            = kept_text true s).
  { intros s. destruct (cut_at_nul s 0 ltac:(lia)) as [H1 H2]. cbn zeta in H1, H2.
    rewrite H1. destruct (Z.eqb_spec (0 + Z.of_nat (List.length (kept_text true s))) (-1));
      [lia|].
    unfold substring0. now rewrite Z.add_0_l. }
  destruct useUnicode.
  - rewrite toString_utf16le_from.
    + now rewrite Hcut.
    + apply Forall_app. split; [exact Hv|]. constructor; [lia|constructor].
  - rewrite toString_ascii_units_from, map_app. cbn [map].
    change (Z.land 0 127) with 0. now rewrite Hcut, kept_text_ascii.
Qed.

Lemma kept_text_good (u : bool) (s : js_string) :
  Forall (fun c => 0 < c < 65536 /\ (u = false -> c < 128)) s ->
  kept_text u s = s.
Proof.
  induction 1 as [|c s [Hc H7] _ IH]; [reflexivity|].
  cbn [kept_text]. rewrite IH.
  destruct u.
  - destruct (Z.eqb_spec c 0); [lia|reflexivity].
  - specialize (H7 eq_refl).
    change 127 with (Z.ones 7). rewrite Z.land_ones by lia.
    rewrite Z.mod_small by (change (2 ^ 7) with 128; lia).
    destruct (Z.eqb_spec c 0); [lia|reflexivity].
Qed.

(** What [createTextPayload] wrote is read back by [getEventString], in the
    same encoding, as the text up to its first NUL, every code unit cut to
    its low 7 bits in the ascii encoding; a text without NUL (and of 7-bit
    characters in the ascii encoding) is read back as it was. *)
Theorem text_payload_read_back (text : js_string) (useUnicode : bool)
    (event : FlpEvent) :
  valid_string text ->
  kind event = Events.text ->
  bytes (payload event) = createTextPayload text useUnicode ->
  getEventString event useUnicode = Some (kept_text useUnicode text)
  /\ (Forall (fun c => c <> 0 /\ (useUnicode = false -> c < 128)) text ->
      getEventString event useUnicode = Some text).
Proof.
  intros Hv Hk Hb.
  pose proof (getEventString_kept_text text useUnicode event Hv Hk Hb) as Hget.
  split; [exact Hget|].
  intros Hall. rewrite Hget. f_equal. apply kept_text_good.
  unfold valid_string in Hv. rewrite Forall_forall in *.
  intros c Hc. specialize (Hv c Hc). specialize (Hall c Hc).
  destruct Hall as [H0 H7]. split; [lia|exact H7].
Qed.

(** On the text "H", e-acute and a CJK character, in the 16-bit encoding. *)
Lemma text_payload_read_back_witness :
  let event := createEvent 194 (createTextPayload [72; 233; 0x4E2D] true) 0%N in
  getEventString event true = Some (kept_text true [72; 233; 0x4E2D])
  /\ (Forall (fun c => c <> 0 /\ (true = false -> c < 128)) [72; 233; 0x4E2D] ->
      getEventString event true = Some [72; 233; 0x4E2D]).
Proof.
  apply (text_payload_read_back [72; 233; 0x4E2D] true).
  - repeat constructor; lia.
  - reflexivity.
  - reflexivity.
Defined.

(** ** Files made of new events *)

Lemma serializeEvent_nonempty (e : FlpEvent) : 1 <= len (serializeEvent e).
Proof.
  unfold serializeEvent.
  destruct (Z.gtb_spec (Z.of_nat (List.length (header e))) 0) as [H|H].
  - rewrite len_app. pose proof (len_nonneg (bytes (payload e))). unfold len at 1. lia.
  - rewrite <- app_assoc, len_app. unfold Writer.writeU8 at 1.
    pose proof (len_nonneg ((if id e >=? TEXT
                             then Writer.writeVarInt (len (bytes (payload e)))
                             else []) ++ bytes (payload e))).
    change (len [byte_of_Z (Z.land (id e) 255)]) with 1. lia.
Qed.

Lemma length_le_concat_serialized (es : list FlpEvent) :
  Z.of_nat (List.length es) <= len (concat (map serializeEvent es)).
Proof.
  induction es as [|e es IH]; cbn [map concat List.length].
  - unfold len. cbn. lia.
  - rewrite len_app. pose proof (serializeEvent_nonempty e). lia.
Qed.

Lemma parseEvents_built (items : list (Z * list byte)) :
  Forall (fun item => well_sized (fst item) (snd item)) items ->
  forall (pre : list byte) (st : LoopState) (n : nat),
    l_pos st = len pre ->
    (List.length items <= n)%nat ->
    let B := pre ++ concat (map serializeEvent (built_events items)) in
    exists st',
      parseEvents n B (len B) st = Ok st'
      /\ l_pos st' = len B
      /\ exists new,
           l_events st' = l_events st ++ new /\ Forall2 decodes_item new items.
Proof.
  induction 1 as [|item items Hw _ IH]; intros pre st n Hpos Hn B.
  - subst B. cbn [built_events map concat]. rewrite app_nil_r.
    exists st. split; [|split; [exact Hpos|]].
    + destruct n; cbn [parseEvents];
        (destruct (Z.ltb_spec (l_pos st) (len pre)); [lia|reflexivity]).
    + exists []. rewrite app_nil_r. split; [reflexivity|constructor].
  - destruct n as [|n]; [cbn in Hn; lia|].
    cbn [built_events map concat] in B. fold (built_events items) in B.
    set (e := createEvent (fst item) (snd item) 0%N) in *.
    set (post := concat (map serializeEvent (built_events items))) in *.
    pose proof (serializeEvent_nonempty e) as Hne.
    pose proof (len_nonneg post) as Hpost.
    assert (HB : len B = len pre + len (serializeEvent e) + len post).
    { subst B. rewrite !len_app. lia. }
    cbn [parseEvents]. rewrite Hpos.
    destruct (Z.ltb_spec (len pre) (len B)); [|lia].
    subst B.
    rewrite (parseEvent_createEvent pre post (snd item) (fst item) _ 0%N _ Hw).
    cbn [bind]. fold e.
    destruct (detectVersion _ (l_flVersion st) (l_useUnicode st)) as [v u].
    specialize (IH (pre ++ serializeEvent e)
                  (mkLoop (len pre + len (serializeEvent e))
                     (l_events st ++
                      [mkEvent (fst item) (getEventKind (fst item)) (header e)
                         (mkBuffer (N.of_nat (List.length (l_events st))) (snd item))])
                     v u) n).
    cbn zeta in IH. fold post in IH. rewrite <- app_assoc in IH.
    destruct IH as (st' & Hrun & Hend & new & Hev & Hall).
    + cbn [l_pos]. now rewrite len_app.
    + cbn [List.length] in Hn. lia.
    + exists st'. split; [exact Hrun|split; [exact Hend|]].
      cbn [l_events] in Hev. rewrite <- app_assoc in Hev. cbn [app] in Hev.
      eexists. split; [exact Hev|].
      constructor; [|exact Hall].
      unfold decodes_item. cbn [id kind header payload bytes]. fold e.
      repeat split; reflexivity.
Qed.

Lemma container_ok_rebuilt (buf body : list byte) :
  container_ok buf = true -> len body < 2 ^ 32 ->
  let B := subarray buf 0 14 ++ Buffer_from_ascii FLP_DATA_MAGIC
           ++ Writer.writeU32LE (len body) ++ body in
  container_ok B = true /\ len B = 22 + len body
  /\ subarray B 0 14 = subarray buf 0 14.
Proof.
  intros Hok Hbody B.
  assert (Hlen : 22 <= len buf).
  { unfold container_ok in Hok. destruct (Z.leb_spec 22 (len buf)); [assumption|].
    rewrite andb_false_r in Hok. discriminate. }
  set (h := subarray buf 0 14) in *.
  set (m := Buffer_from_ascii FLP_DATA_MAGIC) in *.
  set (z := Writer.writeU32LE (len body)) in *.
  pose proof (len_nonneg body) as Hb0.
  assert (Lh : len h = 14) by (unfold h; rewrite len_subarray; lia).
  assert (Lz : len z = 4) by reflexivity.
  assert (Lm : len m = 4) by reflexivity.
  assert (HlenB : len B = 22 + len body).
  { subst B. rewrite !len_app. lia. }
  assert (S14 : forall s e, 0 <= s -> e <= 14 -> subarray B s e = subarray buf s e).
  { intros s e Hs0 He. subst B. rewrite subarray_app_l by lia.
    unfold h. apply subarray_of_prefix; lia. }
  assert (Sm : subarray B 14 18 = m).
  { subst B. rewrite <- Lh at 1.
    replace 18 with (len h + len m) by lia. apply subarray_middle. }
  assert (Sz : subarray B 18 22 = z).
  { subst B.
    replace (h ++ m ++ z ++ body) with ((h ++ m) ++ z ++ body)
      by (rewrite <- app_assoc; reflexivity).
    replace 18 with (len (h ++ m)) by (rewrite len_app; lia).
    replace 22 with (len (h ++ m) + len z) by (rewrite len_app; lia).
    apply subarray_middle. }
  split; [|split; [exact HlenB|apply S14; lia]].
  unfold container_ok in *.
  rewrite HlenB, Sm, Sz, !S14 by lia.
  unfold z. rewrite le_value_writeU32LE by lia.
  apply andb_prop in Hok as [Hok _]. apply andb_prop in Hok as [Hok _].
  apply andb_prop in Hok as [Hok Hf]. apply andb_prop in Hok as [Hok Hs].
  apply andb_prop in Hok as [Hok _].
  rewrite Hok, Hs, Hf, Z.eqb_refl.
  destruct (Z.leb_spec 22 (22 + len body)); [reflexivity|lia].
Qed.

(** A file put together from the header chunk of a parsed file and events
    made by [createEvent], each with a payload of the size its id asks for,
    is written by [serializeFlp] into bytes that [parseFlp] accepts and
    decodes into the same ids, kinds, framings and payloads, in order. *)
Theorem built_file_reparses (buf : list byte) (parsed : ParsedFlp)
    (items : list (Z * list byte)) :
  parseFlp buf = Ok parsed ->
  Forall (fun item => well_sized (fst item) (snd item)) items ->
  len (concat (map serializeEvent (built_events items))) < 2 ^ 32 ->
  exists parsed',
    parseFlp (serializeFlp (built_file parsed items)) = Ok parsed'
    /\ Forall2 decodes_item (events parsed') items
    /\ headerChunkBytes parsed' = headerChunkBytes parsed
    /\ trailingBytes parsed' = None.
Proof.
  intros H Hw Hsz.
  apply parseFlp_inv in H as (Hlen & Hok & Hev).
  apply parseFlp_events_cover in Hev as (Hh & _); [|assumption].
  set (body := concat (map serializeEvent (built_events items))) in *.
  assert (Hser : serializeFlp (built_file parsed items)
                 = subarray buf 0 14 ++ Buffer_from_ascii FLP_DATA_MAGIC
                   ++ Writer.writeU32LE (len body) ++ body).
  { unfold serializeFlp, built_file.
    cbn [events headerChunkBytes trailingBytes].
    rewrite fold_left_len, Hh, app_nil_r, Z.add_0_l. reflexivity. }
  destruct (container_ok_rebuilt buf body Hok Hsz) as (HokB & HlenB & HhB).
  cbn zeta in HokB, HlenB, HhB. rewrite <- Hser in HokB, HlenB, HhB.
  destruct (container_checks (serializeFlp (built_file parsed items))) as [_ Hc].
  rewrite (Hc HokB). unfold parseFlp_events.
  set (pre := subarray buf 0 14 ++ Buffer_from_ascii FLP_DATA_MAGIC
              ++ Writer.writeU32LE (len body)).
  assert (Lpre : len pre = 22).
  { unfold pre. rewrite !len_app, len_subarray by lia. reflexivity. }
  assert (Hsplit : serializeFlp (built_file parsed items) = pre ++ body).
  { rewrite Hser. unfold pre. now rewrite <- !app_assoc. }
  destruct (parseEvents_built items Hw pre (mkLoop 22 [] "0.0.0" false)
              (Z.to_nat (len (serializeFlp (built_file parsed items)) - 22)))
    as (st' & Hrun & Hend & new & Hnew & Hall).
  - cbn [l_pos]. now rewrite Lpre.
  - rewrite HlenB. pose proof (length_le_concat_serialized (built_events items)) as L.
    fold body in L. unfold built_events in L at 1. rewrite length_map in L. lia.
  - cbn zeta in Hrun, Hend. fold body in Hrun, Hend. rewrite <- Hsplit in Hrun, Hend.
    rewrite Hrun. cbn [bind]. eexists. split; [reflexivity|].
    cbn [events headerChunkBytes trailingBytes].
    cbn [l_events app] in Hnew. rewrite Hnew.
    split; [exact Hall|]. split; [now rewrite HhB, Hh|].
    rewrite Hend.
    destruct (Z.gtb_spec (len (serializeFlp (built_file parsed items))
                          - len (serializeFlp (built_file parsed items))) 0);
      [lia|reflexivity].
Qed.

Lemma built_file_reparses_witness :
  exists parsed parsed',
    parseFlp text_event_file_480 = Ok parsed
    /\ parseFlp (serializeFlp (built_file parsed
                  [(5, bytes_of [1]); (199, bytes_of [0x32; 0x31; 0x2E; 0x30; 0])]))
       = Ok parsed'
    /\ Forall2 decodes_item (events parsed')
         [(5, bytes_of [1]); (199, bytes_of [0x32; 0x31; 0x2E; 0x30; 0])]
    /\ headerChunkBytes parsed' = headerChunkBytes parsed
    /\ trailingBytes parsed' = None.
Proof.
  destruct (parseFlp text_event_file_480) as [parsed|] eqn:E; [|discriminate E].
  destruct (built_file_reparses text_event_file_480 parsed
              [(5, bytes_of [1]); (199, bytes_of [0x32; 0x31; 0x2E; 0x30; 0])] E)
    as (parsed' & H).
  - apply Forall_cons; [|apply Forall_cons; [|apply Forall_nil]]; cbn [fst snd].
    + split; [lia|]. left. split; [left; unfold DWORD; lia|reflexivity].
    + split; [lia|]. right. split; [unfold TEXT; lia|vm_compute; reflexivity].
  - vm_compute. reflexivity.
  - exists parsed, parsed'. split; [reflexivity|exact H].
Defined.

(** ** Looking events up *)

Lemma Some_inj {A} (x y : A) : Some x = Some y -> x = y.
Proof. congruence. Qed.

(** [findFirstEvent] returns the first of the events [findEvents] returns,
    and nothing when there is none; the event it returns stands in the file
    behind events of other ids only. *)
Theorem findFirstEvent_is_first_found (parsed : ParsedFlp) (eventId : Z) :
  findFirstEvent parsed eventId = hd_error (findEvents parsed eventId)
  /\ (forall e, findFirstEvent parsed eventId = Some e ->
        exists before after,
          events parsed = before ++ e :: after
          /\ id e = eventId
          /\ Forall (fun x => id x <> eventId) before)
  /\ (findFirstEvent parsed eventId = None <->
        Forall (fun x => id x <> eventId) (events parsed)).
Proof.
  unfold findFirstEvent, findEvents.
  induction (events parsed) as [|x es (IH1 & IH2 & IH3)]; cbn [find filter].
  - split; [reflexivity|]. split; [discriminate|]. split; [constructor|reflexivity].
  - destruct (Z.eqb_spec (id x) eventId) as [E|E].
    + split; [reflexivity|]. split.
      * intros e He. apply Some_inj in He. subst e.
        exists [], es. split; [reflexivity|]. split; [exact E|constructor].
      * split; [discriminate|]. intros H. inversion H; contradiction.
    + split; [exact IH1|]. split.
      * intros e He. destruct (IH2 e He) as (before & after & H1 & H2 & H3).
        exists (x :: before), after. rewrite H1. split; [reflexivity|].
        split; [exact H2|]. now constructor.
      * rewrite IH3. split; intros H; [now constructor|now inversion H].
Qed.

(** On the file with the single event 5. *)
Lemma findFirstEvent_is_first_found_witness :
  findFirstEvent synthesized_event_file 5
  = hd_error (findEvents synthesized_event_file 5)
  /\ (forall e, findFirstEvent synthesized_event_file 5 = Some e ->
        exists before after,
          events synthesized_event_file = before ++ e :: after
          /\ id e = 5
          /\ Forall (fun x => id x <> 5) before)
  /\ (findFirstEvent synthesized_event_file 5 = None <->
        Forall (fun x => id x <> 5) (events synthesized_event_file)).
Proof.
  exact (findFirstEvent_is_first_found synthesized_event_file 5).
Defined.

(** ** The samples of a parsed file *)

Lemma listSamples_from_ok (parsed : ParsedFlp) (u : bool) :
  forall (es : list FlpEvent) (index : nat),
    Forall (fun e => kind e = getEventKind (id e)) es ->
    (forall i e, nth_error es i = Some e ->
                 nth_error (events parsed) (index + i) = Some e) ->
    u = useUnicode parsed ->
    exists samples,
      listSamples_from u es index = Some samples
      /\ Forall (sample_entry_ok parsed) samples
      /\ (forall i e path,
            nth_error es i = Some e ->
            id e = EVENT_ID.CHANNEL_SAMPLE_PATH ->
            getEventString e u = Some path -> path <> [] ->
            In ((index + i)%nat, path) samples).
Proof.
  induction es as [|x es IH]; intros index Hk Hn Hu; cbn [listSamples_from].
  - exists []. split; [reflexivity|]. split; [constructor|].
    intros [|i] e path H; discriminate H.
  - inversion Hk as [|? ? Hx Hes]; subst x0 l.
    destruct (IH (S index) Hes) as (rest & Hrest & Hall & Hin); [|exact Hu|].
    { intros i e H. specialize (Hn (S i) e H).
      now replace (S index + i)%nat with (index + S i)%nat by lia. }
    destruct (Z.eqb_spec (id x) EVENT_ID.CHANNEL_SAMPLE_PATH) as [E|E].
    + assert (Hkx : kind x = text) by (rewrite Hx, E; reflexivity).
      destruct (getEventString x u) as [path|] eqn:G.
      2:{ unfold getEventString in G. rewrite Hkx in G. discriminate G. }
      rewrite Hrest.
      eexists. split; [reflexivity|].
      assert (Hx0 : nth_error (events parsed) index = Some x).
      { specialize (Hn 0%nat x eq_refl). now rewrite Nat.add_0_r in Hn. }
      split.
      * destruct path as [|c path]; cbn [List.length];
          [exact Hall|].
        destruct (Z.ltb_spec 0 (Z.of_nat (S (List.length path)))); [|lia].
        constructor; [|exact Hall].
        exists x. cbn [fst snd]. rewrite <- Hu.
        split; [exact Hx0|]. split; [exact E|]. split; [exact G|discriminate].
      * intros [|i] e p He Hid Hg Hp; cbn [nth_error] in He.
        -- apply Some_inj in He. subst e. rewrite G in Hg.
           apply Some_inj in Hg. subst p. rewrite Nat.add_0_r.
           destruct path as [|c path]; [contradiction|]. cbn [List.length].
           destruct (Z.ltb_spec 0 (Z.of_nat (S (List.length path)))); [|lia].
           now left.
        -- specialize (Hin i e p He Hid Hg Hp).
           replace (index + S i)%nat with (S index + i)%nat by lia.
           destruct (0 <? _); [now right|exact Hin].
    + exists rest. split; [exact Hrest|]. split; [exact Hall|].
      intros [|i] e p He Hid Hg Hp; cbn [nth_error] in He.
      * apply Some_inj in He. subst e. contradiction.
      * specialize (Hin i e p He Hid Hg Hp).
        now replace (index + S i)%nat with (S index + i)%nat by lia.
Qed.

(** On a parsed file [listSamples] never throws: every sample-path event
    was given the kind of a text event.  Each entry it returns names a
    sample-path event of the file with its non-empty path, and every such
    event is listed. *)
Theorem listSamples_of_parsed (buf : list byte) (parsed : ParsedFlp) :
  parseFlp buf = Ok parsed ->
  exists samples,
    listSamples parsed = Some samples
    /\ Forall (sample_entry_ok parsed) samples
    /\ (forall i e path,
          nth_error (events parsed) i = Some e ->
          id e = EVENT_ID.CHANNEL_SAMPLE_PATH ->
          getEventString e (useUnicode parsed) = Some path -> path <> [] ->
          In (i, path) samples).
Proof.
  intros H. apply parseFlp_inv in H as (_ & _ & H).
  assert (Hk : Forall (fun e => kind e = getEventKind (id e)) (events parsed)).
  { unfold parseFlp_events in H.
    destruct (parseEvents _ _ _ _) as [st|] eqn:E; [cbn [bind] in H|discriminate].
    apply Ok_inj in H. subst parsed. cbn [events].
    eapply parseEvents_Forall in E; [exact E| |constructor].
    intros p fresh e p' Hp. apply parseEvent_decoded_ok in Hp.
    now destruct Hp as (_ & Hkind & _). }
  unfold listSamples.
  apply (listSamples_from_ok parsed (useUnicode parsed) (events parsed) 0%nat Hk);
    [|reflexivity].
  intros i e Hn. exact Hn.
Qed.

Lemma listSamples_of_parsed_witness :
  exists parsed samples,
    parseFlp sample_file = Ok parsed
    /\ listSamples parsed = Some samples
    /\ Forall (sample_entry_ok parsed) samples
    /\ (forall i e path,
          nth_error (events parsed) i = Some e ->
          id e = EVENT_ID.CHANNEL_SAMPLE_PATH ->
          getEventString e (useUnicode parsed) = Some path -> path <> [] ->
          In (i, path) samples).
Proof.
  destruct (parseFlp sample_file) as [parsed|] eqn:E; [|discriminate E].
  destruct (listSamples_of_parsed sample_file parsed E) as (samples & H).
  exists parsed, samples. split; [reflexivity|exact H].
Defined.

(** ** Rewriting the sample paths *)

Lemma getEventString_good_path (u : bool) (s : js_string) (e : FlpEvent) :
  good_path u s -> kind e = text -> bytes (payload e) = createTextPayload s u ->
  getEventString e u = Some s.
Proof.
  intros [_ Hg] Hk Hb.
  rewrite (getEventString_kept_text s u e); [now rewrite kept_text_good| |exact Hk|exact Hb].
  eapply Forall_impl; [|exact Hg]. cbn. intros c [H _]. lia.
Qed.

Lemma js_string_eqb_eq (a b : js_string) : js_string_eqb a b = true -> a = b.
Proof. unfold js_string_eqb. destruct (list_eq_dec Z.eq_dec a b); [auto|discriminate]. Qed.

Lemma rewrite_then_list (parsed : ParsedFlp) (mapper : js_string -> js_string)
    (fresh : nat -> N) :
  (forall p, good_path (useUnicode parsed) (mapper p)) ->
  forall (es : list FlpEvent) (k : nat),
    Forall (fun e => kind e = getEventKind (id e)
                     /\ (TEXT <= id e -> 2 <= len (header e))) es ->
    (forall i e, nth_error es i = Some e -> fresh (k + i)%nat <> ref (payload e)) ->
    exists es' samples,
      patchEvents_from
        (fun event index => samplePathPatcher parsed mapper (fresh index) event) es k
      = Some es'
      /\ listSamples_from (useUnicode parsed) es k = Some samples
      /\ listSamples_from (useUnicode parsed) es' k
         = Some (map (fun s => (fst s, mapper (snd s))) samples)
      /\ map id es' = map id es
      /\ (forall i e, nth_error es i = Some e ->
                      id e <> EVENT_ID.CHANNEL_SAMPLE_PATH ->
                      nth_error es' i = Some e).
Proof.
  intros Hmap. induction es as [|x es IH]; intros k Hk Hfresh.
  - exists [], []. cbn. repeat split. intros [|i] e H; discriminate H.
  - inversion Hk as [|? ? [Hkind Hhdr] Hes]; subst x0 l.
    destruct (IH (S k) Hes) as (es' & samples & Hp & Hl & Hl' & Hid & Hkeep).
    { intros i e H. specialize (Hfresh (S i) e H).
      now replace (S k + i)%nat with (k + S i)%nat by lia. }
    assert (Hsame : patchEvent (fun _ _ => x) x k = x).
    { unfold patchEvent, payload_differs. rewrite N.eqb_refl. reflexivity. }
    assert (Hkeep' : forall x', id x' = id x -> forall i e,
               nth_error (x :: es) i = Some e ->
               id e <> EVENT_ID.CHANNEL_SAMPLE_PATH ->
               id x = EVENT_ID.CHANNEL_SAMPLE_PATH \/ x' = x ->
               nth_error (x' :: es') i = Some e).
    { intros x' _ [|i] e He Hne Hx; cbn [nth_error] in *.
      - apply Some_inj in He. subst e. destruct Hx as [Hx|Hx]; [contradiction|now subst].
      - now apply Hkeep. }
    cbn [patchEvents_from listSamples_from]. unfold samplePathPatcher at 1.
    destruct (Z.eqb_spec (id x) EVENT_ID.CHANNEL_SAMPLE_PATH) as [E|E]; cbn [negb].
    2:{ rewrite Hp, Hsame. exists (x :: es'), samples.
        cbn [listSamples_from map].
        destruct (Z.eqb_spec (id x) EVENT_ID.CHANNEL_SAMPLE_PATH); [contradiction|].
        rewrite Hid. repeat split; try assumption.
        intros i ev He Hne. apply (Hkeep' x eq_refl i ev He Hne). now right. }
    assert (Hkx : kind x = text) by (rewrite Hkind, E; reflexivity).
    destruct (getEventString x (useUnicode parsed)) as [old|] eqn:G.
    2:{ unfold getEventString in G. rewrite Hkx in G. discriminate G. }
    rewrite Hl.
    destruct old as [|c old].
    { cbn [List.length]. change (Z.of_nat 0 =? 0) with true. cbv iota.
      rewrite Hp, Hsame. exists (x :: es'), samples.
      cbn [listSamples_from map].
      destruct (Z.eqb_spec (id x) EVENT_ID.CHANNEL_SAMPLE_PATH); [|contradiction].
      rewrite G, Hl'. cbn [List.length]. change (0 <? Z.of_nat 0) with false. cbv iota.
      rewrite Hid. repeat split.
      intros i ev He Hne. apply (Hkeep' x eq_refl i ev He Hne). now left. }
    cbn [List.length].
    destruct (Z.eqb_spec (Z.of_nat (S (List.length old))) 0); [lia|].
    destruct (Z.ltb_spec 0 (Z.of_nat (S (List.length old)))); [|lia].
    cbv zeta.
    destruct (js_string_eqb (mapper (c :: old)) (c :: old)) eqn:Q.
    + apply js_string_eqb_eq in Q.
      rewrite Hp, Hsame. exists (x :: es'), ((k, c :: old) :: samples).
      cbn [listSamples_from map fst snd].
      destruct (Z.eqb_spec (id x) EVENT_ID.CHANNEL_SAMPLE_PATH); [|contradiction].
      rewrite G, Hl'. cbn [List.length].
      destruct (Z.ltb_spec 0 (Z.of_nat (S (List.length old)))); [|lia].
      rewrite Q, Hid. repeat split.
      intros i ev He Hne. apply (Hkeep' x eq_refl i ev He Hne). now left.
    + rewrite Hp.
      pose proof (Hmap (c :: old)) as Hgood.
      remember (mapper (c :: old)) as new eqn:En.
      set (patched := mkEvent (id x) (kind x) (header x)
                        (mkBuffer (fresh k)
                           (createTextPayload new (useUnicode parsed)))).
      assert (Hdiff : payload_differs patched x = true).
      { unfold payload_differs, patched. cbn [payload ref].
        specialize (Hfresh 0%nat x eq_refl). rewrite Nat.add_0_r in Hfresh.
        destruct (N.eqb_spec (fresh k) (ref (payload x))); [contradiction|reflexivity]. }
      assert (Hwide : (Z.of_nat (List.length (header x)) >? 1) = true).
      { assert (Ht : TEXT <= id x)
          by (rewrite E; unfold EVENT_ID.CHANNEL_SAMPLE_PATH; lia).
        specialize (Hhdr Ht). unfold len in Hhdr.
        destruct (Z.gtb_spec (Z.of_nat (List.length (header x))) 1); [reflexivity|lia]. }
      set (x' := patchEvent (fun _ _ => patched) x k).
      assert (Hx' : id x' = id x /\ kind x' = text
                    /\ bytes (payload x') = createTextPayload new (useUnicode parsed)).
      { unfold x', patchEvent. rewrite Hdiff, Hwide. cbn [andb id kind payload bytes].
        unfold patched. cbn [id kind payload bytes]. auto. }
      destruct Hx' as (Hx1 & Hx2 & Hx3).
      exists (x' :: es'), ((k, c :: old) :: samples).
      cbn [listSamples_from map fst snd]. rewrite Hx1, <- En.
      destruct (Z.eqb_spec (id x) EVENT_ID.CHANNEL_SAMPLE_PATH); [|contradiction].
      rewrite (getEventString_good_path _ new x' Hgood Hx2 Hx3), Hl'.
      assert (Hlen : (0 <? Z.of_nat (List.length new)) = true).
      { destruct Hgood as [Hne _]. destruct new; [contradiction|].
        cbn [List.length]. apply Z.ltb_lt. lia. }
      rewrite Hlen, Hid. repeat split.
      intros i ev He Hn0. apply (Hkeep' x' Hx1 i ev He Hn0). now left.
Qed.

(** On a parsed file, with a mapper that only returns paths a text payload
    keeps (not empty, without NUL, 7-bit in the ascii encoding) and with new
    payload buffers that are none of the old ones, [rewriteSamplePaths] does
    not throw, and [listSamples] on its result returns the entries of the
    original file with every path mapped; the ids of all events and the
    events that are no sample paths stay as they were. *)
Theorem rewritten_samples_listed (buf : list byte) (parsed : ParsedFlp)
    (mapper : js_string -> js_string) (fresh : nat -> N) :
  parseFlp buf = Ok parsed ->
  fresh_for parsed fresh ->
  (forall p, good_path (useUnicode parsed) (mapper p)) ->
  exists parsed' samples,
    rewriteSamplePaths parsed mapper fresh = Some parsed'
    /\ listSamples parsed = Some samples
    /\ listSamples parsed' = Some (map (fun s => (fst s, mapper (snd s))) samples)
    /\ map id (events parsed') = map id (events parsed)
    /\ (forall i e, nth_error (events parsed) i = Some e ->
                    id e <> EVENT_ID.CHANNEL_SAMPLE_PATH ->
                    nth_error (events parsed') i = Some e).
Proof.
  intros H Hfresh Hmap. apply parseFlp_inv in H as (_ & _ & H).
  assert (Hk : Forall (fun e => kind e = getEventKind (id e)
                                /\ (TEXT <= id e -> 2 <= len (header e)))
                 (events parsed)).
  { unfold parseFlp_events in H.
    destruct (parseEvents _ _ _ _) as [st|] eqn:E; [cbn [bind] in H|discriminate].
    apply Ok_inj in H. subst parsed. cbn [events].
    eapply parseEvents_Forall in E; [exact E| |constructor].
    intros p fr e p' Hp. apply parseEvent_decoded_ok in Hp.
    destruct Hp as (_ & Hkind & _ & _ & Hw). now split. }
  destruct (rewrite_then_list parsed mapper fresh Hmap (events parsed) 0%nat Hk)
    as (es' & samples & Hp & Hl & Hl' & Hid & Hkeep).
  { intros i e Hn. now apply Hfresh. }
  unfold rewriteSamplePaths, listSamples. rewrite Hp.
  eexists. exists samples. split; [reflexivity|].
  cbn [events useUnicode]. auto.
Qed.

Lemma rewriteSamplePaths_witness_file :
  exists parsed,
    parseFlp sample_file = Ok parsed
    /\ events parsed
       = [mkEvent 196 text (bytes_of [0xC4; 4])
            (mkBuffer 0%N (bytes_of [0x61; 0x2E; 0x77; 0]))]
    /\ useUnicode parsed = false.
Proof. eexists. split; [vm_compute; reflexivity|]. split; reflexivity. Defined.

Lemma rewritten_samples_listed_witness :
  exists parsed parsed' samples,
    parseFlp sample_file = Ok parsed
    /\ rewriteSamplePaths parsed (fun _ => [0x62]) (fun i => N.of_nat (S i))
       = Some parsed'
    /\ listSamples parsed = Some samples
    /\ listSamples parsed' = Some (map (fun s => (fst s, [0x62])) samples)
    /\ map id (events parsed') = map id (events parsed)
    /\ (forall i e, nth_error (events parsed) i = Some e ->
                    id e <> EVENT_ID.CHANNEL_SAMPLE_PATH ->
                    nth_error (events parsed') i = Some e).
Proof.
  destruct rewriteSamplePaths_witness_file as (parsed & E & Hev & Hu).
  destruct (rewritten_samples_listed sample_file parsed
              (fun _ => [0x62]) (fun i => N.of_nat (S i)) E)
    as (parsed' & samples & H).
  - unfold fresh_for. rewrite Hev. intros [|[|i]] e Hn; cbn in Hn; try discriminate Hn.
    apply Some_inj in Hn. subst e. cbn. discriminate.
  - intros _. rewrite Hu. split; [discriminate|].
    constructor; [|constructor]. split; [lia|intros _; lia].
  - exists parsed, parsed', samples. split; [exact E|exact H].
Defined.

Lemma patchEvents_from_same (parsed : ParsedFlp) (mapper : js_string -> js_string)
    (fresh : nat -> N) :
  (forall p, mapper p = p) ->
  forall (es : list FlpEvent) (k : nat),
    Forall (fun e => kind e = getEventKind (id e)) es ->
    patchEvents_from
      (fun event index => samplePathPatcher parsed mapper (fresh index) event) es k
    = Some es.
Proof.
  intros Hmap. induction es as [|x es IH]; intros k Hk; [reflexivity|].
  inversion Hk as [|? ? Hkind Hes]; subst x0 l.
  assert (Hsame : patchEvent (fun _ _ => x) x k = x).
  { unfold patchEvent, payload_differs. rewrite N.eqb_refl. reflexivity. }
  cbn [patchEvents_from]. rewrite (IH (S k) Hes).
  unfold samplePathPatcher.
  destruct (Z.eqb_spec (id x) EVENT_ID.CHANNEL_SAMPLE_PATH) as [E|E]; cbn [negb];
    [|now rewrite Hsame].
  assert (Hkx : kind x = text) by (rewrite Hkind, E; reflexivity).
  destruct (getEventString x (useUnicode parsed)) as [old|] eqn:G.
  2:{ unfold getEventString in G. rewrite Hkx in G. discriminate G. }
  destruct (Z.of_nat (List.length old) =? 0); [now rewrite Hsame|].
  cbv zeta. rewrite Hmap. unfold js_string_eqb.
  destruct (list_eq_dec Z.eq_dec old old); [now rewrite Hsame|contradiction].
Qed.

(** With a mapper that returns every path as it is, [rewriteSamplePaths]
    on a parsed file does not throw and returns the file as it was, so
    that [serializeFlp] writes the same bytes. *)
Theorem rewriteSamplePaths_same_paths (buf : list byte) (parsed : ParsedFlp)
    (mapper : js_string -> js_string) (fresh : nat -> N) :
  parseFlp buf = Ok parsed ->
  (forall p, mapper p = p) ->
  rewriteSamplePaths parsed mapper fresh = Some parsed
  /\ option_map serializeFlp (rewriteSamplePaths parsed mapper fresh)
     = Some (serializeFlp parsed).
Proof.
  intros H Hmap. apply parseFlp_inv in H as (_ & _ & H).
  assert (Hk : Forall (fun e => kind e = getEventKind (id e)) (events parsed)).
  { unfold parseFlp_events in H.
    destruct (parseEvents _ _ _ _) as [st|] eqn:E; [cbn [bind] in H|discriminate].
    apply Ok_inj in H. subst parsed. cbn [events].
    eapply parseEvents_Forall in E; [exact E| |constructor].
    intros p fr e p' Hp. apply parseEvent_decoded_ok in Hp.
    now destruct Hp as (_ & Hkind & _). }
  assert (R : rewriteSamplePaths parsed mapper fresh = Some parsed).
  { unfold rewriteSamplePaths.
    rewrite (patchEvents_from_same parsed mapper fresh Hmap _ 0%nat Hk).
    now destruct parsed. }
  split; [exact R|]. now rewrite R.
Qed.

Lemma rewriteSamplePaths_same_paths_witness :
  exists parsed,
    parseFlp sample_file = Ok parsed
    /\ rewriteSamplePaths parsed (fun p => p) (fun i => N.of_nat (S i)) = Some parsed
    /\ option_map serializeFlp
         (rewriteSamplePaths parsed (fun p => p) (fun i => N.of_nat (S i)))
       = Some (serializeFlp parsed).
Proof.
  destruct (parseFlp sample_file) as [parsed|] eqn:E; [|discriminate E].
  exists parsed. split; [reflexivity|].
  apply (rewriteSamplePaths_same_paths sample_file parsed (fun p => p)
           (fun i => N.of_nat (S i)) E).
  reflexivity.
Defined.
